(** * Point-source detection and amplitude fitting (dory.py)

    A shallow embedding of the numerical core of [dory.py]: the matched
    filter, the blind source finder, the correlation grouping, the early
    exits of the joint amplitude fitter, and the duplicate / map mergers;
    of its helpers (regions, local noise levels, priors, pruning around
    bright sources, the catalog readers and writers); of the logging set-up
    of [log.py]; and of the scan selection of [ptsrc_data/src_scan.py].

    Floating-point numbers are idealised as real numbers ([R]).  Where the
    program relies on the non-finite values of IEEE arithmetic (a NaN that
    fails every comparison, the division [0/0] repaired by [nan_to_num]) the
    values are taken in [num], the reals extended by the two infinities and
    NaN.  One-dimensional arrays and catalogues are lists; maps are functions
    of the pixel indices, or lists in C order where the program labels and
    reduces them; sets of indices are lists of [nat].  A call that can raise
    returns a [Py.result]. *)

From Stdlib Require Import Reals Lra Lia List Bool Arith ZArith Permutation.
From Stdlib Require String Ascii.
Import ListNotations.
Open Scope R_scope.

(** * Part I: the model *)

(** ** Comparisons and reductions shared by all components *)

Definition Rleb (x y : R) : bool := if Rle_dec x y then true else false.
Definition Rltb (x y : R) : bool := if Rlt_dec x y then true else false.

(** [np.max] of a non-empty array of finite values. *)
Definition np_max (l : list R) : R :=
  match l with [] => 0 | x :: t => fold_left Rmax t x end.

(** [np.sum]. *)
Definition np_sum (l : list R) : R := fold_right Rplus 0 l.

(** Pixel-wise combination of two arrays of the same shape. *)
Fixpoint map2 {A B C : Type} (f : A -> B -> C) (a : list A) (b : list B) : list C :=
  match a, b with
  | x :: a', y :: b' => f x y :: map2 f a' b'
  | _, _ => []
  end.

(** ** Angles and neighbour queries shared by the groupers *)

(** Python's [a % n] on floats, for a positive period [n]. *)
Definition fmod (a n : R) : R := a - n * IZR (Int_part (a / n)).

(** Modelled from the spec: [utils.rewind] is not among the sources; it is
    called to normalize positions, bringing an angle into the principal
    range [-pi, pi) by whole turns: [ref + (a - ref + n/2) % n - n/2] with
    [ref = 0] and [n = 2 pi]. *)
Definition rewind_principal (a : R) : R := fmod (a + PI) (2 * PI) - PI.

(** Whether two points of a k-d tree lie within Euclidean distance [r] of
    each other ([cKDTree.query_ball_tree] with the default norm): the tree
    compares the squared distance with the squared radius, so that the sign
    of [r] plays no part. *)
Definition within (r : R) (p q : R * R) : bool :=
  Rleb ((fst p - fst q) * (fst p - fst q) + (snd p - snd q) * (snd p - snd q)) (r * r).

(** ** Values with the non-finite cases of IEEE arithmetic

    A finite real, plus or minus infinity, or NaN.  Zero carries no sign:
    a non-zero value divided by zero takes the sign of the numerator. *)

Module Num.

Inductive num : Type :=
| Fin (x : R)
| PInf
| NInf
| NaN.

Definition is_finite (a : num) : bool := match a with Fin _ => true | _ => false end.

Definition nopp (a : num) : num :=
  match a with Fin x => Fin (- x) | PInf => NInf | NInf => PInf | NaN => NaN end.

Definition nabs (a : num) : num :=
  match a with Fin x => Fin (Rabs x) | PInf | NInf => PInf | NaN => NaN end.

Definition nadd (a b : num) : num :=
  match a, b with
  | NaN, _ | _, NaN => NaN
  | Fin x, Fin y => Fin (x + y)
  | PInf, NInf | NInf, PInf => NaN
  | PInf, _ | _, PInf => PInf
  | NInf, _ | _, NInf => NInf
  end.

(** An infinity scaled by the finite factor [x]. *)
Definition scale_inf (x : R) (a : num) : num :=
  if Rlt_dec 0 x then a else if Rlt_dec x 0 then nopp a else NaN.

Definition nmul (a b : num) : num :=
  match a, b with
  | NaN, _ | _, NaN => NaN
  | Fin x, Fin y => Fin (x * y)
  | Fin x, PInf | PInf, Fin x => scale_inf x PInf
  | Fin x, NInf | NInf, Fin x => scale_inf x NInf
  | PInf, PInf | NInf, NInf => PInf
  | PInf, NInf | NInf, PInf => NInf
  end.

Definition ndiv (a b : num) : num :=
  match a, b with
  | NaN, _ | _, NaN => NaN
  | Fin x, Fin y =>
      if Req_dec_T y 0 then scale_inf x PInf else Fin (x / y)
  | Fin _, (PInf | NInf) => Fin 0
  | PInf, Fin y => if Rlt_dec y 0 then NInf else PInf
  | NInf, Fin y => if Rlt_dec y 0 then PInf else NInf
  | (PInf | NInf), (PInf | NInf) => NaN
  end.

(** [a <= b]; every comparison with NaN is false. *)
Definition nleb (a b : num) : bool :=
  match a, b with
  | NaN, _ | _, NaN => false
  | Fin x, Fin y => Rleb x y
  | NInf, _ | _, PInf => true
  | _, _ => false
  end.

(** [x ** -2] *)
Definition npow_m2 (a : num) : num := ndiv (Fin 1) (nmul a a).

(** [np.cos] *)
Definition ncos (a : num) : num := match a with Fin x => Fin (cos x) | _ => NaN end.

(** [np.sum] *)
Definition nsum (l : list num) : num := fold_right nadd (Fin 0) l.

(** [np.max] and [np.min]: a NaN anywhere in the array is the result. *)
Definition nmax2 (a b : num) : num :=
  match a, b with
  | NaN, _ | _, NaN => NaN
  | _, _ => if nleb a b then b else a
  end.
Definition nmin2 (a b : num) : num :=
  match a, b with
  | NaN, _ | _, NaN => NaN
  | _, _ => if nleb a b then a else b
  end.
Definition n_max (l : list num) : num :=
  match l with [] => NaN | x :: t => fold_left nmax2 t x end.
Definition n_min (l : list num) : num :=
  match l with [] => NaN | x :: t => fold_left nmin2 t x end.

(** [np.nan_to_num]: NaN becomes 0 and an infinity the largest finite
    value [fmax] of the array's type, with its sign. *)
Definition nan_to_num (fmax : R) (a : num) : R :=
  match a with Fin x => x | PInf => fmax | NInf => - fmax | NaN => 0 end.

End Num.

(** ** Python values: exceptions, indices and slices *)

Module Py.

Inductive exn : Type :=
| IndexError
| ValueError
| ZeroDivisionError
| NotImplementedError.

(** A call returns a value or raises. *)
Inductive result (A : Type) : Type :=
| Ok (a : A)
| Raise (e : exn).
Arguments Ok {A} a.
Arguments Raise {A} e.

Definition bind {A B : Type} (r : result A) (f : A -> result B) : result B :=
  match r with Ok a => f a | Raise e => Raise e end.

Notation "x <- r ;; k" := (bind r (fun x => k))
  (at level 61, r at next level, right associativity).

(** Every element through a fallible function, left to right. *)
Fixpoint traverse {A B : Type} (f : A -> result B) (l : list A) : result (list B) :=
  match l with
  | [] => Ok []
  | a :: t => b <- f a ;; bs <- traverse f t ;; Ok (b :: bs)
  end.

(** A slice bound as Python reads it: a negative bound counts from the end,
    and every bound is clipped to the sequence. *)
Definition bound (len i : Z) : Z :=
  if (i <? 0)%Z then Z.max 0 (i + len) else Z.min i len.

(** [l[i:j]] *)
Definition slice {A : Type} (l : list A) (i j : Z) : list A :=
  let n := Z.of_nat (length l) in
  let a := bound n i in
  let b := bound n j in
  firstn (Z.to_nat (b - a)) (skipn (Z.to_nat a) l).

(** The position an index refers to: a negative index counts from the end,
    and an index outside the sequence raises. *)
Definition position {A : Type} (l : list A) (i : Z) : result nat :=
  let n := Z.of_nat (length l) in
  let k := if (i <? 0)%Z then (i + n)%Z else i in
  if ((0 <=? k) && (k <? n))%Z then Ok (Z.to_nat k) else Raise IndexError.

(** [l[i]] *)
Definition item {A : Type} (d : A) (l : list A) (i : Z) : result A :=
  k <- position l i ;; Ok (nth k l d).

(** [l[inds]] for an array of indices. *)
Definition take {A : Type} (d : A) (l : list A) (inds : list Z) : result (list A) :=
  traverse (item d l) inds.

(** [l[i:j] = src] on a numpy array: the source has the length of the slice
    or a single element, which is then repeated. *)
Definition assign_slice {A : Type} (l : list A) (i j : Z) (src : list A) : result (list A) :=
  let n := Z.of_nat (length l) in
  let a := Z.to_nat (bound n i) in
  let k := Z.to_nat (bound n j - bound n i) in
  if (length src =? k)%nat then Ok (firstn a l ++ src ++ skipn (a + k) l)
  else match src with
       | [x] => Ok (firstn a l ++ repeat x k ++ skipn (a + k) l)
       | _ => Raise ValueError
       end.

End Py.

(** ** Noise/filter estimator: [build_filter] *)

Module Filter.

(** A real map and a complex map of a fixed shape: the value at every pixel
    (or harmonic mode); only the indices inside the shape matter. *)
Definition rmap : Type := nat -> nat -> R.
Definition C : Type := (R * R)%type.
Definition cmap : Type := nat -> nat -> C.

Definition Cmul (a b : C) : C :=
  (fst a * fst b - snd a * snd b, fst a * snd b + snd a * fst b).
Definition Cscale (r : R) (a : C) : C := (r * fst a, r * snd a).
Definition cis (t : R) : C := (cos t, sin t).

(** [m + 0j] and [m.real] *)
Definition of_real (m : rmap) : cmap := fun y x => (m y x, 0).
Definition real (m : cmap) : rmap := fun y x => fst (m y x).

(** The sum of [f 0 .. f (n-1)]. *)
Fixpoint rsum (n : nat) (f : nat -> R) : R :=
  match n with
  | O => 0
  | S k => rsum k f + f k
  end.

Section Grid.
(** The shape of the maps. *)
Variables ny nx : nat.

(** The sum over all pixels (or modes) of the grid. *)
Definition gsum (f : nat -> nat -> R) : R :=
  rsum ny (fun y => rsum nx (fun x => f y x)).
Definition Csum (f : nat -> nat -> C) : C :=
  (gsum (fun y x => fst (f y x)), gsum (fun y x => snd (f y x))).

Definition npix : R := INR ny * INR nx.

(** The angle of mode [(ky, kx)] at pixel [(y, x)]. *)
Definition phase (ky kx y x : nat) : R :=
  2 * PI * (INR ky * INR y / INR ny + INR kx * INR x / INR nx).

(** Modelled from the spec: [enmap.fft] and [enmap.ifft] are not among the
    sources; they are the forward and inverse 2D Fourier transforms of the
    map collaborator, each normalized by the square root of the number of
    pixels. *)
Definition fft (m : cmap) : cmap :=
  fun ky kx => Cscale (/ sqrt npix) (Csum (fun y x => Cmul (m y x) (cis (- phase ky kx y x)))).
Definition ifft (m : cmap) : cmap :=
  fun y x => Cscale (/ sqrt npix) (Csum (fun ky kx => Cmul (m ky kx) (cis (phase ky kx y x)))).

(** [enmap.ifft(enmap.fft(m)*filter).real]: the map [m] convolved by a
    harmonic-space filter. *)
Definition apply_filter (m filter : rmap) : rmap :=
  real (ifft (fun ky kx => Cscale (filter ky kx) (fft (of_real m) ky kx))).

(** [m = enmap.ifft(beam2d+0j).real; m /= m[0,0]]: the real-space beam
    template. *)
Definition beam_template (beam2d : rmap) : rmap :=
  let m := real (ifft (of_real beam2d)) in
  fun y x => m y x / m 0%nat 0%nat.

Definition build_filter (ps beam2d : rmap) : rmap :=
  let filter := fun ky kx => beam2d ky kx / ps ky kx in
  let m := beam_template beam2d in
  let norm := apply_filter m filter 0%nat 0%nat in
  fun ky kx => filter ky kx / norm.

(** The cosine and sine coefficients of a real map: the real part and
    minus the imaginary part of its transform. *)
Definition cos_coef (m : rmap) (ky kx : nat) : R :=
  / sqrt npix * gsum (fun y x => m y x * cos (phase ky kx y x)).
Definition sin_coef (m : rmap) (ky kx : nat) : R :=
  / sqrt npix * gsum (fun y x => m y x * sin (phase ky kx y x)).

(** Angles whose multiples by the grid sizes are whole turns. *)
Definition whole_turns (ay ax : R) : Prop :=
  (sin (ay * INR ny) = 0 /\ cos (ay * INR ny) = 1)
  /\ (sin (ax * INR nx) = 0 /\ cos (ax * INR nx) = 1).

End Grid.

(** The angular frequency of mode [k] along an axis of [n] pixels. *)
Definition freq (n k : nat) : R := 2 * PI * INR k / INR n.


End Filter.

(** ** Blind source finder: [fit_labeled_srcs] and the block loop of [find_srcs] *)

Module Finder.

(** Rounding to the nearest pixel ([utils.nint], interpolation of order 0). *)
Definition nint (x : R) : nat := Z.to_nat (Int_part (x + / 2)).

Section Shape.
(** The maps of one call share a shape [(ny, nx)]; a map is the list of
    its pixels in C order, so that pixel [(y, x)] has index [y * nx + x]. *)
Variable nx : nat.

Definition ndmap := list R.

Definition pix_of (i : nat) : R * R := (INR (i / nx), INR (i mod nx)).

(** [m.at(pos, unit="pix", order=0)]: the value of the nearest pixel. *)
Definition at_order0 (m : ndmap) (pos : R * R) : R :=
  nth (nint (fst pos) * nx + nint (snd pos)) m 0.

(** The pixels of [vals] carrying label [idx], with their flat index. *)
Definition selected (vals : ndmap) (labels : list nat) (idx : nat) : list (nat * R) :=
  filter (fun p => nth (fst p) labels 0%nat =? idx)%nat
         (combine (seq 0 (length vals)) vals).

(** [ndimage.center_of_mass(fmap, labels, idx)]. *)
Definition center_of_mass (fmap : ndmap) (labels : list nat) (idx : nat) : R * R :=
  let sel := selected fmap labels idx in
  let tot := np_sum (map snd sel) in
  (np_sum (map (fun p => snd p * fst (pix_of (fst p))) sel) / tot,
   np_sum (map (fun p => snd p * snd (pix_of (fst p))) sel) / tot).

(** The pixel a scan of a selection ends with: a later pixel replaces the
    best one so far when it [beats] it. *)
Fixpoint extremum (beats : R -> R -> bool) (best : nat * R) (l : list (nat * R)) : nat * R :=
  match l with
  | [] => best
  | p :: t => extremum beats (if beats (snd p) (snd best) then p else best) t
  end.

Definition extremum_of (beats : R -> R -> bool) (sel : list (nat * R)) : nat * R :=
  match sel with [] => (0%nat, 0) | p :: t => extremum beats p t end.

(** [ndimage.maximum], [ndimage.maximum_position] and their minimum twins.
    Among the pixels of a tied maximum the position is that of the last
    one, among the pixels of a tied minimum that of the first one. *)
Definition ndimage_maximum (vals : ndmap) (labels : list nat) (idx : nat) : R :=
  snd (extremum_of (fun a b => Rleb b a) (selected vals labels idx)).
Definition ndimage_maximum_position (vals : ndmap) (labels : list nat) (idx : nat) : R * R :=
  pix_of (fst (extremum_of (fun a b => Rleb b a) (selected vals labels idx))).
Definition ndimage_minimum (vals : ndmap) (labels : list nat) (idx : nat) : R :=
  snd (extremum_of (fun a b => Rltb a b) (selected vals labels idx)).
Definition ndimage_minimum_position (vals : ndmap) (labels : list nat) (idx : nat) : R * R :=
  pix_of (fst (extremum_of (fun a b => Rltb a b) (selected vals labels idx))).

(** [ndimage.sum(matches, labels, idx)]: the number of pixels of the label. *)
Definition ndimage_count (matches : list bool) (labels : list nat) (idx : nat) : R :=
  INR (length (filter (fun p => (nth (fst p) labels 0%nat =? idx)%nat && snd p)
                      (combine (seq 0 (length matches)) matches))).

(** Interpolation of a map at a fractional pixel position
    ([enmap.at(pos, unit="pix")], spline of order 3 by default). *)
Variable at_pix : ndmap -> R * R -> R.

(** What [fit_labeled_srcs] measures of one connected component. *)
Record component : Type := {
  pos_com : R * R;  amp_com : R;
  pos_max : R * R;  amp_max : R;
  pos_min : R * R;  amp_min : R
}.

Definition measure (fmap : ndmap) (labels : list nat) (idx : nat) : component :=
  let pc := center_of_mass fmap labels idx in
  {| pos_com := pc;
     amp_com := at_pix fmap pc;
     pos_max := ndimage_maximum_position fmap labels idx;
     amp_max := ndimage_maximum fmap labels idx;
     pos_min := ndimage_minimum_position fmap labels idx;
     amp_min := ndimage_minimum fmap labels idx |}.

Definition negative (c : component) : bool := Rltb (amp_com c) 0.
Definition pos_ext (c : component) : R * R := if negative c then pos_min c else pos_max c.
Definition amp_ext (c : component) : R := if negative c then amp_min c else amp_max c.

(** [extended = np.abs(amp_ext) > np.abs(amp_com)*extended_threshold] *)
Definition extended (extended_threshold : R) (c : component) : bool :=
  Rltb (Rabs (amp_com c) * extended_threshold) (Rabs (amp_ext c)).

(** [pos[extended] = pos_max[extended]; amp[extended] = amp_max[extended]] *)
Definition fit_component (extended_threshold : R) (c : component) : (R * R) * R :=
  if extended extended_threshold c then (pos_max c, amp_max c)
  else (pos_com c, amp_com c).

Definition fit_labeled_srcs (fmap : ndmap) (labels : list nat) (inds : list nat)
    (extended_threshold : R) : list ((R * R) * R) :=
  map (fun idx => fit_component extended_threshold (measure fmap labels idx)) inds.

(** *** The block loop of one pass of [find_srcs] *)

(** [ndimage.label]: labels [1..n] for the connected components of a mask,
    0 for the background, and the number [n] of components. *)
Variable label : list bool -> list nat * nat.
(** [calc_model(fmap.shape, fmap.wcs, pix, template, amp)]. *)
Variable calc_model : list (R * R) -> list R -> ndmap.

Variables (snmin snblock : R) (nblock : nat).
Variables (norm apod_map : ndmap).

Record fit : Type := { f_pix : R * R; f_amp : R; f_damp : R; f_npix : R }.

(** One executed block: the peak significance among its components, the
    cutoff [sn_lim] as updated by the block, the significances of the
    components it kept, their fits, the map left for the next block and
    whether the loop goes on. *)
Record block_result : Type := {
  b_peak : R;
  b_cutoff : R;
  b_kept : list R;
  b_fits : list fit;
  b_fmap : ndmap;
  b_continue : bool
}.

Definition block (fmap : ndmap) (sn_lim : R) : option block_result :=
  let snmap := map2 Rdiv fmap norm in
  let matches_pos := map (fun s => Rleb snmin s) snmap in
  let matches_neg := map (fun s => Rleb snmin (- s)) snmap in
  let '(labels_pos, nlabel_pos) := label matches_pos in
  let '(labels_neg, nlabel_neg) := label matches_neg in
  let matches := map2 orb matches_pos matches_neg in
  let labels :=
    map2 Nat.add (map2 Nat.add labels_pos labels_neg)
         (map (fun b : bool => if b then nlabel_pos else 0%nat) matches_neg) in
  let nlabel := (nlabel_pos + nlabel_neg)%nat in
  if (nlabel =? 0)%nat then None
  else
    let all_inds := seq 0 nlabel in
    let sn := map (fun i => ndimage_maximum (map Rabs snmap) labels (i + 1)) all_inds in
    let sn_lim' := Rmax snmin (Rmin sn_lim (np_max sn) / snblock) in
    let keep := filter (fun i => Rleb sn_lim' (nth i sn 0)) all_inds in
    if (length keep =? 0)%nat then
      Some {| b_peak := np_max sn; b_cutoff := sn_lim'; b_kept := []; b_fits := [];
              b_fmap := fmap; b_continue := false |}
    else
      let fitted := fit_labeled_srcs fmap labels (map (fun i => (i + 1)%nat) keep) 1.1 in
      let pix := map fst fitted in
      let amp := map snd fitted in
      let damp := map (at_order0 norm) pix in
      let npix := map (fun i => ndimage_count matches labels (i + 1)) keep in
      let model := calc_model pix amp in
      Some {| b_peak := np_max sn; b_cutoff := sn_lim';
              b_kept := map (fun i => nth i sn 0) keep;
              b_fits := map2 (fun pa dn => {| f_pix := fst pa; f_amp := snd pa;
                                              f_damp := fst dn; f_npix := snd dn |})
                             fitted (combine damp npix);
              b_fmap := map2 Rminus fmap model;
              b_continue := negb (Rleb sn_lim' snmin) |}.

(** [for iblock in range(nblock)]: the blocks that were executed, in order. *)
Fixpoint blocks (n : nat) (fmap : ndmap) (sn_lim : R) : list block_result :=
  match n with
  | O => []
  | S n' =>
      match block fmap sn_lim with
      | None => []
      | Some r =>
          r :: (if b_continue r then blocks n' (b_fmap r) (b_cutoff r) else [])
      end
  end.

(** [sn_lim = np.max(np.abs(fmap/norm)*(apod_map>0))] *)
Definition initial_sn_lim (fmap : ndmap) : R :=
  np_max (map2 Rmult (map Rabs (map2 Rdiv fmap norm))
               (map (fun a => if Rltb 0 a then 1 else 0) apod_map)).

Definition pass_blocks (fmap : ndmap) : list block_result :=
  blocks nblock fmap (initial_sn_lim fmap).

(** The cutoffs of consecutive blocks: each one is derived from the one
    before ([prev]) and the block's own peak by the update rule, stays at
    or above the detection floor, and is reached by every kept component. *)
Fixpoint cutoff_chain (prev : R) (rs : list block_result) : Prop :=
  match rs with
  | [] => True
  | r :: rest =>
      b_cutoff r = Rmax snmin (Rmin prev (b_peak r) / snblock)
      /\ snmin <= b_cutoff r
      /\ Forall (fun s => b_cutoff r <= s) (b_kept r)
      /\ cutoff_chain (b_cutoff r) rest
  end.

(** The reading of the cutoff rule as a plain halving. *)
Fixpoint halving_chain (prev : R) (rs : list block_result) : Prop :=
  match rs with
  | [] => True
  | r :: rest => b_cutoff r = prev / 2 /\ halving_chain (b_cutoff r) rest
  end.

End Shape.

(** [ndimage.label] on a mask whose set pixels form at most one connected
    component (any mask of a one-pixel map): they all get label 1. *)
Definition label_single (mask : list bool) : list nat * nat :=
  (map (fun b : bool => if b then 1%nat else 0%nat) mask,
   if existsb (fun b : bool => b) mask then 1%nat else 0%nat).

(** [calc_model] on a one-pixel map, whose template is the single value 1:
    every source adds its amplitude to the pixel. *)
Definition calc_model_1px (pix : list (R * R)) (amp : list R) : ndmap := [np_sum amp].

End Finder.

(** ** Correlation grouping: [group_independent] *)

Module Grouping.

(** [tree.query_ball_tree(wtree, r)]: for every point of [tree] the indices
    of the points of [wtree] within distance [r]. *)
Definition query_ball_tree (tree wtree : list (R * R)) (r : R) : list (list nat) :=
  map (fun p => filter (fun j => within r p (nth j wtree (0, 0))) (seq 0 (length wtree)))
      tree.

(** A position is the pair (declination, right ascension).
    [pos[:,1] *= np.cos(pos[:,0])] *)
Definition scaled (p : R * R) : R * R := (fst p, snd p * cos (fst p)).

(** [wpos[:,1] += s] *)
Definition shifted (s : R) (p : R * R) : R * R := (fst p, snd p + s).

(** Sets of source indices are duplicate-free lists. *)
Definition set_of (l : list nat) : list nat := nodup Nat.eq_dec l.
Definition mem (i : nat) (s : list nat) : bool := existsb (Nat.eqb i) s.
Definition set_diff (a b : list nat) : list nat := filter (fun i => negb (mem i b)) a.

(** [sorted(group)] *)
Fixpoint insert_nat (i : nat) (l : list nat) : list nat :=
  match l with
  | [] => [i]
  | j :: t => if (i <=? j)%nat then i :: l else j :: insert_nat i t
  end.
Definition sorted (l : list nat) : list nat := fold_right insert_nat [] l.

Section group_independent.
(** [utils.rewind]. *)
Variable rewind : R -> R.
(** [set.pop()]: which element of a non-empty set is removed and returned is
    up to the set. *)
Variable pop : list nat -> nat.

(** [corr_groups]: for every source the set of sources within [corrlen] of
    it, directly or through a copy shifted by a whole turn. *)
Definition corr_groups (pos : list (R * R)) (corrlen : R) : list (list nat) :=
  let pos := map (fun p => (rewind (fst p), rewind (snd p))) pos in
  let n := length pos in
  let wpos := pos ++ map (shifted (- (2 * PI))) pos ++ map (shifted (2 * PI)) pos in
  let tree := map scaled pos in
  let wtree := map scaled wpos in
  map (fun g => set_of (map (fun i => i mod n)%nat g)) (query_ball_tree tree wtree corrlen).

(** The inner loop: [fuel] bounds the number of iterations, one per element
    that [candidates] can lose. *)
Fixpoint build_group (corr : list (list nat)) (fuel : nat)
    (candidates group : list nat) : list nat :=
  match fuel with
  | O => group
  | S fuel' =>
      match candidates with
      | [] => group
      | _ =>
          let elem := pop candidates in
          let candidates := set_diff (remove Nat.eq_dec elem candidates) (nth elem corr []) in
          build_group corr fuel' candidates (group ++ [elem])
      end
  end.

(** The outer loop over the sources not yet assigned to a group. *)
Fixpoint split_groups (corr : list (list nat)) (fuel : nat)
    (remainder : list nat) (indep_groups : list (list nat)) : list (list nat) :=
  match fuel with
  | O => indep_groups
  | S fuel' =>
      match remainder with
      | [] => indep_groups
      | _ =>
          let group := build_group corr (length remainder) remainder [] in
          split_groups corr fuel' (set_diff remainder group)
                       (indep_groups ++ [sorted group])
      end
  end.

Definition group_independent (pos : list (R * R)) (corrlen : R)
    : list (list nat) * list (list nat) :=
  let corr := corr_groups pos corrlen in
  let n := length pos in
  (split_groups corr n (seq 0 n) [], corr).

End group_independent.

(** CPython's [set.pop()] on a set of small integers: the smallest one. *)
Definition pop_first (s : list nat) : nat := hd 0%nat s.

(** No source index is in two of the groups. *)
Fixpoint disjoint_groups (groups : list (list nat)) : Prop :=
  match groups with
  | [] => True
  | g :: t => (forall h, In h t -> forall i, In i g -> ~ In i h) /\ disjoint_groups t
  end.

(** The members of a group in the order they were popped: each one is
    neither an earlier member nor in the neighbour set of an earlier one. *)
Fixpoint picked_apart (corr : list (list nat)) (l : list nat) : Prop :=
  match l with
  | [] => True
  | a :: t =>
      (forall b, In b t -> b <> a /\ ~ In b (nth a corr [])) /\ picked_apart corr t
  end.

End Grouping.

(** ** Joint amplitude fitter: the precondition checks of [fit_src_amps] *)

Module Fitter.
Import Num.

Definition ndmap := list R.

(** What [fit_src_amps] returns: the surviving source indices, the
    amplitudes, the inverse covariance and the local model amplitudes. *)
Definition fit_result : Type := (list nat * list R * list (list R) * list R)%type.

(** A call either returns or raises (the linear solve of a pass raises on a
    singular system). *)
Inductive outcome : Type :=
| Returns (r : fit_result)
| Raises.

(** [np.zeros(n)] and [np.zeros([n, m])]. *)
Definition zeros (n : nat) : list R := repeat 0 n.
Definition zeros2 (n m : nat) : list (list R) := repeat (zeros m) n.

(** [0.5*(1-np.cos(np.pi*np.minimum(1, d/float(pixrad))))] at a pixel whose
    distance to the nearest unexposed pixel is [d].  The division is
    numpy's: a radius of zero gives NaN where the distance is zero and an
    infinity elsewhere. *)
Definition apod_hole (pixrad d : R) : num :=
  nmul (Fin 0.5)
       (nadd (Fin 1)
             (nopp (ncos (nmul (Fin PI) (nmin2 (Fin 1) (ndiv (Fin d) (Fin pixrad))))))).

(** [x == 0] *)
Definition is_zero (a : num) : bool :=
  match a with
  | Fin x => if Req_dec_T x 0 then true else false
  | _ => false
  end.

Section fit_src_amps.
(** The shape [(ny, nx)] of [imap]. *)
Variables ny nx : nat.
(** [imap.sky2pix]: the fractional pixel [(y, x)] of a sky position. *)
Variable sky2pix : R * R -> R * R.
(** [m.apod(width)]: the map tapered towards its edges. *)
Variable apod_edges : ndmap -> R -> ndmap.
(** [ndimage.distance_transform_edt]: for every pixel of a mask its distance
    to the nearest pixel outside the mask. *)
Variable distance_transform_edt : list bool -> list R.
(** Everything after the precondition checks: the beam footprints, the
    [npass] passes that build and solve the linear system, and the final
    pruning at the widened margin. *)
Variable fit_passes : list num -> ndmap -> list num -> list (R * R) -> list nat -> outcome.

(** [get_apod_holes(div, pixrad)] *)
Definition get_apod_holes (div : ndmap) (pixrad : R) : list num :=
  map (apod_hole pixrad) (distance_transform_edt (map (fun v => Rltb 0 v) div)).

(** [(idiv*0+1).apod(apod) * get_apod_holes(idiv,apod)] *)
Definition apod_map_of (idiv : ndmap) (apod : R) : list num :=
  map2 nmul (map Fin (apod_edges (map (fun v => v * 0 + 1) idiv) apod))
       (get_apod_holes idiv apod).

(** [np.all(src_pix >= margin, 1) & np.all(src_pix < shape - margin, 1)] *)
Definition inside (margin : R) (pix : R * R) : bool :=
  Rleb margin (fst pix) && Rleb margin (snd pix)
  && Rltb (fst pix) (INR ny - margin) && Rltb (snd pix) (INR nx - margin).

(** [np.where(...)[0]]: the indices of the sources inside the margin. *)
Definition where_inside (margin : R) (src_pix : list (R * R)) : list nat :=
  map fst (filter (fun p => inside margin (snd p))
                  (combine (seq 0 (length src_pix)) src_pix)).

Definition take {A : Type} (d : A) (l : list A) (inds : list nat) : list A :=
  map (fun i => nth i l d) inds.

Definition fit_src_amps (imap idiv : ndmap) (src_pos : list (R * R))
    (apod apod_margin : R) : outcome :=
  let src_pix := map sky2pix src_pos in
  let margin := apod + apod_margin in
  let fit_inds := where_inside margin src_pix in
  let src_pos := take (0, 0) src_pos fit_inds in
  let nsrc := length src_pos in
  if (length src_pos =? 0)%nat then
    Returns (fit_inds, zeros 0, zeros2 0 0, zeros nsrc)
  else
    let apod_map := apod_map_of idiv apod in
    let imap := map2 nmul (map Fin imap) apod_map in
    if is_zero (nsum (map2 nmul (map Fin idiv) (map (fun a => nmul a a) apod_map))) then
      Returns (fit_inds, zeros nsrc, zeros2 nsrc nsrc, zeros nsrc)
    else
      fit_passes imap idiv apod_map src_pos fit_inds.

End fit_src_amps.

End Fitter.

(** ** Duplicate resolver: [merge_duplicates] *)

Module Merge.
Import Num.

(** A field of three Stokes components (dtype ["3f"]). *)
Definition vec : Type := (num * num * num)%type.
Definition c0 (v : vec) : num := fst (fst v).
Definition c1 (v : vec) : num := snd (fst v).
Definition c2 (v : vec) : num := snd v.

(** A catalog entry ([cat_dtype]). *)
Record entry : Type := {
  ra : num;
  dec : num;
  amp : vec;
  damp : vec;
  flux : vec;
  dflux : vec;
  npix : num;
  status : Z
}.

Definition zero_entry : entry :=
  {| ra := Fin 0; dec := Fin 0; amp := (Fin 0, Fin 0, Fin 0); damp := (Fin 0, Fin 0, Fin 0);
     flux := (Fin 0, Fin 0, Fin 0); dflux := (Fin 0, Fin 0, Fin 0); npix := Fin 0;
     status := 0%Z |}.

Definition set_ra (r : num) (e : entry) : entry :=
  {| ra := r; dec := dec e; amp := amp e; damp := damp e; flux := flux e;
     dflux := dflux e; npix := npix e; status := status e |}.

(** [np.array([cat.ra*np.cos(cat.dec), cat.dec]).T] *)
Definition position (e : entry) : num * num := (nmul (ra e) (ncos (dec e)), dec e).

(** [spatial.cKDTree(pos)]: the tree holds the points it is given;
    building it on coordinates that are not all finite raises. *)
Definition finite_point (p : num * num) : bool := is_finite (fst p) && is_finite (snd p).
Definition cKDTree (pts : list (num * num)) : Py.result (list (num * num)) :=
  if forallb finite_point pts then Py.Ok pts else Py.Raise Py.ValueError.

(** Whether two points of a tree, whose coordinates are finite, lie within
    distance [r] of each other. *)
Definition near (r : R) (p q : num * num) : bool :=
  match p, q with
  | (Fin px, Fin py), (Fin qx, Fin qy) => within r (px, py) (qx, qy)
  | _, _ => false
  end.

(** [tree.query_ball_tree(other, r)]: for every point of the tree, the
    indices of the points of [other] within distance [r]. *)
Definition query_ball_tree (pts other : list (num * num)) (r : R) : list (list nat) :=
  map (fun p => filter (fun j => near r p (nth j other (NaN, NaN)))
                       (seq 0 (length other))) pts.

(** [wmean(v, w) = np.sum(v.T*w,-1)/np.sum(w,-1)] for a scalar and for a
    three-component field. *)
Definition wmean (v w : list num) : num := ndiv (nsum (map2 nmul v w)) (nsum w).
Definition wmean_vec (vs : list vec) (w : list num) : vec :=
  (wmean (map c0 vs) w, wmean (map c1 vs) w, wmean (map c2 vs) w).

(** [np.min(field, 0)] *)
Definition min_vec (vs : list vec) : vec :=
  (n_min (map c0 vs), n_min (map c1 vs), n_min (map c2 vs)).

(** [np.median] of an integer field, stored back into the integer field. *)
Fixpoint insert_sorted (z : Z) (l : list Z) : list Z :=
  match l with
  | [] => [z]
  | y :: t => if (z <=? y)%Z then z :: l else y :: insert_sorted z t
  end.
Definition sort_Z (l : list Z) : list Z := fold_right insert_sorted [] l.
Definition median (l : list Z) : Z :=
  let s := sort_Z l in
  let n := length s in
  if Nat.even n
  then Z.quot (nth (n / 2 - 1) s 0%Z + nth (n / 2) s 0%Z) 2
  else nth (n / 2) s 0%Z.

(** The entry that replaces the contributing entries [gcat] of a group. *)
Definition merge_entry (gcat : list entry) : entry :=
  let w := map (fun e => npow_m2 (c0 (damp e))) gcat in
  {| ra := wmean (map ra gcat) w;
     dec := wmean (map dec gcat) w;
     amp := wmean_vec (map amp gcat) w;
     damp := min_vec (map damp gcat);
     flux := wmean_vec (map flux gcat) w;
     dflux := wmean_vec (map dflux gcat) w;
     npix := wmean (map npix gcat) w;
     status := median (map status gcat) |}.

(** [done[group] = True] *)
Definition mark (done : list bool) (group : list nat) : list bool :=
  map (fun p => existsb (Nat.eqb (fst p)) group || snd p)
      (combine (seq 0 (length done)) done).

(** The body of the loop over the groups: the state is [done] and [ocat]. *)
Definition merge_step (cat : list entry) (alim : R)
    (st : list bool * list entry) (group : list nat) : list bool * list entry :=
  let live := filter (fun i => negb (nth i (fst st) false)) group in
  match live with
  | [] => st
  | [i] => (mark (fst st) [i], snd st ++ [nth i cat zero_entry])
  | _ =>
      let amps := map (fun i => c0 (amp (nth i cat zero_entry))) live in
      let lim := nmul (n_max (map nabs amps)) (Fin (1 - alim)) in
      let good := filter (fun k => nleb lim (nabs (nth k amps NaN))) (seq 0 (length live)) in
      match good with
      | [] => st
      | _ =>
          let gcat := map (fun k => nth (nth k live 0%nat) cat zero_entry) good in
          (mark (fst st) live, snd st ++ [merge_entry gcat])
      end
  end.

Section merge_duplicates.
(** [utils.rewind(a, 0)]: the angle [a] brought into the principal range. *)
Variable rewind : R -> R.

Definition nrewind (a : num) : num := match a with Fin x => Fin (rewind x) | _ => NaN end.

(** [cat.ra = utils.rewind(cat.ra, 0)] for one entry. *)
Definition rewound (e : entry) : entry := set_ra (nrewind (ra e)) e.

Definition merge_duplicates (cat : list entry) (rlim alim : R) : Py.result (list entry) :=
  match cat with
  | [] => Py.Ok cat
  | _ =>
      let cat := map rewound cat in
      let pos := map position cat in
      Py.bind (cKDTree pos) (fun tree =>
      let groups := query_ball_tree tree tree rlim in
      Py.Ok (snd (fold_left (merge_step cat alim) groups (repeat false (length cat), []))))
  end.

(** The marks [done] when the loop over the groups has ended. *)
Definition done_marks (cat : list entry) (rlim alim : R) : list bool :=
  let cat := map rewound cat in
  let pos := map position cat in
  fst (fold_left (merge_step cat alim) (query_ball_tree pos pos rlim)
         (repeat false (length cat), [])).


End merge_duplicates.

(** One arc minute, the default match radius. *)
Definition arcmin : R := PI / 10800.

(** A temperature-only source: position, amplitude and flux with their
    uncertainties, four pixels, status 0. *)
Definition source (r d a da f df : num) : entry :=
  {| ra := r; dec := d; amp := (a, Fin 0, Fin 0); damp := (da, da, da);
     flux := (f, Fin 0, Fin 0); dflux := (df, df, df); npix := Fin 4; status := 0%Z |}.

End Merge.

(** ** Combining map tiles: [build_merge_weight] and [merge_maps_onto] *)

Module MapMerge.
Import Num.

(** A 2D map: its shape and its pixel values (meaningful inside the shape). *)
Record ndmap : Type := { ny : nat; nx : nat; val : nat -> nat -> R }.

(** [enmap.zeros(shape)] *)
Definition zeros (ny nx : nat) : ndmap := {| ny := ny; nx := nx; val := fun _ _ => 0 |}.

(** One axis of [build_merge_weight]: [1 - 2*abs(arange(n) - (n-1)/2)/n]. *)
Definition axis_weight (n i : nat) : R :=
  1 - 2 * Rabs (INR i - (INR n - 1) / 2) / INR n.

(** [weights = wy[:,None]*wx[None,:]] *)
Definition build_merge_weight (ny nx : nat) : ndmap :=
  {| ny := ny; nx := nx; val := fun y x => axis_weight ny y * axis_weight nx x |}.

(** A map together with the corner of its pixel box in the output map
    ([enmap.pixbox_of(wcs, imap.shape, imap.wcs)]). *)
Record placed : Type := { box_y : Z; box_x : Z; pixels : ndmap }.

(** Whether output pixel [(y, x)] lies in the box of [p], and where. *)
Definition local (p : placed) (y x : nat) : option (nat * nat) :=
  let ly := (Z.of_nat y - box_y p)%Z in
  let lx := (Z.of_nat x - box_x p)%Z in
  if ((0 <=? ly) && (ly <? Z.of_nat (ny (pixels p)))
      && (0 <=? lx) && (lx <? Z.of_nat (nx (pixels p))))%Z
  then Some (Z.to_nat ly, Z.to_nat lx) else None.

(** [enmap.insert_at(omap, pbox, imap, op=np.add)]: the part of [imap] that
    falls inside [omap] is added to it. *)
Definition insert_at (omap : ndmap) (p : placed) : ndmap :=
  {| ny := ny omap; nx := nx omap;
     val := fun y x =>
       match local p y x with
       | Some (ly, lx) => val omap y x + val (pixels p) ly lx
       | None => val omap y x
       end |}.

(** [map[..., crop:-crop, crop:-crop]] (applied when [crop] is not 0). *)
Definition crop_map (crop : nat) (p : placed) : placed :=
  if (crop =? 0)%nat then p
  else {| box_y := box_y p + Z.of_nat crop; box_x := box_x p + Z.of_nat crop;
          pixels := {| ny := ny (pixels p) - 2 * crop; nx := nx (pixels p) - 2 * crop;
                       val := fun y x => val (pixels p) (y + crop) (x + crop) |} |}.

Definition mul_maps (a b : ndmap) : ndmap :=
  {| ny := ny a; nx := nx a; val := fun y x => val a y x * val b y x |}.

(** The body of the accumulation loop for one incoming map. *)
Definition accumulate (acc : ndmap * ndmap) (p : placed) : ndmap * ndmap :=
  let idiv := build_merge_weight (ny (pixels p)) (nx (pixels p)) in
  (insert_at (fst acc)
     {| box_y := box_y p; box_x := box_x p; pixels := mul_maps (pixels p) idiv |},
   insert_at (snd acc) {| box_y := box_y p; box_x := box_x p; pixels := idiv |}).

(** The sums [omap], [odiv] held by the root task once the maps of every
    rank (its own list at its own rank) have been accumulated. *)
Definition accumulated (ranks : list (list placed)) (ny nx crop : nat) : ndmap * ndmap :=
  fold_left accumulate (map (crop_map crop) (concat ranks)) (zeros ny nx, zeros ny nx).

(** [omap /= odiv; omap = np.nan_to_num(omap)] on the root task. *)
Definition merge_maps_onto (ranks : list (list placed)) (ny nx crop : nat) (fmax : R) : ndmap :=
  let '(omap, odiv) := accumulated ranks ny nx crop in
  {| ny := ny; nx := nx;
     val := fun y x => nan_to_num fmax (ndiv (Fin (val omap y x)) (Fin (val odiv y x))) |}.

(** The (value, weight) pairs that the maps covering pixel [(y, x)] contribute. *)
Fixpoint contributions (maps : list placed) (y x : nat) : list (R * R) :=
  match maps with
  | [] => []
  | p :: rest =>
      match local p y x with
      | Some (ly, lx) =>
          (val (pixels p) ly lx,
           val (build_merge_weight (ny (pixels p)) (nx (pixels p))) ly lx)
          :: contributions rest y x
      | None => contributions rest y x
      end
  end.

Definition weight_sum (cs : list (R * R)) : R := np_sum (map snd cs).
Definition weighted_sum (cs : list (R * R)) : R := np_sum (map (fun c => fst c * snd c) cs).

End MapMerge.

(** ** Logging set-up: [log.py] *)

Module Log.

(** The levels of the [logging] module. *)
Definition DEBUG : Z := 10.
Definition INFO : Z := 20.
Definition WARNING : Z := 30.
Definition ERROR : Z := 40.
Definition CRITICAL : Z := 50.

Definition verbosity2level (verbosity : Z) : Z :=
  if (verbosity <=? 0)%Z then ERROR
  else if (verbosity <=? 1)%Z then INFO
  else DEBUG.

(** [QuietOthers.filter]: whether the record is passed on (the method
    returns the record, or nothing). *)
Definition QuietOthers_filter (rank : Z) (which : list Z) (levelno : Z) : bool :=
  (rank =? 0)%Z || negb (existsb (Z.eqb levelno) which).

(** [EnFilter.filter] decorates the record and always passes it on. *)
Definition EnFilter_filter (rank : Z) (levelno : Z) : bool := true.

(** A handler as [init] configures it: its threshold and its filters. *)
Record handler : Type := { h_level : Z; h_filters : list (Z -> bool) }.

(** What [logging] does with a record of level [levelno] at a handler: it
    is emitted when it reaches the threshold and every filter passes it. *)
Definition handles (h : handler) (levelno : Z) : bool :=
  (h_level h <=? levelno)%Z && forallb (fun f => f levelno) (h_filters h).

(** The two handlers that [init] adds to the root logger, whose own level is
    [DEBUG]: the file handler (when a file is given) and the console one. *)
Definition file_handler (rank : Z) : handler :=
  {| h_level := DEBUG; h_filters := [EnFilter_filter rank] |}.
Definition console_handler (level rank : Z) : handler :=
  {| h_level := level;
     h_filters := [EnFilter_filter rank; QuietOthers_filter rank [INFO]] |}.

(** Whether a record logged at [levelno] comes out of a handler of the
    root logger. *)
Definition emitted (h : handler) (levelno : Z) : bool :=
  (DEBUG <=? levelno)%Z && handles h levelno.

End Log.

(** ** Small numerical helpers of [dory.py] *)

Module Helpers.
Import Py.

(** [np.max] of an array, which raises on an empty one. *)
Definition max_of (l : list R) : result R :=
  match l with [] => Raise ValueError | _ => Ok (np_max l) end.

(** [amax]: the maximum of an array and an optional initial value.
    [supports_initial] says whether the installed numpy accepts the
    [initial] argument; the fallback is taken when it raises [TypeError]. *)
Definition amax (supports_initial : bool) (arr : list R) (initial : option R) : result R :=
  if supports_initial then
    match initial with
    | None => max_of arr
    | Some i => Ok (fold_left Rmax arr i)
    end
  else
    match initial with
    | None => max_of arr
    | Some i => max_of (arr ++ [i])
    end.

(** [build_prior]: the prior inverse variances; the two arrays must have
    the same length for the mask to apply to both. *)
Definition build_prior (amps damps : list R) (variability min_ivar : R)
    : result (list R * list R) :=
  if negb (length damps =? length amps)%nat then Raise IndexError
  else
    Ok (amps,
        map2 (fun a d =>
                if Rltb 0 d then 1 / (d * d + (a * variability) * (a * variability))
                else min_ivar)
             amps damps).

(** [get_beam_rad]: [beam] holds the radii and the profile values; the
    radius of the last sample above [lim], and element [-1] when there is
    none. *)
Definition get_beam_rad (beam : list R * list R) (lim : R) : result R :=
  let above := filter (fun i => Rltb lim (nth i (snd beam) 0)) (seq 0 (length (snd beam))) in
  let i := match above with
           | [] => (-1)%Z
           | _ => Z.of_nat (last above 0%nat)
           end in
  item 0 (fst beam) i.

(** A region is its lower and its upper corner, one coordinate per axis. *)
Definition region : Type := (list Z * list Z)%type.

Definition size_along (r : region) (i : nat) : Z :=
  (nth i (snd r) 0 - nth i (fst r) 0)%Z.

Section pad_region.
(** [fft.fft_len(n, "above")]: the next length for which the transform is
    fast. *)
Variable fft_len : Z -> Z.

Definition pad_one_fft (r : region) : region :=
  (fst r,
   map2 (fun lo up => let size := (up - lo)%Z in (up + fft_len size - size)%Z)
        (fst r) (snd r)).

Definition pad_region_fft (regions : list region) : list region :=
  map pad_one_fft regions.

Definition pad_region (regions : list region) (pad : Z) (fft : bool) : list region :=
  let regions :=
    map (fun r : region => (map (fun v => (v - pad)%Z) (fst r),
                            map (fun v => (v + pad)%Z) (snd r))) regions in
  if fft then pad_region_fft regions else regions.

End pad_region.

End Helpers.

(** ** Local noise level of a filtered map: [safe_mean] and [get_snmap_norm] *)

Module Norm.

(** [np.mean] of a non-empty array. *)
Definition np_mean (l : list R) : R := np_sum l / INR (length l).

(** [np.median] of a non-empty array. *)
Fixpoint insert_R (x : R) (l : list R) : list R :=
  match l with
  | [] => [x]
  | y :: t => if Rle_dec x y then x :: l else y :: insert_R x t
  end.
Definition sort_R (l : list R) : list R := fold_right insert_R [] l.
Definition np_median (l : list R) : R :=
  let s := sort_R l in
  let n := length s in
  if Nat.even n then (nth (n / 2 - 1) s 0 + nth (n / 2) s 0) / 2
  else nth (n / 2) s 0.

(** The rows of [arr[:nblock*bsize].reshape(nblock,bsize)]. *)
Fixpoint rows (nblock bsize : nat) (arr : list R) : list (list R) :=
  match nblock with
  | O => []
  | S k => firstn bsize arr :: rows k bsize (skipn bsize arr)
  end.

(** [safe_mean] of a non-empty array for a positive block size (a block
    size of zero raises). *)
Definition safe_mean (arr : list R) (bsize : nat) : R :=
  let nblock := (length arr / bsize)%nat in
  if (nblock <=? 1)%nat then np_mean arr
  else
    let means := map np_mean (rows nblock bsize arr) in
    let means := means ++ [np_mean (skipn ((nblock - 1) * bsize) arr)] in
    np_median means.

(** [snmap[y1:y2,x1:x2]] flattened in C order. *)
Definition sub_values (m : Filter.rmap) (y1 y2 x1 x2 : nat) : list R :=
  flat_map (fun y => map (fun x => m y x) (seq x1 (x2 - x1))) (seq y1 (y2 - y1)).

(** [norm[y1:y2,x1:x2] = v] *)
Definition fill (m : Filter.rmap) (y1 y2 x1 x2 : nat) (v : R) : Filter.rmap :=
  fun y x =>
    if ((y1 <=? y) && (y <? y2) && (x1 <=? x) && (x <? x2))%nat then v else m y x.

(** Where block [b] of [nb] starts and ends along an axis of [n] pixels:
    the last block runs to the edge. *)
Definition block_start (bsize b : nat) : nat := b * bsize.
Definition block_end (bsize nb n b : nat) : nat :=
  if (b <? nb - 1)%nat then (b + 1) * bsize else n.

(** [sub[sub!=0]] *)
Definition nonzero (l : list R) : list R :=
  filter (fun v => if Req_dec_T v 0 then false else true) l.

(** The level of a block with at least one non-zero pixel. *)
Definition block_std (vals : list R) : R :=
  sqrt (safe_mean (map (fun v => v * v) vals) 100).

Section get_snmap_norm.
(** The map and its shape. *)
Variable snmap : Filter.rmap.
Variables h w : nat.
Variable bsize : nat.

Definition block_vals (iby ibx : nat) : list R :=
  nonzero (sub_values snmap
             (block_start bsize iby) (block_end bsize (h / bsize) h iby)
             (block_start bsize ibx) (block_end bsize (w / bsize) w ibx)).

(** The body of the two loops for block [(iby, ibx)]. *)
Definition norm_block (norm : Filter.rmap) (iby ibx : nat) : Filter.rmap :=
  match block_vals iby ibx with
  | [] => norm
  | vals =>
      fill norm (block_start bsize iby) (block_end bsize (h / bsize) h iby)
                (block_start bsize ibx) (block_end bsize (w / bsize) w ibx)
                (block_std vals)
  end.

Definition get_snmap_norm : Filter.rmap :=
  fold_left
    (fun norm iby => fold_left (fun norm ibx => norm_block norm iby ibx)
                               (seq 0 (w / bsize)) norm)
    (seq 0 (h / bsize))
    (fun y x => snmap y x * 0 + 1).

(** The block that holds pixel [i] of an axis with [nb] blocks. *)
Definition block_of (nb i : nat) : nat := Nat.min (i / bsize) (nb - 1).

End get_snmap_norm.

End Norm.

(** ** Smoothing of a power spectrum: [smooth_ps_gauss] *)

Module Smooth.
Import Py.

(** [np.fft.fftfreq(n)[k]] *)
Definition fftfreq (n k : nat) : R :=
  if (k <=? (n - 1) / 2)%nat then INR k / INR n else (INR k - INR n) / INR n.

(** [smooth_ps_gauss]: [ly] and [lx] are the multipole axes of the map as
    [enmap.laxes] returns them; their elements [1] are the resolution. *)
Definition smooth_ps_gauss (ny nx : nat) (ps : Filter.rmap) (lsigma : R) (ly lx : list R)
    : result Filter.rmap :=
  ires0 <- item 0 ly 1 ;;
  ires1 <- item 0 lx 1 ;;
  let sigma_pix := (Rabs (lsigma / ires0), Rabs (lsigma / ires1)) in
  let fmap := Filter.fft ny nx (Filter.of_real ps) in
  let ky := fun k => fftfreq ny k * fst sigma_pix in
  let kx := fun k => fftfreq nx k * snd sigma_pix in
  let kr2 := fun i j => ky i * ky i + kx j * kx j in
  let fmap := fun i j => Filter.Cscale (exp (- 0.5 * kr2 i j)) (fmap i j) in
  Ok (Filter.real (Filter.ifft ny nx fmap)).

End Smooth.

(** ** Beam area and power-spectrum flattening *)

Module Spectra.
Import Py Num.
Import String.StringSyntax.
Local Open Scope string_scope.

(** [calc_beam_transform_area]: [beam_2d] is the transform in C order, so
    that [beam_2d[0,0]] is its first element, with a non-zero mean;
    [pixsize] stands for [beam_2d.pixsize()]. *)
Definition calc_beam_transform_area (beam_2d : list R) (pixsize : R) (unit : String.string)
    : result R :=
  b00 <- item 0 beam_2d 0 ;;
  let area := b00 / Norm.np_mean beam_2d in
  if String.eqb unit "phys" then Ok (area * pixsize)
  else if String.eqb unit "pix" then Ok (area * 1)
  else Raise ValueError.

(** The modes of the reference band, [(l<lcut)&(l>lcut*0.9)]. *)
Definition in_band (lcut l : R) : bool := Rltb l lcut && Rltb (lcut * 0.9) l.

(** [planck_hack]: [l] is [ps2d.modlmap()], the multipole of every mode;
    the mean of an empty band is NaN. *)
Definition planck_hack (ps2d l : list R) (lcut : R) : list num :=
  let band := map fst (filter (fun p => in_band lcut (snd p)) (combine ps2d l)) in
  let ref := match band with [] => NaN | _ => Fin (Norm.np_mean band) end in
  map2 (fun v lv => if Rltb lcut lv then ref else Fin v) ps2d l.

End Spectra.

(** ** Regions of a map: [get_regions] *)

Module Regions.
Import Py.
Import String.StringSyntax.
Local Open Scope string_scope.

(** A pixel box: its lower corner [(y1, x1)] and its upper corner
    [(y2, x2)], the latter excluded. *)
Definition pixbox : Type := ((Z * Z) * (Z * Z))%type.

Definition contains (r : pixbox) (y x : Z) : Prop :=
  (fst (fst r) <= y < fst (snd r))%Z /\ (snd (fst r) <= x < snd (snd r))%Z.

(** [s.split(sep)] for a one-character separator. *)
Fixpoint split (sep : Ascii.ascii) (s : String.string) : list String.string :=
  match s with
  | String.EmptyString => [String.EmptyString]
  | String.String c rest =>
      if Ascii.eqb c sep then String.EmptyString :: split sep rest
      else match split sep rest with
           | [] => [String.String c String.EmptyString]
           | tok :: toks => String.String c tok :: toks
           end
  end.

(** [range(0, stop, step)] for a non-negative [stop]. *)
Definition range0 (stop : nat) (step : Z) : result (list Z) :=
  if (step =? 0)%Z then Raise ValueError
  else if (step <? 0)%Z then Ok []
  else Ok (map (fun k => (Z.of_nat k * step)%Z)
               (seq 0 (Z.to_nat ((Z.of_nat stop + step - 1) / step)))).

(** The tile size that the arguments of a ["tile"] region stand for. *)
Definition tile_size (tsize : list Z) : Z * Z :=
  match tsize with
  | [] => (480, 480)%Z
  | [t] => (t, t)
  | t0 :: t1 :: _ => (t0, t1)
  end.

(** The list comprehension over the tile corners, rows first. *)
Definition tiles (ny nx : nat) (tsize : Z * Z) : result (list pixbox) :=
  ys <- range0 ny (fst tsize) ;;
  rows <- traverse (fun y =>
            xs <- range0 nx (snd tsize) ;;
            Ok (map (fun x => ((y, x), (y + fst tsize, x + snd tsize))%Z) xs)) ys ;;
  Ok (List.concat rows).

(** The separator of the region arguments, [":"]. *)
Definition colon : Ascii.ascii := Ascii.ascii_of_nat 58.

Section get_regions.
(** [int(a)]; [None] when it raises [ValueError]. *)
Variable int : String.string -> option Z.
(** The regions of the ["box"] form, from its (up to four) numbers. *)
Variable box_regions : list String.string -> result (list pixbox).
(** [os.path.isfile], and the regions read from a file of boxes. *)
Variable isfile : String.string -> bool.
Variable file_regions : String.string -> result (list pixbox).

Fixpoint ints (l : list String.string) : result (list Z) :=
  match l with
  | [] => Ok []
  | a :: t =>
      match int a with
      | None => Raise ValueError
      | Some z => zs <- ints t ;; Ok (z :: zs)
      end
  end.

Definition get_regions (regfile : option String.string) (ny nx : nat)
    : result (list pixbox) :=
  let regfile := match regfile with None => "full" | Some s => s end in
  let toks := split colon regfile in
  let name := hd String.EmptyString toks in
  let args := tl toks in
  if String.eqb name "full" then Ok [((0, 0), (Z.of_nat ny, Z.of_nat nx))%Z]
  else if String.eqb name "tile" then
    tsize <- ints (firstn 2 args) ;;
    tiles ny nx (tile_size tsize)
  else if String.eqb name "box" then box_regions (firstn 4 args)
  else if String.eqb name "adaptive" then Raise NotImplementedError
  else if isfile regfile then file_regions regfile
  else Raise ValueError.

End get_regions.

End Regions.

(** ** Pruning around bright sources: [prune_near_bright] *)

Module Prune.
Import Py Num Merge.

(** [a < b]; every comparison with NaN is false. *)
Definition nltb (a b : num) : bool :=
  match a, b with
  | NaN, _ | _, NaN => false
  | Fin x, Fin y => Rltb x y
  | PInf, _ => false
  | _, NInf => false
  | NInf, _ => true
  | Fin _, PInf => true
  end.

(** [np.argmax]: the first position of the largest value, a NaN counting
    as larger than everything; an empty array raises. *)
Definition takes_over (a best : num) : bool :=
  match best, a with
  | NaN, _ => false
  | _, NaN => true
  | _, _ => nltb best a
  end.

Fixpoint argmax_from (best_i : nat) (best : num) (i : nat) (l : list num) : nat :=
  match l with
  | [] => best_i
  | a :: t =>
      if takes_over a best then argmax_from i a (S i) t
      else argmax_from best_i best (S i) t
  end.

Definition argmax (l : list num) : result nat :=
  match l with
  | [] => Raise ValueError
  | a :: t => Ok (argmax_from 0 a 1 t)
  end.

(** [l[i] = v] for a position inside the array. *)
Fixpoint update {A : Type} (l : list A) (i : nat) (v : A) : list A :=
  match l, i with
  | [], _ => []
  | _ :: t, O => v :: t
  | a :: t, S i' => a :: update t i' v
  end.

(** [l[mask]] *)
Definition select {A : Type} (mask : list bool) (l : list A) : list A :=
  map snd (filter (fun p => fst p) (combine mask l)).

(** [np.abs(cat.flux[:,0]/cat.dflux[:,0])] for one entry. *)
Definition snr (e : entry) : num := nabs (ndiv (c0 (flux e)) (c0 (dflux e))).

(** The body of the loop over the groups: all members of the group but its
    strongest are marked; [rejected[group] |= bad]. *)
Definition reject_group (snrs : list num) (rejected : list bool) (group : list nat)
    : result (list bool) :=
  k <- argmax (map (fun i => nth i snrs NaN) group) ;;
  let bad := map (fun p => negb (p =? k)%nat) (seq 0 (length group)) in
  let merged := map2 orb (map (fun i => nth i rejected false) group) bad in
  Ok (fold_left (fun rej p => update rej (fst p) (snd p)) (combine group merged) rejected).

Fixpoint reject_groups (snrs : list num) (rejected : list bool) (groups : list (list nat))
    : result (list bool) :=
  match groups with
  | [] => Ok rejected
  | g :: rest => rej <- reject_group snrs rejected g ;; reject_groups snrs rej rest
  end.

Section prune_near_bright.
(** [utils.rewind(a, 0)]. *)
Variable rewind : R -> R.

(** The marks after the loop. *)
Definition rejected_of (cat : list entry) (lim_bright rlim : R) : result (list bool) :=
  let snrs := map snr cat in
  let bright := map (fun s => nltb (Fin lim_bright) s) snrs in
  let cat := map (rewound rewind) cat in
  let pos := map position cat in
  tree_all <- cKDTree pos ;;
  tree_bright <- cKDTree (select bright pos) ;;
  let groups := query_ball_tree tree_bright tree_all rlim in
  reject_groups snrs (repeat false (length cat)) groups.

(** [prune_near_bright]: the catalog as the call leaves it in the caller's
    array (its right ascensions are rewound in place), and the returned
    catalog. *)
Definition prune_near_bright (cat : list entry) (lim_bright rlim : R)
    : result (list entry * list entry) :=
  rejected <- rejected_of cat lim_bright rlim ;;
  let cat := map (rewound rewind) cat in
  Ok (cat, select (map negb rejected) cat).

End prune_near_bright.

End Prune.

(** ** Catalog files: the units and the column layout of the readers and writers *)

Module Catalog.
Import Num Merge.

Definition vmap (f : num -> num) (v : vec) : vec := (f (c0 v), f (c1 v), f (c2 v)).

(** The same catalog with its angles, its amplitudes and its fluxes
    converted ([for field in ...: cat[field] *= unit]). *)
Definition convert (angle amplitude flux_ : num -> num) (e : entry) : entry :=
  {| ra := angle (ra e); dec := angle (dec e);
     amp := vmap amplitude (amp e); damp := vmap amplitude (damp e);
     flux := vmap flux_ (flux e); dflux := vmap flux_ (dflux e);
     npix := npix e; status := status e |}.

Section Units.
(** [utils.degree]: one degree in radians. *)
Variable degree : R.
(** The value an integer field takes when a float is stored into it. *)
Variable to_int : num -> Z.

(** [write_catalog_fits]: the table handed to the FITS writer, a copy of
    the catalog in degrees, mK and mJy. *)
Definition write_catalog_fits (cat : list entry) : list entry :=
  map (convert (fun a => ndiv a (Fin degree)) (fun a => ndiv a (Fin 1000))
               (fun a => nmul a (Fin 1000))) cat.

(** [read_catalog_fits]: the catalog made of the table found in the file. *)
Definition read_catalog_fits (table : list entry) : list entry :=
  map (convert (fun a => nmul a (Fin degree)) (fun a => nmul a (Fin 1000))
               (fun a => ndiv a (Fin 1000))) table.

(** [write_catalog_txt]: the seventeen columns handed to [np.savetxt], one
    value per source in each. *)
Definition catalog_columns (cat : list entry) : list (list num) :=
  [ map (fun e => ndiv (ra e) (Fin degree)) cat;
    map (fun e => ndiv (dec e) (Fin degree)) cat;
    map (fun e => ndiv (c0 (amp e)) (c0 (damp e))) cat;
    map (fun e => ndiv (c0 (amp e)) (Fin 1000)) cat;
    map (fun e => ndiv (c0 (damp e)) (Fin 1000)) cat;
    map (fun e => ndiv (c1 (amp e)) (Fin 1000)) cat;
    map (fun e => ndiv (c1 (damp e)) (Fin 1000)) cat;
    map (fun e => ndiv (c2 (amp e)) (Fin 1000)) cat;
    map (fun e => ndiv (c2 (damp e)) (Fin 1000)) cat;
    map (fun e => nmul (c0 (flux e)) (Fin 1000)) cat;
    map (fun e => nmul (c0 (dflux e)) (Fin 1000)) cat;
    map (fun e => nmul (c1 (flux e)) (Fin 1000)) cat;
    map (fun e => nmul (c1 (dflux e)) (Fin 1000)) cat;
    map (fun e => nmul (c2 (flux e)) (Fin 1000)) cat;
    map (fun e => nmul (c2 (dflux e)) (Fin 1000)) cat;
    map npix cat;
    map (fun e => Fin (IZR (status e))) cat ].

(** [read_catalog_txt]: the catalog made of the columns [data] that
    [np.loadtxt(...).T] gives for a table of seventeen columns. *)
Definition catalog_of_columns (data : list (list num)) : list entry :=
  let col := fun c k => nth k (nth c data []) NaN in
  let every := fun (c1 c2 c3 : nat) (f : num -> num) k =>
                 (f (col c1 k), f (col c2 k), f (col c3 k)) in
  map (fun k =>
         {| ra := nmul (col 0%nat k) (Fin degree);
            dec := nmul (col 1%nat k) (Fin degree);
            amp := every 3%nat 5%nat 7%nat (fun a => nmul a (Fin 1000)) k;
            damp := every 4%nat 6%nat 8%nat (fun a => nmul a (Fin 1000)) k;
            flux := every 9%nat 11%nat 13%nat (fun a => ndiv a (Fin 1000)) k;
            dflux := every 10%nat 12%nat 14%nat (fun a => ndiv a (Fin 1000)) k;
            npix := col 15%nat k;
            status := to_int (col 16%nat k) |})
      (seq 0 (length (nth 0 data []))).

End Units.

End Catalog.

(** ** Source-centric scans: [SrcScan.select] *)

Module Scan.
Import Py.

(** The fields of a [SrcScan]: the flattened samples with their pointing and
    phase; the ranges [ranges[nrange,2]] of contiguous samples; for every
    source and detector the part [rangesets[o1:o2]] of the range indices
    that belong to it, [offsets[nsrc,ndet,2]]; and per-detector data. *)
Record SrcScan : Type := {
  tod : list R;
  point : list (list R);
  phase : list (list R);
  ranges : list (Z * Z);
  rangesets : list Z;
  offsets : list (list (Z * Z));
  ivars : list R;
  dets : list Z;
  rbox : option (list R);
  nbox : option (list R);
  ys : option (list R);
  point_offset : option (list (list R))
}.

(** [np.arange(n)] *)
Definition arange (n : nat) : list Z := map Z.of_nat (seq 0 n).

(** [np.all(a == b)] for two index arrays: element by element when the
    lengths agree, a one-element array against every element of the other
    (broadcasting), and false for arrays whose lengths cannot be broadcast
    (numpy then compares the arrays as unequal objects; later versions,
    which raise instead, reject every selection of a different size). *)
Definition all_equal (a b : list Z) : bool :=
  if (length a =? length b)%nat then forallb (fun p => (fst p =? snd p)%Z) (combine a b)
  else
    match a, b with
    | [x], _ => forallb (fun y => (x =? y)%Z) b
    | _, [y] => forallb (fun x => (x =? y)%Z) a
    | _, _ => false
    end.

(** [np.concatenate], which needs at least one array. *)
Definition concatenate {A : Type} (l : list (list A)) : result (list A) :=
  match l with [] => Raise ValueError | _ => Ok (concat l) end.

Section select.
Variable self : SrcScan.

(** [self.offsets[src,det]] *)
Definition cell (src det : Z) : result (Z * Z) :=
  r <- item [] (offsets self) src ;; item (0, 0)%Z r det.

(** The loop over the detectors for one source: the new offsets of the row,
    the pieces of [rangesets] it appends, and the running count. *)
Fixpoint slice_dets (src : Z) (dets : list Z) (nset : Z)
    : result (list (Z * Z) * list (list Z) * Z) :=
  match dets with
  | [] => Ok ([], [], nset)
  | det :: rest =>
      o <- cell src det ;;
      let nset' := (nset + (snd o - fst o))%Z in
      r <- slice_dets src rest nset' ;;
      Ok ((nset, nset') :: fst (fst r),
          slice (rangesets self) (fst o) (snd o) :: snd (fst r),
          snd r)
  end.

(** The loop over the sources. *)
Fixpoint slice_srcs (srcs dets : list Z) (nset : Z)
    : result (list (list (Z * Z)) * list (list Z) * Z) :=
  match srcs with
  | [] => Ok ([], [], nset)
  | src :: rest =>
      r1 <- slice_dets src dets nset ;;
      r <- slice_srcs rest dets (snd r1) ;;
      Ok (fst (fst r1) :: fst (fst r), snd (fst r1) ++ snd (fst r), snd r)
  end.

(** [rmap = np.nonzero(used)[0]] after [used[rangesets] = True]. *)
Definition used_ranges (positions : list nat) : list nat :=
  filter (fun i => existsb (Nat.eqb i) positions) (seq 0 (length (ranges self))).

(** [irmap = np.zeros(len(self.ranges)); irmap[rmap] = np.arange(len(rmap))] *)
Definition inverse_map (rmap : list nat) : list Z :=
  fold_left (fun irmap (p : nat * Z) => Prune.update irmap (fst p) (snd p))
            (combine rmap (arange (length rmap)))
            (repeat 0%Z (length (ranges self))).

(** The loop that copies the samples of the kept ranges to the front of the
    new arrays and rewrites the ranges; [m] is the number of samples already
    placed. *)
Fixpoint copy_ranges (rs : list (Z * Z)) (m : Z)
    (buf : list R * list (list R) * list (list R))
    : result ((list R * list (list R) * list (list R)) * list (Z * Z)) :=
  match rs with
  | [] => Ok (buf, [])
  | (i1, i2) :: rest =>
      let o1 := m in
      let o2 := (m + i2 - i1)%Z in
      t <- assign_slice (fst (fst buf)) o1 o2 (slice (tod self) i1 i2) ;;
      p <- assign_slice (snd (fst buf)) o1 o2 (slice (point self) i1 i2) ;;
      ph <- assign_slice (snd buf) o1 o2 (slice (phase self) i1 i2) ;;
      r <- copy_ranges rest o2 (t, p, ph) ;;
      Ok (fst r, (o1, o2) :: snd r)
  end.

(** [select]: a new scan for the given sources and detectors, or the scan
    itself when the selection is the whole of it. *)
Definition select (srcs dets : list Z) : result SrcScan :=
  if all_equal dets (arange (length (Scan.dets self)))
     && all_equal srcs (arange (length (offsets self)))
  then Ok self
  else
    r <- slice_srcs srcs dets 0 ;;
    let offsets' := fst (fst r) in
    rangesets' <- concatenate (snd (fst r)) ;;
    positions <- traverse (position (ranges self)) rangesets' ;;
    let rmap := used_ranges positions in
    let irmap := inverse_map rmap in
    let ranges' := map (fun i => nth i (ranges self) (0, 0)%Z) rmap in
    let rangesets' := map (fun k => nth k irmap 0%Z) positions in
    let n := fold_right Z.add 0%Z (map (fun r => (snd r - fst r)%Z) ranges') in
    c <- copy_ranges ranges' 0
           (slice (tod self) 0 n, slice (point self) 0 n, slice (phase self) 0 n) ;;
    point_offset' <- match point_offset self with
                     | None => Ok None
                     | Some po => po' <- take [] po dets ;; Ok (Some po')
                     end ;;
    ivars' <- take 0 (ivars self) dets ;;
    dets' <- take 0%Z (Scan.dets self) dets ;;
    Ok {| tod := fst (fst (fst c)); point := snd (fst (fst c)); phase := snd (fst c);
          ranges := snd c; rangesets := rangesets'; offsets := offsets';
          ivars := ivars'; dets := dets';
          rbox := rbox self; nbox := nbox self; ys := ys self;
          point_offset := point_offset' |}.

End select.

(** [s.offsets[src,det]] for a source and a detector of the scan. *)
Definition offset_of (s : SrcScan) (src det : nat) : Z * Z :=
  nth det (nth src (offsets s) []) (0, 0)%Z.

(** The samples of one source seen by one detector: those of the ranges
    listed in its part of [rangesets], in order. *)
Definition samples {A : Type} (data : SrcScan -> list A) (s : SrcScan) (src det : nat)
    : list A :=
  let o := offset_of s src det in
  flat_map (fun r => let rg := nth (Z.to_nat r) (ranges s) (0, 0)%Z in
                     slice (data s) (fst rg) (snd rg))
           (slice (rangesets s) (fst o) (snd o)).

(** A well-formed scan: every offset pair delimits a part of [rangesets],
    every entry of [rangesets] names a range, every range delimits samples,
    the ranges do not hold more samples than there are, and the
    per-sample and per-detector arrays have matching lengths. *)
Record well_formed (s : SrcScan) : Prop := {
  wf_rows : forall r, In r (offsets s) -> length r = length (dets s);
  wf_offsets : forall r o, In r (offsets s) -> In o r ->
      (0 <= fst o <= snd o /\ snd o <= Z.of_nat (length (rangesets s)))%Z;
  wf_rangesets : forall r, In r (rangesets s) ->
      (0 <= r < Z.of_nat (length (ranges s)))%Z;
  wf_ranges : forall r, In r (ranges s) ->
      (0 <= fst r <= snd r /\ snd r <= Z.of_nat (length (tod s)))%Z;
  wf_total :
      (fold_right Z.add 0 (map (fun r => snd r - fst r) (ranges s))
       <= Z.of_nat (length (tod s)))%Z;
  wf_point : length (point s) = length (tod s);
  wf_phase : length (phase s) = length (tod s);
  wf_ivars : length (ivars s) = length (dets s);
  wf_point_offset : forall po, point_offset s = Some po -> length po = length (dets s)
}.

(** The new ranges follow one another from sample 0. *)
Fixpoint contiguous (m : Z) (rs : list (Z * Z)) : Prop :=
  match rs with
  | [] => True
  | r :: rest => fst r = m /\ (m <= snd r)%Z /\ contiguous (snd r) rest
  end.

(** A scan of four samples in two ranges, seen by one detector: the first
    source owns the first range and the second source the second. *)
Definition two_sources : SrcScan :=
  {| tod := [1; 2; 3; 4];
     point := [[0; 0]; [0; 1]; [1; 0]; [1; 1]];
     phase := [[0]; [1]; [0]; [1]];
     ranges := [(0, 2); (2, 4)]%Z;
     rangesets := [0; 1]%Z;
     offsets := [[(0, 1)]; [(1, 2)]]%Z;
     ivars := [1];
     dets := [7]%Z;
     rbox := None; nbox := None; ys := None;
     point_offset := None |}.

End Scan.

(** * Part II: properties *)

(** ** Comparisons and reductions *)

Lemma Rleb_true (x y : R) : Rleb x y = true <-> x <= y.
Proof. unfold Rleb; destruct (Rle_dec x y); split; intros; try easy. Qed.

Lemma Rleb_false (x y : R) : Rleb x y = false <-> y < x.
Proof.
  unfold Rleb; destruct (Rle_dec x y); split; intros; try easy; lra.
Qed.

Lemma Rltb_true (x y : R) : Rltb x y = true <-> x < y.
Proof. unfold Rltb; destruct (Rlt_dec x y); split; intros; try easy. Qed.

Lemma Rltb_false (x y : R) : Rltb x y = false <-> y <= x.
Proof.
  unfold Rltb; destruct (Rlt_dec x y); split; intros; try easy; lra.
Qed.

(** Deciding comparisons of concrete reals while evaluating the model,
    innermost comparison first. *)
Ltac no_decision t :=
  lazymatch t with
  | context [Rle_dec _ _] => fail
  | context [Rlt_dec _ _] => fail
  | context [Req_dec_T _ _] => fail
  | _ => idtac
  end.

Ltac Rdecide :=
  repeat (cbn [fst snd]; match goal with
  | |- context [Rle_dec ?a ?b] =>
      no_decision a; no_decision b;
      destruct (Rle_dec a b); [ try (exfalso; lra) | try (exfalso; lra) ]
  | |- context [Rlt_dec ?a ?b] =>
      no_decision a; no_decision b;
      destruct (Rlt_dec a b); [ try (exfalso; lra) | try (exfalso; lra) ]
  | |- context [Req_dec_T ?a ?b] =>
      no_decision a; no_decision b;
      destruct (Req_dec_T a b); [ try (exfalso; lra) | try (exfalso; lra) ]
  end).


Lemma fold_left_Rmax_ge (l : list R) (a : R) : a <= fold_left Rmax l a.
Proof.
  revert a; induction l as [|x l IH]; intros a; simpl; [lra|].
  eapply Rle_trans; [apply (Rmax_l a x)| apply IH].
Qed.

Lemma fold_left_Rmax_In (l : list R) (a x : R) :
  In x l -> x <= fold_left Rmax l a.
Proof.
  revert a; induction l as [|y l IH]; intros a Hin; simpl; [easy|].
  destruct Hin as [->|Hin]; [|now apply IH].
  eapply Rle_trans; [apply (Rmax_r a x)| apply fold_left_Rmax_ge].
Qed.

Lemma np_max_ge (l : list R) (x : R) : In x l -> x <= np_max l.
Proof.
  destruct l as [|a l]; simpl; [easy|].
  intros [->|Hin]; [apply fold_left_Rmax_ge | now apply fold_left_Rmax_In].
Qed.

(** ** Angles and neighbour queries *)

Lemma Int_part_unit (r : R) (z : Z) : IZR z <= r < IZR z + 1 -> Int_part r = z.
Proof. intros H. symmetry. apply Int_part_spec. lra. Qed.

Lemma rewind_principal_id (a : R) : - PI <= a < PI -> rewind_principal a = a.
Proof.
  intros Ha. unfold rewind_principal, fmod.
  assert (Hpi := PI_RGT_0).
  rewrite (Int_part_unit ((a + PI) / (2 * PI)) 0).
  - simpl. lra.
  - simpl. split.
    + apply Rmult_le_pos; [lra|]. apply Rlt_le, Rinv_0_lt_compat. lra.
    + apply (Rmult_lt_reg_r (2 * PI)); [lra|].
      unfold Rdiv. rewrite Rmult_assoc, Rinv_l by lra. lra.
Qed.

Lemma rewind_principal_0 : rewind_principal 0 = 0.
Proof.
  unfold rewind_principal, fmod.
  assert (Hpi := PI_RGT_0).
  replace ((0 + PI) / (2 * PI)) with (/ 2) by (field; lra).
  rewrite (Int_part_unit (/ 2) 0) by (simpl; lra). simpl. lra.
Qed.


Lemma within_refl (r : R) (p : R * R) : within r p p = true.
Proof. unfold within. apply Rleb_true. nra. Qed.

Lemma within_sym (r : R) (p q : R * R) : within r p q = within r q p.
Proof. unfold within. f_equal. ring. Qed.

Lemma within_true (r : R) (p q : R * R) :
  (fst p - fst q) * (fst p - fst q) + (snd p - snd q) * (snd p - snd q) <= r * r ->
  within r p q = true.
Proof. intros H. unfold within. now apply Rleb_true. Qed.

Lemma within_false (r : R) (p q : R * R) :
  r * r < (fst p - fst q) * (fst p - fst q) + (snd p - snd q) * (snd p - snd q) ->
  within r p q = false.
Proof. intros H. unfold within. now apply Rleb_false. Qed.

(** ** Noise/filter estimator *)


(** *** Finite sums and character sums *)

Section Sums.
Import Filter.

Lemma rsum_ext (n : nat) (f g : nat -> R) :
  (forall i, (i < n)%nat -> f i = g i) -> rsum n f = rsum n g.
Proof.
  induction n as [|n IH]; intros H; simpl; [reflexivity|].
  rewrite IH by (intros i Hi; apply H; lia). rewrite (H n) by lia. reflexivity.
Qed.

Lemma rsum_scal (n : nat) (c : R) (f : nat -> R) :
  rsum n (fun i => c * f i) = c * rsum n f.
Proof. induction n as [|n IH]; simpl; [ring | rewrite IH; ring]. Qed.

Lemma rsum_plus (n : nat) (f g : nat -> R) :
  rsum n (fun i => f i + g i) = rsum n f + rsum n g.
Proof. induction n as [|n IH]; simpl; [ring | rewrite IH; ring]. Qed.

Lemma rsum_le (n : nat) (f g : nat -> R) :
  (forall i, (i < n)%nat -> f i <= g i) -> rsum n f <= rsum n g.
Proof.
  induction n as [|n IH]; intros H; simpl; [lra|].
  assert (rsum n f <= rsum n g) by (apply IH; intros i Hi; apply H; lia).
  assert (f n <= g n) by (apply H; lia). lra.
Qed.

Lemma rsum_zero (n : nat) : rsum n (fun _ => 0) = 0.
Proof. induction n as [|n IH]; simpl; [reflexivity | rewrite IH; ring]. Qed.

Lemma rsum_nonneg (n : nat) (f : nat -> R) :
  (forall i, (i < n)%nat -> 0 <= f i) -> 0 <= rsum n f.
Proof. intros H. rewrite <- (rsum_zero n). now apply rsum_le. Qed.


Lemma rsum_swap (n m : nat) (f : nat -> nat -> R) :
  rsum n (fun i => rsum m (fun j => f i j)) = rsum m (fun j => rsum n (fun i => f i j)).
Proof.
  induction n as [|n IH]; simpl.
  - now rewrite rsum_zero.
  - rewrite IH, <- rsum_plus. reflexivity.
Qed.

Lemma rsum_one (n : nat) : rsum n (fun _ => 1) = INR n.
Proof. induction n as [|n IH]; [reflexivity|]. rewrite S_INR. simpl. rewrite IH. ring. Qed.

(** The sums of cosines and sines of the multiples of an angle [a] whose
    [n]-th multiple is a whole number of turns. *)
Lemma cos_sum_telescope (a : R) (n : nat) :
  2 * sin (a / 2) * rsum n (fun y => cos (a * INR y))
  = sin (a * INR n - a / 2) + sin (a / 2).
Proof.
  induction n as [|n IH].
  - simpl. replace (a * 0 - a / 2) with (- (a / 2)) by lra. rewrite sin_neg. ring.
  - simpl rsum. rewrite Rmult_plus_distr_l, IH, S_INR.
    replace (a * (INR n + 1) - a / 2) with (a * INR n + a / 2) by lra.
    rewrite sin_plus, sin_minus. ring.
Qed.

Lemma sin_sum_telescope (a : R) (n : nat) :
  2 * sin (a / 2) * rsum n (fun y => sin (a * INR y))
  = cos (a / 2) - cos (a * INR n - a / 2).
Proof.
  induction n as [|n IH].
  - simpl. replace (a * 0 - a / 2) with (- (a / 2)) by lra. rewrite cos_neg. ring.
  - simpl rsum. rewrite Rmult_plus_distr_l, IH, S_INR.
    replace (a * (INR n + 1) - a / 2) with (a * INR n + a / 2) by lra.
    rewrite cos_plus, cos_minus. ring.
Qed.

Lemma whole_turn_multiples (a : R) (y : nat) :
  sin (a / 2) = 0 -> cos (a * INR y) = 1 /\ sin (a * INR y) = 0.
Proof.
  intros Hs.
  assert (Hc : cos a = 1).
  { replace a with (2 * (a / 2)) by lra. rewrite cos_2a_sin, Hs. ring. }
  assert (Hs' : sin a = 0).
  { replace a with (2 * (a / 2)) by lra. rewrite sin_2a, Hs. ring. }
  induction y as [|y [IHc IHs]].
  - simpl. rewrite Rmult_0_r. split; [apply cos_0 | apply sin_0].
  - rewrite S_INR. replace (a * (INR y + 1)) with (a * INR y + a) by ring.
    rewrite cos_plus, sin_plus, IHc, IHs, Hc, Hs'. split; ring.
Qed.

Lemma character_sums (a : R) (n : nat) :
  sin (a * INR n) = 0 -> cos (a * INR n) = 1 ->
  rsum n (fun y => sin (a * INR y)) = 0 /\ 0 <= rsum n (fun y => cos (a * INR y)).
Proof.
  intros Hsn Hcn.
  destruct (Req_dec_T (sin (a / 2)) 0) as [Hz|Hnz].
  - split.
    + rewrite (rsum_ext n _ (fun _ => 0)); [apply rsum_zero|].
      intros i _. now apply whole_turn_multiples.
    + apply rsum_nonneg. intros i _.
      destruct (whole_turn_multiples a i Hz) as [-> _]. lra.
  - pose proof (cos_sum_telescope a n) as Hc.
    pose proof (sin_sum_telescope a n) as Hs.
    rewrite sin_minus, Hsn, Hcn in Hc. rewrite cos_minus, Hsn, Hcn in Hs.
    split.
    + apply (Rmult_eq_reg_l (2 * sin (a / 2))); [|lra]. rewrite Hs. ring.
    + right. symmetry. apply (Rmult_eq_reg_l (2 * sin (a / 2))); [|lra]. rewrite Hc. ring.
Qed.

End Sums.

(** *** Sums over the grid and orthogonality of the modes *)

Section GridSums.
Import Filter.
Variables ny nx : nat.
Hypothesis ny_pos : (0 < ny)%nat.
Hypothesis nx_pos : (0 < nx)%nat.

Lemma gsum_ext (f g : nat -> nat -> R) :
  (forall y x, (y < ny)%nat -> (x < nx)%nat -> f y x = g y x) ->
  gsum ny nx f = gsum ny nx g.
Proof.
  intros H. unfold gsum. apply rsum_ext. intros y Hy.
  apply rsum_ext. intros x Hx. now apply H.
Qed.

Lemma gsum_scal (c : R) (f : nat -> nat -> R) :
  gsum ny nx (fun y x => c * f y x) = c * gsum ny nx f.
Proof.
  unfold gsum. rewrite <- rsum_scal. apply rsum_ext. intros y _. apply rsum_scal.
Qed.

Lemma gsum_plus (f g : nat -> nat -> R) :
  gsum ny nx (fun y x => f y x + g y x) = gsum ny nx f + gsum ny nx g.
Proof.
  unfold gsum. rewrite <- rsum_plus. apply rsum_ext. intros y _. apply rsum_plus.
Qed.





Lemma gsum_swap (f : nat -> nat -> nat -> nat -> R) :
  gsum ny nx (fun y x => gsum ny nx (fun ky kx => f y x ky kx))
  = gsum ny nx (fun ky kx => gsum ny nx (fun y x => f y x ky kx)).
Proof.
  unfold gsum.
  transitivity (rsum ny (fun y => rsum ny (fun ky => rsum nx (fun x =>
                  rsum nx (fun kx => f y x ky kx))))).
  { apply rsum_ext; intros y _.
    apply (rsum_swap nx ny (fun x ky => rsum nx (fun kx => f y x ky kx))). }
  rewrite (rsum_swap ny ny
             (fun y ky => rsum nx (fun x => rsum nx (fun kx => f y x ky kx)))).
  apply rsum_ext; intros ky _.
  transitivity (rsum ny (fun y => rsum nx (fun kx => rsum nx (fun x => f y x ky kx)))).
  { apply rsum_ext; intros y _. apply (rsum_swap nx nx (fun x kx => f y x ky kx)). }
  apply (rsum_swap ny nx (fun y kx => rsum nx (fun x => f y x ky kx))).
Qed.

Lemma gsum_sep (f g : nat -> R) :
  gsum ny nx (fun y x => f y * g x) = rsum ny f * rsum nx g.
Proof.
  unfold gsum.
  rewrite (rsum_ext ny _ (fun y => rsum nx g * f y)).
  - rewrite rsum_scal. ring.
  - intros y _. rewrite rsum_scal. ring.
Qed.

Lemma gsum_one : gsum ny nx (fun _ _ => 1) = npix ny nx.
Proof.
  unfold gsum, npix. rewrite (rsum_ext ny _ (fun _ => INR nx * 1)).
  - rewrite rsum_scal, rsum_one. ring.
  - intros y _. rewrite rsum_one. ring.
Qed.


Lemma grid_sin_sum (ay ax : R) :
  whole_turns ny nx ay ax -> gsum ny nx (fun y x => sin (ay * INR y + ax * INR x)) = 0.
Proof.
  intros [[Hsy Hcy] [Hsx Hcx]].
  destruct (character_sums ay ny Hsy Hcy) as [Sy Cy].
  destruct (character_sums ax nx Hsx Hcx) as [Sx Cx].
  rewrite (gsum_ext _ (fun y x => sin (ay * INR y) * cos (ax * INR x)
                                  + cos (ay * INR y) * sin (ax * INR x))).
  2:{ intros y x _ _. rewrite sin_plus. ring. }
  rewrite gsum_plus, !gsum_sep, Sx, Sy. ring.
Qed.

Lemma phase_freq (ky kx y x : nat) :
  phase ny nx ky kx y x = freq ny ky * INR y + freq nx kx * INR x.
Proof. unfold phase, freq. unfold Rdiv. ring. Qed.

Lemma turns (k : nat) : sin (2 * PI * INR k) = 0 /\ cos (2 * PI * INR k) = 1.
Proof.
  replace (2 * PI * INR k) with (0 + 2 * INR k * PI) by ring.
  rewrite sin_period, cos_period. split; [apply sin_0 | apply cos_0].
Qed.






End GridSums.

(** *** The matched filter has unit response to the beam template *)

Section FilterProps.
Import Filter.
Variables ny nx : nat.
Hypothesis ny_pos : (0 < ny)%nat.
Hypothesis nx_pos : (0 < nx)%nat.

Local Abbreviation c := (/ sqrt (npix ny nx)).
Local Abbreviation theta := (phase ny nx).
Local Abbreviation S := (gsum ny nx).
Local Abbreviation cos_coef := (Filter.cos_coef ny nx).
Local Abbreviation sin_coef := (Filter.sin_coef ny nx).

Lemma npix_pos : 0 < npix ny nx.
Proof. unfold npix. apply Rmult_lt_0_compat; apply lt_0_INR; assumption. Qed.

Lemma sqrt_npix_neq : sqrt (npix ny nx) <> 0.
Proof. pose proof (sqrt_lt_R0 _ npix_pos). lra. Qed.



Lemma real_ifft (b : rmap) (y x : nat) :
  real (ifft ny nx (of_real b)) y x
  = c * S (fun ky kx => b ky kx * cos (theta ky kx y x)).
Proof.
  unfold real, ifft, of_real, Cscale, Csum, Cmul, cis; simpl.
  f_equal. apply gsum_ext. intros ky kx _ _. ring.
Qed.

Lemma fft_real (m : rmap) (ky kx : nat) :
  fft ny nx (of_real m) ky kx = (cos_coef m ky kx, - sin_coef m ky kx).
Proof.
  unfold fft, of_real, Cscale, Csum, Cmul, cis, cos_coef, sin_coef; simpl.
  f_equal.
  - f_equal. apply gsum_ext. intros y x _ _.
    rewrite cos_neg. ring.
  - rewrite (gsum_ext ny nx _ (fun y x => -1 * (m y x * sin (theta ky kx y x)))).
    + rewrite gsum_scal. ring.
    + intros y x _ _. rewrite sin_neg. ring.
Qed.

Lemma apply_filter_eq (m filter : rmap) (y x : nat) :
  apply_filter ny nx m filter y x
  = c * S (fun ky kx => filter ky kx * (cos_coef m ky kx * cos (theta ky kx y x)
                                         + sin_coef m ky kx * sin (theta ky kx y x))).
Proof.
  unfold apply_filter, real, ifft. unfold Cscale at 1. unfold Csum. cbn [fst].
  f_equal. apply gsum_ext. intros ky kx _ _.
  rewrite fft_real. unfold Cscale, Cmul, cis; simpl. ring.
Qed.

Section Beam.
Variables ps beam2d : rmap.
Hypothesis ps_pos : forall ky kx, (ky < ny)%nat -> (kx < nx)%nat -> 0 < ps ky kx.
Hypothesis beam_nonneg : forall ky kx, (ky < ny)%nat -> (kx < nx)%nat -> 0 <= beam2d ky kx.
Hypothesis beam_nonzero :
  exists ky kx, (ky < ny)%nat /\ (kx < nx)%nat /\ 0 < beam2d ky kx.

Let T : rmap := beam_template ny nx beam2d.















End Beam.
End FilterProps.


(** *** A beam transform with a negative value *)

Section PeakElsewhere.
Import Filter.










End PeakElsewhere.

(** ** Blind source finder *)


(** *** Properties of the block loop and of the component fit *)

Section FinderProps.
Variable nx : nat.
Variable at_pix : Finder.ndmap -> R * R -> R.
Variable label : list bool -> list nat * nat.
Variable calc_model : list (R * R) -> list R -> Finder.ndmap.
Variables (snmin snblock : R) (nblock : nat).
Variables (norm apod_map : Finder.ndmap).

Let block := Finder.block nx at_pix label calc_model snmin snblock norm.
Let blocks := Finder.blocks nx at_pix label calc_model snmin snblock norm.

Lemma filter_Forall {A : Type} (p : A -> bool) (l : list A) :
  Forall (fun x => p x = true) (filter p l).
Proof.
  induction l as [|x l IH]; simpl; [constructor|].
  destruct (p x) eqn:E; [constructor; assumption | assumption].
Qed.

Lemma block_cutoff (fmap : Finder.ndmap) (sn_lim : R) (r : Finder.block_result) :
  block fmap sn_lim = Some r ->
  Finder.b_cutoff r = Rmax snmin (Rmin sn_lim (Finder.b_peak r) / snblock)
  /\ Forall (fun s => Finder.b_cutoff r <= s) (Finder.b_kept r).
Proof.
  unfold block, Finder.block.
  destruct (label _) as [labels_pos nlabel_pos].
  destruct (label _) as [labels_neg nlabel_neg].
  destruct (_ =? 0)%nat; [discriminate|].
  match goal with |- context [filter ?p ?l] => pose proof (filter_Forall p l) as Hkeep end.
  destruct (length _ =? 0)%nat; intros [= <-]; simpl; (split; [reflexivity|]).
  - constructor.
  - apply Forall_map. revert Hkeep. apply Forall_impl.
    intros i Hi. now apply Rleb_true.
Qed.

(** C4 (as amended): in every pass the cutoff starts from the global peak
    significance over the non-zero apodization region; every executed block
    replaces it by [max(snmin, min(cutoff, block peak) / snblock)], so it
    never falls below [snmin], and every component kept by the block has a
    peak significance that reaches the updated cutoff. *)
Theorem find_srcs_cutoff_chain (fmap : Finder.ndmap) :
  Finder.cutoff_chain snmin snblock (Finder.initial_sn_lim norm apod_map fmap)
    (Finder.pass_blocks nx at_pix label calc_model snmin snblock nblock norm apod_map fmap).
Proof.
  unfold Finder.pass_blocks. fold blocks.
  generalize (Finder.initial_sn_lim norm apod_map fmap) as sn_lim.
  generalize nblock as n. intros n. revert fmap.
  induction n as [|n IH]; intros fmap sn_lim; simpl; [exact I|].
  fold block. destruct (block fmap sn_lim) as [r|] eqn:Hb; simpl; [|exact I].
  destruct (block_cutoff _ _ _ Hb) as [Hc Hk].
  repeat split; try assumption.
  - rewrite Hc. apply Rmax_l.
  - destruct (Finder.b_continue r); [apply IH | exact I].
Qed.

End FinderProps.

Lemma initial_sn_lim_1px : Finder.initial_sn_lim [1] [1] [10] = 10.
Proof.
  unfold Finder.initial_sn_lim; simpl.
  unfold Rltb; Rdecide. rewrite Rabs_right; lra.
Qed.

Lemma block_1px : exists r,
  Finder.block 1 (Finder.at_order0 1) Finder.label_single Finder.calc_model_1px
    3.5 2.5 [1] [10] 10 = Some r
  /\ Finder.b_cutoff r = 4.
Proof.
  unfold Finder.block. cbn [map2 map].
  assert (H1 : Rleb 3.5 (10/1) = true) by (apply Rleb_true; lra).
  assert (H2 : Rleb 3.5 (- (10/1)) = false) by (apply Rleb_false; lra).
  rewrite H1, H2. cbn [Finder.label_single map existsb orb Nat.add Nat.eqb seq].
  match goal with |- context [if ?c then _ else _] => destruct c end;
    eexists; (split; [reflexivity|]); cbn;
    rewrite Rabs_right by lra; unfold Rmax, Rmin; Rdecide; lra.
Qed.

(** C4 (as stated) fails: on a one-pixel map of significance 10, with the
    default floor 3.5 and the default block ratio 2.5, the first block lowers
    the cutoff from 10 to 4, not to 5. *)
Lemma find_srcs_cutoff_not_halved :
  ~ Finder.halving_chain (Finder.initial_sn_lim [1] [1] [10])
      (Finder.pass_blocks 1 (Finder.at_order0 1) Finder.label_single
         Finder.calc_model_1px 3.5 2.5 10 [1] [1] [10]).
Proof.
  unfold Finder.pass_blocks. rewrite initial_sn_lim_1px.
  destruct block_1px as [r [Hr Hc]].
  cbn [Finder.blocks]. rewrite Hr. cbn [Finder.halving_chain].
  intros [H _]. rewrite Hc in H. lra.
Qed.

Lemma nint_INR (n : nat) : Finder.nint (INR n) = n.
Proof.
  unfold Finder.nint.
  rewrite <- (Int_part_spec (INR n + / 2) (Z.of_nat n)).
  - apply Nat2Z.id.
  - rewrite <- INR_IZR_INZ. lra.
Qed.

Lemma at_order0_exact (nx : nat) (m : Finder.ndmap) (i : nat) :
  nx <> 0%nat -> Finder.at_order0 nx m (Finder.pix_of nx i) = nth i m 0.
Proof.
  intros Hnx. unfold Finder.at_order0, Finder.pix_of; simpl.
  rewrite !nint_INR. f_equal.
  rewrite (Nat.div_mod_eq i nx) at 3. lia.
Qed.

Section ComponentFit.
Variable at_pix : Finder.ndmap -> R * R -> R.
Hypothesis at_pix_exact :
  forall m i, (i < length m)%nat -> at_pix m (Finder.pix_of 5 i) = nth i m 0.

(** C5 at a negative component: on the row [-10, -5, -4, -9, -8], whose
    centre of mass is the middle pixel, the component is negative and
    extended and its peak extremum is the minimum -10 at pixel (0,0); what
    [fit_labeled_srcs] returns is the maximum -4 at pixel (0,2).  This holds
    for every interpolation that reproduces a map at its pixel centres. *)
Theorem fit_labeled_srcs_negative_extended :
  let fmap := [-10; -5; -4; -9; -8] in
  let labels := [1; 1; 1; 1; 1]%nat in
  let c := Finder.measure 5 at_pix fmap labels 1 in
  Finder.negative c = true
  /\ Finder.extended 1.1 c = true
  /\ Finder.pos_ext c = (0, 0) /\ Finder.amp_ext c = -10
  /\ Finder.fit_labeled_srcs 5 at_pix fmap labels [1%nat] 1.1 = [((0, 2), -4)].
Proof.
  intros fmap labels.
  assert (Hcom : Finder.center_of_mass 5 fmap labels 1 = Finder.pix_of 5 2).
  { unfold Finder.center_of_mass, Finder.pix_of; cbn. f_equal; lra. }
  assert (Hamp : at_pix fmap (Finder.pix_of 5 2) = -4).
  { rewrite at_pix_exact; [reflexivity | simpl; lia]. }
  assert (Hmax : Finder.extremum_of (fun a b => Rleb b a)
                   (Finder.selected fmap labels 1) = (2%nat, -4)).
  { cbn. unfold Rleb. Rdecide. reflexivity. }
  assert (Hmin : Finder.extremum_of (fun a b => Rltb a b)
                   (Finder.selected fmap labels 1) = (0%nat, -10)).
  { cbn. unfold Rltb. Rdecide. reflexivity. }
  assert (Hneg : Rltb (-4) 0 = true) by (apply Rltb_true; lra).
  assert (Hext : Rltb (Rabs (-4) * 1.1) (Rabs (-10)) = true).
  { apply Rltb_true. rewrite !Rabs_left by lra. lra. }
  unfold Finder.fit_labeled_srcs, Finder.fit_component, Finder.extended,
    Finder.pos_ext, Finder.amp_ext, Finder.negative, Finder.measure; cbn [map].
  cbn [Finder.amp_com Finder.amp_min Finder.amp_max Finder.pos_min Finder.pos_max
       Finder.pos_com].
  unfold Finder.ndimage_minimum, Finder.ndimage_minimum_position,
    Finder.ndimage_maximum, Finder.ndimage_maximum_position.
  rewrite Hcom, Hamp, Hmax, Hmin, Hneg. cbn [fst snd]. rewrite Hext.
  unfold Finder.pix_of; cbn.
  repeat split; reflexivity.
Qed.
End ComponentFit.

Lemma fit_labeled_srcs_negative_extended_witness :
  let fmap := [-10; -5; -4; -9; -8] in
  let labels := [1; 1; 1; 1; 1]%nat in
  let c := Finder.measure 5 (Finder.at_order0 5) fmap labels 1 in
  Finder.negative c = true
  /\ Finder.extended 1.1 c = true
  /\ Finder.pos_ext c = (0, 0) /\ Finder.amp_ext c = -10
  /\ Finder.fit_labeled_srcs 5 (Finder.at_order0 5) fmap labels [1%nat] 1.1
     = [((0, 2), -4)].
Proof.
  apply (fit_labeled_srcs_negative_extended (Finder.at_order0 5)).
  intros m i _. apply at_order0_exact. lia.
Defined.

(** *** The block loop stops at the floor, and what the component fit returns *)

Section FinderExtras.
Variable nx : nat.
Variable at_pix : Finder.ndmap -> R * R -> R.
Variable label : list bool -> list nat * nat.
Variable calc_model : list (R * R) -> list R -> Finder.ndmap.
Variables (snmin snblock : R) (nblock : nat).
Variables (norm apod_map : Finder.ndmap).

Lemma block_goes_on (fmap : Finder.ndmap) (sn_lim : R) (r : Finder.block_result) :
  Finder.block nx at_pix label calc_model snmin snblock norm fmap sn_lim = Some r ->
  Finder.b_continue r = true ->
  snmin < Finder.b_cutoff r /\ Finder.b_kept r <> [].
Proof.
  unfold Finder.block.
  destruct (label _) as [labels_pos nlabel_pos].
  destruct (label _) as [labels_neg nlabel_neg].
  destruct (_ =? 0)%nat; [discriminate|].
  match goal with |- context [filter ?p ?l] => destruct (filter p l) as [|k keep] eqn:Ek end;
    simpl; intros [= <-]; simpl; [discriminate|].
  intros Hc. split; [|discriminate].
  apply negb_true_iff, Rleb_false in Hc. exact Hc.
Qed.

(** A pass runs at most [nblock] blocks, and every block that is followed
    by another one kept at least one component and left the cutoff above
    the detection floor. *)
Theorem pass_blocks_stop (fmap : Finder.ndmap) :
  let rs := Finder.pass_blocks nx at_pix label calc_model snmin snblock nblock
              norm apod_map fmap in
  (length rs <= nblock)%nat
  /\ forall i r, nth_error rs i = Some r -> (S i < length rs)%nat ->
       snmin < Finder.b_cutoff r /\ Finder.b_kept r <> [].
Proof.
  unfold Finder.pass_blocks.
  generalize (Finder.initial_sn_lim norm apod_map fmap) as sn_lim.
  generalize nblock as n. intros n. revert fmap.
  induction n as [|n IH]; intros fmap sn_lim; simpl.
  - split; [lia|]. intros i r _ Hi. simpl in Hi. lia.
  - destruct (Finder.block _ _ _ _ _ _ _ fmap sn_lim) as [r0|] eqn:Hb; simpl.
    2:{ split; [lia|]. intros i r _ Hi. simpl in Hi. lia. }
    destruct (Finder.b_continue r0) eqn:Hc; simpl.
    2:{ split; [lia|]. intros i r _ Hi. simpl in Hi. lia. }
    destruct (IH (Finder.b_fmap r0) (Finder.b_cutoff r0)) as [Hlen Hrest].
    split; [lia|]. intros [|i] r Hr Hi; simpl in Hr.
    + injection Hr as <-. eapply block_goes_on; eassumption.
    + apply (Hrest i r Hr). simpl in Hi. lia.
Qed.

End FinderExtras.

Section ComponentPeak.
Variable nx : nat.
Variable at_pix : Finder.ndmap -> R * R -> R.

Lemma combine_seq_In {A : Type} (l : list A) (d : A) (p : nat * A) :
  In p (combine (seq 0 (length l)) l) <-> (fst p < length l)%nat /\ snd p = nth (fst p) l d.
Proof.
  assert (Hlen : length (combine (seq 0 (length l)) l) = length l)
    by (rewrite length_combine, length_seq; lia).
  assert (Hnth : forall k, (k < length l)%nat ->
            nth k (combine (seq 0 (length l)) l) (0%nat, d) = (k, nth k l d)).
  { intros k Hk. rewrite combine_nth by (now rewrite length_seq).
    now rewrite seq_nth. }
  split.
  - intros Hp. destruct (In_nth _ _ (0%nat, d) Hp) as [k [Hk <-]].
    rewrite Hlen in Hk. rewrite Hnth by exact Hk. now split.
  - intros [Hk Hv]. destruct p as [k v]. simpl in Hk, Hv. subst v.
    rewrite <- Hnth by exact Hk. apply nth_In. now rewrite Hlen.
Qed.

(** The pixels of a component: those that carry its label. *)
Lemma selected_spec (fmap : Finder.ndmap) (labels : list nat) (idx : nat) (p : nat * R) :
  In p (Finder.selected fmap labels idx)
  <-> (fst p < length fmap)%nat /\ snd p = nth (fst p) fmap 0
      /\ nth (fst p) labels 0%nat = idx.
Proof.
  unfold Finder.selected. rewrite filter_In, (combine_seq_In fmap 0), Nat.eqb_eq. tauto.
Qed.

(** The scan for the maximum ends on a pixel that no pixel exceeds. *)
Lemma extremum_max (l : list (nat * R)) (best : nat * R) :
  let r := Finder.extremum (fun a b => Rleb b a) best l in
  (r = best \/ In r l) /\ snd best <= snd r /\ forall p, In p l -> snd p <= snd r.
Proof.
  revert best; induction l as [|p t IH]; intros best; simpl.
  - split; [now left|]. split; [lra|]. intros p [].
  - destruct (IH (if Rleb (snd best) (snd p) then p else best)) as [Hin [Hle Hall]].
    destruct (Rleb (snd best) (snd p)) eqn:E.
    + apply Rleb_true in E. split; [|split].
      * right. destruct Hin as [->|Hin]; [now left | now right].
      * lra.
      * intros q [<-|Hq]; [exact Hle | now apply Hall].
    + apply Rleb_false in E. split; [|split].
      * destruct Hin as [->|Hin]; [now left | right; now right].
      * exact Hle.
      * intros q [<-|Hq]; [lra | now apply Hall].
Qed.

(** An extended component is fitted by a pixel of the component that no
    pixel of the component exceeds, with that pixel's value as amplitude:
    for every label [inds[k]] that some pixel carries and whose component
    is classified as extended, entry [k] of what [fit_labeled_srcs] returns
    is the position and the value of such a pixel.  When the component is
    not negative this is the peak extremum that the classification used. *)
Theorem fit_labeled_srcs_extended_max (fmap : Finder.ndmap) (labels inds : list nat)
    (extended_threshold : R) (k : nat) :
  let idx := nth k inds 0%nat in
  let c := Finder.measure nx at_pix fmap labels idx in
  (k < length inds)%nat ->
  (exists i0, (i0 < length fmap)%nat /\ nth i0 labels 0%nat = idx) ->
  Finder.extended extended_threshold c = true ->
  exists i,
    (i < length fmap)%nat /\ nth i labels 0%nat = idx
    /\ nth k (Finder.fit_labeled_srcs nx at_pix fmap labels inds extended_threshold)
            ((0, 0), 0)
        = (Finder.pix_of nx i, nth i fmap 0)
    /\ (forall j, (j < length fmap)%nat -> nth j labels 0%nat = idx ->
          nth j fmap 0 <= nth i fmap 0)
    /\ (Finder.negative c = false ->
        (Finder.pos_ext c, Finder.amp_ext c) = (Finder.pix_of nx i, nth i fmap 0)).
Proof.
  intros idx c Hk [i0 [Hi0 Hl0]] Hext.
  set (sel := Finder.selected fmap labels idx).
  set (r := Finder.extremum_of (fun a b => Rleb b a) sel).
  assert (Hr : In r sel /\ forall p, In p sel -> snd p <= snd r).
  { assert (Hne : In (i0, nth i0 fmap 0) sel)
      by (apply selected_spec; simpl; repeat split; assumption).
    unfold r, Finder.extremum_of. destruct sel as [|p t]; [destruct Hne|].
    destruct (extremum_max t p) as [Hin [Hle Hall]]. split.
    - destruct Hin as [->|Hin]; [now left | now right].
    - intros q [<-|Hq]; [exact Hle | now apply Hall]. }
  destruct Hr as [Hin Hmax].
  apply selected_spec in Hin. destruct Hin as [Hlt [Hval Hlab]].
  assert (Hfit : Finder.fit_component extended_threshold c
                 = (Finder.pix_of nx (fst r), nth (fst r) fmap 0)).
  { unfold Finder.fit_component. rewrite Hext. rewrite <- Hval. reflexivity. }
  exists (fst r). repeat split; try assumption.
  - unfold Finder.fit_labeled_srcs.
    rewrite (nth_indep _ _ (Finder.fit_component extended_threshold
                              (Finder.measure nx at_pix fmap labels 0%nat)))
      by (now rewrite length_map).
    rewrite (map_nth (fun idx => Finder.fit_component extended_threshold
                                   (Finder.measure nx at_pix fmap labels idx))).
    exact Hfit.
  - intros j Hj Hlj. rewrite <- Hval.
    apply (Hmax (j, nth j fmap 0)). apply selected_spec. simpl. repeat split; assumption.
  - intros Hneg. unfold Finder.pos_ext, Finder.amp_ext. rewrite Hneg.
    rewrite <- Hval. reflexivity.
Qed.

End ComponentPeak.

(** A positive component with a dip in the middle, whose maximum is tied
    between its two ends: the fit is the last pixel. *)
Lemma fit_labeled_srcs_extended_max_witness :
  exists i,
    (i < 5)%nat /\ nth i [1; 1; 1; 1; 1]%nat 0%nat = 1%nat
    /\ nth 0 (Finder.fit_labeled_srcs 5 (Finder.at_order0 5) [10; 1; 1; 1; 10]
                [1; 1; 1; 1; 1]%nat [1%nat] 1.1) ((0, 0), 0)
        = (Finder.pix_of 5 i, nth i [10; 1; 1; 1; 10] 0)
    /\ (forall j, (j < 5)%nat -> nth j [1; 1; 1; 1; 1]%nat 0%nat = 1%nat ->
          nth j [10; 1; 1; 1; 10] 0 <= nth i [10; 1; 1; 1; 10] 0)
    /\ (Finder.negative (Finder.measure 5 (Finder.at_order0 5) [10; 1; 1; 1; 10]
                          [1; 1; 1; 1; 1]%nat 1) = false ->
        (Finder.pos_ext (Finder.measure 5 (Finder.at_order0 5) [10; 1; 1; 1; 10]
                           [1; 1; 1; 1; 1]%nat 1),
         Finder.amp_ext (Finder.measure 5 (Finder.at_order0 5) [10; 1; 1; 1; 10]
                           [1; 1; 1; 1; 1]%nat 1))
        = (Finder.pix_of 5 i, nth i [10; 1; 1; 1; 10] 0)).
Proof.
  apply (fit_labeled_srcs_extended_max 5 (Finder.at_order0 5) [10; 1; 1; 1; 10]
           [1; 1; 1; 1; 1]%nat [1%nat] 1.1 0).
  - simpl. lia.
  - exists 0%nat. simpl. split; [lia | reflexivity].
  - assert (Hcom : Finder.center_of_mass 5 [10; 1; 1; 1; 10] [1; 1; 1; 1; 1]%nat 1
                   = Finder.pix_of 5 2).
    { unfold Finder.center_of_mass, Finder.pix_of; cbn. f_equal; lra. }
    assert (Hmax : Finder.extremum_of (fun a b => Rleb b a)
                     (Finder.selected [10; 1; 1; 1; 10] [1; 1; 1; 1; 1]%nat 1)
                   = (4%nat, 10)).
    { cbn. unfold Rleb. Rdecide. reflexivity. }
    unfold Finder.extended, Finder.amp_ext, Finder.negative, Finder.measure.
    cbn [Finder.amp_com Finder.amp_min Finder.amp_max nth].
    unfold Finder.ndimage_maximum.
    rewrite Hcom, Hmax, at_order0_exact by lia. cbn [nth snd].
    replace (Rltb 1 0) with false by (symmetry; apply Rltb_false; lra).
    apply Rltb_true. rewrite !Rabs_right by lra. lra.
Defined.

(** ** Correlation grouping *)

(** *** What the grouping loops guarantee, whatever [set.pop()] returns *)

Section GroupingProps.
Import Grouping.
Variable pop : list nat -> nat.
Hypothesis pop_in : forall s, s <> [] -> In (pop s) s.
Variable corr : list (list nat).

Local Abbreviation picked_apart := (Grouping.picked_apart corr).

Lemma mem_In (i : nat) (s : list nat) : mem i s = true <-> In i s.
Proof.
  unfold mem. rewrite existsb_exists. split.
  - intros [j [Hj Heq]]. apply Nat.eqb_eq in Heq. now subst.
  - intros Hi. exists i. split; [exact Hi | apply Nat.eqb_refl].
Qed.

Lemma set_diff_In (i : nat) (a b : list nat) :
  In i (set_diff a b) <-> In i a /\ ~ In i b.
Proof.
  unfold set_diff. rewrite filter_In. split; intros [Ha Hb]; split; try exact Ha.
  - intros Hin. apply mem_In in Hin. rewrite Hin in Hb. discriminate.
  - destruct (mem i b) eqn:E; [|reflexivity]. apply mem_In in E. contradiction.
Qed.

Lemma insert_nat_In (i j : nat) (l : list nat) : In i (insert_nat j l) <-> i = j \/ In i l.
Proof.
  induction l as [|k l IH]; simpl.
  - intuition.
  - destruct (j <=? k)%nat; simpl; [intuition|]. rewrite IH. intuition.
Qed.

Lemma sorted_In (i : nat) (l : list nat) : In i (sorted l) <-> In i l.
Proof.
  induction l as [|j l IH]; simpl; [reflexivity|].
  rewrite insert_nat_In, IH. intuition.
Qed.

Lemma build_group_app (fuel : nat) (candidates group : list nat) :
  build_group pop corr fuel candidates group
  = group ++ build_group pop corr fuel candidates [].
Proof.
  revert candidates group; induction fuel as [|fuel IH]; intros candidates group; simpl.
  - now rewrite app_nil_r.
  - destruct candidates as [|c cs]; [now rewrite app_nil_r|].
    rewrite IH. rewrite (IH _ [pop (c :: cs)]). now rewrite <- app_assoc.
Qed.

Lemma build_group_spec (fuel : nat) (candidates : list nat) :
  let group := build_group pop corr fuel candidates [] in
  picked_apart group /\ incl group candidates
  /\ (candidates <> [] -> fuel <> 0%nat -> In (pop candidates) group).
Proof.
  revert candidates; induction fuel as [|fuel IH]; intros candidates; simpl.
  - split; [exact I | split; [intros i [] | congruence]].
  - destruct candidates as [|c cs] eqn:E.
    + split; [exact I | split; [intros i [] | congruence]].
    + rewrite <- E. rewrite build_group_app. simpl.
      set (elem := pop candidates).
      set (rest := set_diff (remove Nat.eq_dec elem candidates) (nth elem corr [])).
      destruct (IH rest) as [Hp [Hincl _]].
      assert (Helem : In elem candidates) by (apply pop_in; rewrite E; discriminate).
      assert (Hrest : forall b, In b (build_group pop corr fuel rest []) ->
                (In b candidates /\ b <> elem) /\ ~ In b (nth elem corr [])).
      { intros b Hb. apply Hincl, set_diff_In in Hb. destruct Hb as [Hb Hn].
        split; [|exact Hn]. now apply in_remove in Hb. }
      split; [split|split].
      * intros b Hb. destruct (Hrest b Hb) as [[_ H1] H2]. now split.
      * exact Hp.
      * intros i [<-|Hi]; [exact Helem|]. now destruct (Hrest i Hi) as [[H1 _] _].
      * intros _ _. now left.
Qed.

Lemma picked_apart_pair (l : list nat) (i j : nat) :
  picked_apart l -> In i l -> In j l -> i <> j ->
  ~ In j (nth i corr []) \/ ~ In i (nth j corr []).
Proof.
  induction l as [|a t IH]; simpl; [tauto|].
  intros [Ha Ht] [<-|Hi] [<-|Hj] Hne.
  - congruence.
  - left. now apply Ha.
  - right. now apply Ha.
  - now apply IH.
Qed.

Lemma split_groups_app (fuel : nat) (remainder : list nat) (acc : list (list nat)) :
  split_groups pop corr fuel remainder acc
  = acc ++ split_groups pop corr fuel remainder [].
Proof.
  revert remainder acc; induction fuel as [|fuel IH]; intros remainder acc; simpl.
  - now rewrite app_nil_r.
  - destruct remainder as [|r rs]; [now rewrite app_nil_r|].
    rewrite IH. rewrite (IH _ [sorted _]). now rewrite <- app_assoc.
Qed.

Lemma set_diff_shorter (a b : list nat) (i : nat) :
  In i a -> In i b -> (length (set_diff a b) < length a)%nat.
Proof.
  intros Ha Hb. unfold set_diff.
  induction a as [|x a IH]; [destruct Ha|]. simpl.
  destruct Ha as [->|Ha].
  - assert (E : mem i b = true) by now apply mem_In.
    rewrite E. simpl. pose proof (filter_length_le (fun i => negb (mem i b)) a). lia.
  - specialize (IH Ha). destruct (negb (mem x b)); simpl; lia.
Qed.

Lemma split_groups_spec (fuel : nat) (remainder : list nat) :
  (length remainder <= fuel)%nat ->
  let groups := split_groups pop corr fuel remainder [] in
  (forall g, In g groups ->
     incl g remainder
     /\ forall i j, In i g -> In j g -> i <> j ->
          ~ In j (nth i corr []) \/ ~ In i (nth j corr []))
  /\ disjoint_groups groups
  /\ (forall i, In i remainder -> exists g, In g groups /\ In i g).
Proof.
  revert remainder; induction fuel as [|fuel IH]; intros remainder Hfuel; simpl.
  - destruct remainder; [|simpl in Hfuel; lia].
    split; [intros g [] | split; [exact I | intros i []]].
  - destruct remainder as [|r rs] eqn:E.
    + split; [intros g [] | split; [exact I | intros i []]].
    + rewrite <- E in *. rewrite split_groups_app. simpl.
      set (group := build_group pop corr (length remainder) remainder []).
      destruct (build_group_spec (length remainder) remainder) as [Hp [Hincl Hpop]].
      fold group in Hp, Hincl, Hpop.
      assert (Hne : remainder <> []) by (rewrite E; discriminate).
      assert (Hlen : length remainder <> 0%nat) by (rewrite E; discriminate).
      assert (Hshort : (length (set_diff remainder group) <= fuel)%nat).
      { pose proof (set_diff_shorter remainder group (pop remainder)
                      (pop_in remainder Hne) (Hpop Hne Hlen)). lia. }
      destruct (IH (set_diff remainder group) Hshort) as [Hg [Hd Hc]].
      split; [|split; [split|]].
      * intros g [<-|H]; split.
        -- intros i Hi. apply Hincl. now apply sorted_In.
        -- intros i j Hi Hj Hne'. apply (picked_apart_pair group); try assumption;
             now apply sorted_In.
        -- intros i Hi. destruct (Hg g H) as [Hsub _].
           apply Hsub, set_diff_In in Hi. tauto.
        -- apply (Hg g H).
      * intros h Hh i Hi Hih. destruct (Hg h Hh) as [Hsub _].
        apply Hsub, set_diff_In in Hih. apply (proj1 (sorted_In _ _)) in Hi. tauto.
      * exact Hd.
      * intros i Hi. destruct (in_dec Nat.eq_dec i group) as [Hin|Hout].
        -- exists (sorted group). split; [now left | now apply sorted_In].
        -- destruct (Hc i) as [g [Hg1 Hg2]]; [apply set_diff_In; tauto|].
           exists g. split; [now right | exact Hg2].
Qed.

(** The iteration bounds of the model are never reached: once they are at
    least the size of the set a loop empties, a larger bound changes
    nothing, so both loops end because their sets are empty. *)
Lemma build_group_fuel (fuel extra : nat) (candidates group : list nat) :
  (length candidates <= fuel)%nat ->
  build_group pop corr (fuel + extra) candidates group
  = build_group pop corr fuel candidates group.
Proof.
  revert candidates group; induction fuel as [|fuel IH]; intros candidates group Hlen.
  - destruct candidates; [|simpl in Hlen; lia]. destruct extra; reflexivity.
  - simpl. destruct candidates as [|c cs] eqn:E; [reflexivity|]. rewrite <- E in *.
    apply IH.
    assert (Hin : In (pop candidates) candidates) by (apply pop_in; rewrite E; discriminate).
    pose proof (remove_length_lt Nat.eq_dec candidates (pop candidates) Hin).
    pose proof (filter_length_le
                  (fun i => negb (mem i (nth (pop candidates) corr [])))
                  (remove Nat.eq_dec (pop candidates) candidates)).
    unfold set_diff. lia.
Qed.

Lemma split_groups_fuel (fuel extra : nat) (remainder : list nat) (acc : list (list nat)) :
  (length remainder <= fuel)%nat ->
  split_groups pop corr (fuel + extra) remainder acc
  = split_groups pop corr fuel remainder acc.
Proof.
  revert remainder acc; induction fuel as [|fuel IH]; intros remainder acc Hlen.
  - destruct remainder; [|simpl in Hlen; lia]. destruct extra; reflexivity.
  - simpl. destruct remainder as [|r rs] eqn:E; [reflexivity|]. rewrite <- E in *.
    apply IH.
    assert (Hne : remainder <> []) by (rewrite E; discriminate).
    assert (Hlen' : length remainder <> 0%nat) by (rewrite E; discriminate).
    destruct (build_group_spec (length remainder) remainder) as [_ [_ Hpop]].
    pose proof (set_diff_shorter remainder _ (pop remainder)
                  (pop_in remainder Hne) (Hpop Hne Hlen')).
    lia.
Qed.

End GroupingProps.

Section GroupIndependent.
Import Grouping.
Variable rewind : R -> R.
Variable pop : list nat -> nat.
Hypothesis pop_in : forall s, s <> [] -> In (pop s) s.

(** The independent groups partition the source indices: every source is
    in a group, every member of a group is a source, and no source is in
    two groups. *)
Theorem group_independent_partition (pos : list (R * R)) (corrlen : R) :
  let groups := fst (group_independent rewind pop pos corrlen) in
  (forall i, (i < length pos)%nat -> exists g, In g groups /\ In i g)
  /\ (forall g i, In g groups -> In i g -> (i < length pos)%nat)
  /\ disjoint_groups groups.
Proof.
  unfold group_independent; simpl.
  destruct (split_groups_spec pop pop_in (corr_groups rewind pos corrlen)
              (length pos) (seq 0 (length pos))) as [Hg [Hd Hc]].
  { now rewrite length_seq. }
  split; [|split].
  - intros i Hi. apply Hc. apply in_seq. lia.
  - intros g i Hin Hi. destruct (Hg g Hin) as [Hsub _].
    apply Hsub, in_seq in Hi. lia.
  - exact Hd.
Qed.

(** Of two distinct members of one independent group at least one is not
    in the neighbour set of the other; where the neighbour sets are
    symmetric, neither is. *)
Theorem group_independent_not_mutual (pos : list (R * R)) (corrlen : R) :
  let groups := fst (group_independent rewind pop pos corrlen) in
  let corr := snd (group_independent rewind pop pos corrlen) in
  (forall g i j, In g groups -> In i g -> In j g -> i <> j ->
     ~ In j (nth i corr []) \/ ~ In i (nth j corr []))
  /\ ((forall i j, In j (nth i corr []) -> In i (nth j corr [])) ->
      forall g i j, In g groups -> In i g -> In j g -> i <> j ->
        ~ In j (nth i corr []) /\ ~ In i (nth j corr [])).
Proof.
  unfold group_independent; simpl.
  destruct (split_groups_spec pop pop_in (corr_groups rewind pos corrlen)
              (length pos) (seq 0 (length pos))) as [Hg _].
  { now rewrite length_seq. }
  assert (H : forall g i j,
            In g (split_groups pop (corr_groups rewind pos corrlen) (length pos)
                    (seq 0 (length pos)) []) ->
            In i g -> In j g -> i <> j ->
            ~ In j (nth i (corr_groups rewind pos corrlen) [])
            \/ ~ In i (nth j (corr_groups rewind pos corrlen) [])).
  { intros g i j Hin. now apply (Hg g Hin). }
  split; [exact H|].
  intros Hsym g i j Hin Hi Hj Hne.
  destruct (H g i j Hin Hi Hj Hne) as [Hn|Hn]; split; auto.
Qed.

End GroupIndependent.

Lemma pop_first_in (s : list nat) : s <> [] -> In (Grouping.pop_first s) s.
Proof. destruct s; [congruence | intros _; now left]. Qed.

Lemma group_independent_partition_witness :
  let groups := fst (Grouping.group_independent rewind_principal Grouping.pop_first
                       [(PI / 3, - PI); (0, PI / 2)] 2) in
  (forall i, (i < 2)%nat -> exists g, In g groups /\ In i g)
  /\ (forall g i, In g groups -> In i g -> (i < 2)%nat)
  /\ Grouping.disjoint_groups groups.
Proof.
  apply (group_independent_partition rewind_principal Grouping.pop_first pop_first_in
           [(PI / 3, - PI); (0, PI / 2)] 2).
Defined.

Lemma group_independent_not_mutual_witness :
  let groups := fst (Grouping.group_independent rewind_principal Grouping.pop_first
                       [(PI / 3, - PI); (0, PI / 2)] 2) in
  let corr := snd (Grouping.group_independent rewind_principal Grouping.pop_first
                     [(PI / 3, - PI); (0, PI / 2)] 2) in
  (forall g i j, In g groups -> In i g -> In j g -> i <> j ->
     ~ In j (nth i corr []) \/ ~ In i (nth j corr []))
  /\ ((forall i j, In j (nth i corr []) -> In i (nth j corr [])) ->
      forall g i j, In g groups -> In i g -> In j g -> i <> j ->
        ~ In j (nth i corr []) /\ ~ In i (nth j corr [])).
Proof.
  apply (group_independent_not_mutual rewind_principal Grouping.pop_first pop_first_in
           [(PI / 3, - PI); (0, PI / 2)] 2).
Defined.


(** *** The grouping on a pair of sources across the right-ascension seam *)

Section GroupingExample.
Import Grouping.

Ltac decide_within :=
  repeat match goal with
  | |- context [within ?r ?p ?q] =>
      first [ rewrite (within_true r p q) by (simpl; nra)
            | rewrite (within_false r p q) by (simpl; nra) ]
  end.

(** A source at declination 60 degrees on the seam of right ascension and
    one on the equator a quarter turn away: the second finds the first
    (through its copy shifted by a whole turn), the first does not find the
    second. *)
Lemma corr_groups_seam :
  corr_groups rewind_principal [(PI / 3, - PI); (0, PI / 2)] 2 = [[0]; [1; 0]]%nat.
Proof.
  assert (Hlo : 3 < PI) by (pose proof PI2_3_2; lra).
  assert (Hhi : PI <= 4) by apply PI_4.
  unfold corr_groups. cbn [map fst snd length app].
  rewrite !rewind_principal_id by lra.
  unfold scaled, shifted, query_ball_tree. cbn [map fst snd length seq nth filter].
  rewrite cos_PI3, cos_0.
  decide_within. reflexivity.
Qed.

Lemma group_independent_seam :
  group_independent rewind_principal pop_first [(PI / 3, - PI); (0, PI / 2)] 2
  = ([[0; 1]], [[0]; [1; 0]])%nat.
Proof. unfold group_independent. rewrite corr_groups_seam. reflexivity. Qed.

(** C2 at the seam pair: with the smallest candidate popped first, the two
    sources end up in one independent group although the first is in the
    correlated-neighbour set of the second. *)
Theorem group_independent_seam_group :
  let r := group_independent rewind_principal pop_first [(PI / 3, - PI); (0, PI / 2)] 2 in
  fst r = [[0; 1]]%nat /\ In 0%nat (nth 1 (snd r) []).
Proof. rewrite group_independent_seam. simpl. split; [reflexivity | now right; left]. Qed.

(** C3 at the seam pair: source 0 is in the correlated-neighbour set of
    source 1 (through the copy shifted by a whole turn), and source 1 is
    not in the set of source 0. *)
Theorem corr_groups_seam_asymmetric :
  let corr := snd (group_independent rewind_principal pop_first
                     [(PI / 3, - PI); (0, PI / 2)] 2) in
  In 0%nat (nth 1 corr []) /\ ~ In 1%nat (nth 0 corr []).
Proof.
  rewrite group_independent_seam. simpl. split; [now right; left|].
  intros [H|[]]. discriminate.
Qed.

End GroupingExample.

(** ** Joint amplitude fitter *)


Section FitterProps.
Import Num.
Variables ny nx : nat.
Variable sky2pix : R * R -> R * R.
Variable apod_edges : Fitter.ndmap -> R -> Fitter.ndmap.
Variable distance_transform_edt : list bool -> list R.
Variable fit_passes :
  list num -> Fitter.ndmap -> list num -> list (R * R) -> list nat -> Fitter.outcome.

(** For a radius that is not zero the apodization around holes is finite. *)
Lemma apod_hole_finite (pixrad d : R) :
  pixrad <> 0 ->
  Fitter.apod_hole pixrad d = Fin (0.5 * (1 - cos (PI * Rmin 1 (d / pixrad)))).
Proof.
  intros Hp. unfold Fitter.apod_hole. cbn [ndiv].
  destruct (Req_dec_T pixrad 0) as [E|_]; [contradiction|].
  cbn [nmin2 nleb]. unfold Rleb, Rmin.
  destruct (Rle_dec 1 (d / pixrad)); cbn [nmul ncos nopp nadd]; f_equal; ring.
Qed.

(** C7: when the apodized inverse-variance weights sum to zero,
    [fit_src_amps] returns (it does not raise, whatever the later passes
    would do) the surviving indices with all-zero amplitudes, an all-zero
    inverse covariance and all-zero local amplitudes, one per survivor. *)
Theorem fit_src_amps_empty_area (imap idiv : Fitter.ndmap) (src_pos : list (R * R))
    (apod apod_margin : R) :
  nsum (map2 nmul (map Fin idiv)
          (map (fun a => nmul a a)
               (Fitter.apod_map_of apod_edges distance_transform_edt idiv apod))) = Fin 0 ->
  let fit_inds :=
    Fitter.where_inside ny nx (apod + apod_margin) (map sky2pix src_pos) in
  let nsrc := length fit_inds in
  Fitter.fit_src_amps ny nx sky2pix apod_edges distance_transform_edt fit_passes
    imap idiv src_pos apod apod_margin
  = Fitter.Returns (fit_inds, Fitter.zeros nsrc, Fitter.zeros2 nsrc nsrc, Fitter.zeros nsrc).
Proof.
  intros Hsum fit_inds nsrc. unfold Fitter.fit_src_amps.
  fold fit_inds. unfold Fitter.take. rewrite length_map. fold nsrc.
  destruct (nsrc =? 0)%nat eqn:E.
  - apply Nat.eqb_eq in E. rewrite E. reflexivity.
  - rewrite Hsum. unfold Fitter.is_zero.
    destruct (Req_dec_T 0 0) as [_|Hne]; [reflexivity | contradiction].
Qed.

End FitterProps.

(** The precondition holds on a 3x3 map that was never hit, for an
    apodization of one pixel and a source on the central pixel. *)
Lemma fit_src_amps_empty_area_witness :
  Fitter.fit_src_amps 3 3 (fun p => p) (fun m _ => m)
    (fun mask => map (fun b : bool => if b then 1 else 0) mask)
    (fun _ _ _ _ _ => Fitter.Raises)
    [5; 5; 5; 5; 5; 5; 5; 5; 5] [0; 0; 0; 0; 0; 0; 0; 0; 0] [(1, 1)] 1 0
  = Fitter.Returns ([0%nat], [0], [[0]], [0]).
Proof.
  assert (H : Fitter.where_inside 3 3 (1 + 0) (map (fun p : R * R => p) [(1, 1)]) = [0%nat]).
  { unfold Fitter.where_inside, Fitter.inside; cbn. unfold Rleb, Rltb. Rdecide. reflexivity. }
  pose proof (fit_src_amps_empty_area 3 3 (fun p => p) (fun m _ => m)
                (fun mask => map (fun b : bool => if b then 1 else 0) mask)
                (fun _ _ _ _ _ => Fitter.Raises)
                [5; 5; 5; 5; 5; 5; 5; 5; 5] [0; 0; 0; 0; 0; 0; 0; 0; 0] [(1, 1)] 1 0) as T.
  cbv zeta in T. rewrite H in T. apply T.
  unfold Fitter.apod_map_of, Fitter.get_apod_holes. cbn [map].
  rewrite !apod_hole_finite by lra.
  cbn [map map2 Num.nmul Num.nsum fold_right Num.nadd]. f_equal. ring.
Defined.

(** ** Duplicate resolver *)


(** *** Properties of the duplicate resolver *)

Section MergeProps.
Import Num Merge.

Lemma nth_map_in {A B : Type} (f : A -> B) (l : list A) (i : nat) (d : B) (d' : A) :
  (i < length l)%nat -> nth i (map f l) d = f (nth i l d').
Proof.
  intros Hi. rewrite (nth_indep (map f l) d (f d')) by (now rewrite length_map).
  apply map_nth.
Qed.

Lemma nth_mark_from (g : list nat) (d : list bool) (s i : nat) :
  nth i (map (fun p => existsb (Nat.eqb (fst p)) g || snd p)
             (combine (seq s (length d)) d)) false
  = (existsb (Nat.eqb (s + i)) g && (i <? length d)%nat) || nth i d false.
Proof.
  revert s i; induction d as [|b d IH]; intros s i; simpl.
  - destruct i; now rewrite andb_false_r.
  - destruct i as [|i]; simpl.
    + now rewrite Nat.add_0_r, andb_true_r.
    + rewrite IH. now rewrite Nat.add_succ_r.
Qed.

Lemma nth_mark (done : list bool) (g : list nat) (i : nat) :
  nth i (mark done g) false
  = (existsb (Nat.eqb i) g && (i <? length done)%nat) || nth i done false.
Proof. unfold mark. now rewrite nth_mark_from. Qed.



Lemma near_refl (r x y : R) : near r (Fin x, Fin y) (Fin x, Fin y) = true.
Proof. simpl. apply within_refl. Qed.

Lemma near_sym (r : R) (p q : num * num) : near r p q = near r q p.
Proof.
  destruct p as [[px| | |] [py| | |]], q as [[qx| | |] [qy| | |]]; simpl;
    try reflexivity. apply within_sym.
Qed.

Lemma near_finite (r : R) (p q : num * num) :
  near r p q = true -> finite_point p = true /\ finite_point q = true.
Proof.
  destruct p as [[px| | |] [py| | |]], q as [[qx| | |] [qy| | |]]; simpl;
    try discriminate. now split.
Qed.

Lemma count_mono (a b : list bool) :
  length a = length b ->
  (forall i, nth i a false = true -> nth i b false = true) ->
  (length (filter (fun x => x) a) <= length (filter (fun x => x) b))%nat
  /\ ((exists i, nth i a false = false /\ nth i b false = true) ->
      (length (filter (fun x => x) a) < length (filter (fun x => x) b))%nat).
Proof.
  revert b; induction a as [|x a IH]; intros [|y b] Hl Hm; simpl in *; try discriminate.
  - split; [lia|]. intros [[|i] [_ H]]; discriminate.
  - destruct (IH b ltac:(lia) (fun i => Hm (S i))) as [Hle Hlt].
    pose proof (Hm 0%nat) as H0. simpl in H0.
    destruct x, y; simpl.
    + split; [lia|]. intros [[|i] [H1 H2]]; simpl in *; [discriminate|].
      assert (length (filter (fun x => x) a) < length (filter (fun x => x) b))%nat
        by (apply Hlt; eauto). lia.
    + specialize (H0 eq_refl). discriminate.
    + split; intros; lia.
    + split; [lia|]. intros [[|i] [H1 H2]]; simpl in *; [discriminate|].
      apply Hlt. eauto.
Qed.

Lemma mark_length (done : list bool) (g : list nat) : length (mark done g) = length done.
Proof. unfold mark. rewrite length_map, length_combine, length_seq. lia. Qed.

Lemma mark_counts (done : list bool) (g : list nat) (i : nat) :
  In i g -> (i < length done)%nat -> nth i done false = false ->
  (length (filter (fun x => x) done) < length (filter (fun x => x) (mark done g)))%nat.
Proof.
  intros Hi Hlt Hd.
  apply (count_mono done (mark done g)).
  - now rewrite mark_length.
  - intros j Hj. rewrite nth_mark, Hj. apply orb_true_r.
  - exists i. split; [exact Hd|]. rewrite nth_mark.
    replace (existsb (Nat.eqb i) g) with true.
    + now rewrite (proj2 (Nat.ltb_lt _ _) Hlt).
    + symmetry. apply existsb_exists. exists i. split; [exact Hi | apply Nat.eqb_refl].
Qed.

Lemma merge_step_counts (cat : list entry) (alim : R) (st : list bool * list entry)
    (g : list nat) :
  (forall i, In i g -> (i < length (fst st))%nat) ->
  (length (snd st) <= length (filter (fun x => x) (fst st)))%nat ->
  let st' := merge_step cat alim st g in
  length (fst st') = length (fst st)
  /\ (length (snd st') <= length (filter (fun x => x) (fst st')))%nat.
Proof.
  intros Hg Hinv. unfold merge_step.
  destruct (filter (fun i => negb (nth i (fst st) false)) g) as [|i live] eqn:El;
    [now split|].
  assert (Hi : In i g /\ nth i (fst st) false = false).
  { assert (H : In i (filter (fun i => negb (nth i (fst st) false)) g))
      by (rewrite El; now left).
    apply filter_In in H. destruct H as [H1 H2]. split; [exact H1|].
    now apply negb_true_iff in H2. }
  destruct Hi as [Hig Hid].
  destruct live as [|j live].
  - cbn [fst snd]. split; [apply mark_length|].
    rewrite length_app. simpl.
    pose proof (mark_counts (fst st) [i] i (or_introl eq_refl) (Hg i Hig) Hid). lia.
  - match goal with |- context [match ?good with [] => _ | _ => _ end] =>
      destruct good end; [now split|].
    cbn [fst snd]. split; [apply mark_length|].
    rewrite length_app. simpl.
    pose proof (mark_counts (fst st) (i :: j :: live) i (or_introl eq_refl) (Hg i Hig) Hid).
    lia.
Qed.

Section Rewind.
Variable rewind : R -> R.

Lemma position_finite (e : entry) :
  is_finite (ra e) = true -> is_finite (dec e) = true ->
  exists x y, position (rewound rewind e) = (Fin x, Fin y).
Proof.
  unfold position; simpl. destruct (ra e), (dec e); try discriminate.
  intros _ _. simpl. eauto.
Qed.

(** The groups of a duplicate-free catalog are the singletons, in order. *)
Lemma positions_finite (cat : list entry) :
  (forall e, In e cat -> is_finite (ra e) = true /\ is_finite (dec e) = true) ->
  forallb finite_point (map position (map (rewound rewind) cat)) = true.
Proof.
  intros Hfin. apply forallb_forall. intros p Hp.
  rewrite map_map in Hp. apply in_map_iff in Hp. destruct Hp as [e [<- He]].
  destruct (Hfin e He) as [Ha Hd].
  destruct (position_finite e Ha Hd) as [x [y ->]]. reflexivity.
Qed.

(** The tree is built whenever the positions are finite. *)
Lemma cKDTree_finite (cat : list entry) :
  (forall e, In e cat -> is_finite (ra e) = true /\ is_finite (dec e) = true) ->
  cKDTree (map position (map (rewound rewind) cat))
  = Py.Ok (map position (map (rewound rewind) cat)).
Proof. intros Hfin. unfold cKDTree. now rewrite positions_finite. Qed.




Lemma nmax2_same (a : num) : nmax2 a a = a.
Proof. destruct a; simpl; try reflexivity. now destruct (Rleb x x). Qed.

Lemma n_max_nan (l : list num) : fold_left nmax2 l NaN = NaN.
Proof. induction l as [|a l IH]; simpl; [reflexivity | exact IH]. Qed.

(** A live group of two or more entries whose amplitudes are all NaN is
    skipped: nothing is appended and nothing is marked as done. *)
Lemma merge_step_nan_group (cat : list entry) (alim : R)
    (st : list bool * list entry) (group : list nat) :
  let live := filter (fun i => negb (nth i (fst st) false)) group in
  (2 <= length live)%nat ->
  (forall i, In i live -> c0 (amp (nth i cat zero_entry)) = NaN) ->
  merge_step cat alim st group = st.
Proof.
  intros live Hlen Hnan. unfold merge_step. fold live.
  destruct live as [|a [|b rest]] eqn:E; simpl in Hlen; try lia.
  set (amps := map (fun i => c0 (amp (nth i cat zero_entry))) (a :: b :: rest)).
  assert (Hamps : forall k, nth k amps NaN = NaN).
  { intros k. destruct (Nat.lt_ge_cases k (length (a :: b :: rest))) as [Hk|Hk].
    - unfold amps. rewrite (nth_map_in _ _ _ _ 0%nat) by exact Hk.
      apply Hnan, nth_In, Hk.
    - apply nth_overflow. unfold amps. now rewrite length_map. }
  assert (Hmax : n_max (map nabs amps) = NaN).
  { unfold amps; simpl. rewrite (Hnan a) by (left; reflexivity). simpl. apply n_max_nan. }
  rewrite Hmax. simpl nmul.
  assert (Hgood : forall l, filter (fun k => nleb NaN (nabs (nth k amps NaN))) l = []).
  { induction l as [|k l IH]; simpl; [reflexivity | exact IH]. }
  now rewrite Hgood.
Qed.

Lemma filter_all {A : Type} (f : A -> bool) (l : list A) :
  (forall x, In x l -> f x = true) -> filter f l = l.
Proof.
  induction l as [|x l IH]; intros H; simpl; [reflexivity|].
  rewrite (H x) by now left. f_equal. apply IH. intros y Hy. apply H. now right.
Qed.

(** The marks outside a group are left as they are by its iteration. *)
Lemma merge_step_outside (cat : list entry) (alim : R) (st : list bool * list entry)
    (g : list nat) (s : nat) :
  ~ In s g -> nth s (fst (merge_step cat alim st g)) false = nth s (fst st) false.
Proof.
  intros Hs. unfold merge_step.
  set (live := filter (fun i => negb (nth i (fst st) false)) g).
  assert (Hlive : forall i, In i live -> In i g).
  { intros i Hi. unfold live in Hi. now apply filter_In in Hi. }
  assert (Hout : forall l, (forall i, In i l -> In i live) ->
            nth s (mark (fst st) l) false = nth s (fst st) false).
  { intros l Hl. rewrite nth_mark.
    replace (existsb (Nat.eqb s) l) with false; [reflexivity|].
    symmetry. apply not_true_is_false. intros H.
    apply existsb_exists in H. destruct H as [i [Hi Heq]].
    apply Nat.eqb_eq in Heq. subst i. apply Hs, Hlive, Hl, Hi. }
  destruct live as [|i [|j rest]] eqn:El; [reflexivity | |].
  - cbn [fst]. apply Hout. intros k [<-|[]]. now left.
  - match goal with |- context [match ?good with [] => _ | _ => _ end] =>
      destruct good end; [reflexivity|].
    cbn [fst]. apply Hout. intros k Hk. exact Hk.
Qed.

(** Entries that are not marked leave room in the count of the marks. *)
Lemma free_marks (nans : list nat) (done : list bool) :
  NoDup nans ->
  (forall s, In s nans -> (s < length done)%nat /\ nth s done false = false) ->
  (length (filter (fun x => x) done) + length nans <= length done)%nat.
Proof.
  revert done; induction nans as [|s nans IH]; intros done Hnd HS.
  - simpl. pose proof (filter_length_le (fun x : bool => x) done). lia.
  - inversion Hnd as [|? ? Hs HndS]; subst.
    destruct (HS s (or_introl eq_refl)) as [Hlt Hfree].
    pose proof (mark_counts done [s] s (or_introl eq_refl) Hlt Hfree) as Hc.
    assert (H : (length (filter (fun x => x) (mark done [s])) + length nans
                 <= length (mark done [s]))%nat).
    { apply IH; [exact HndS|]. intros s' Hs'.
      rewrite mark_length. destruct (HS s' (or_intror Hs')) as [Hlt' Hfree'].
      split; [exact Hlt'|]. rewrite nth_mark, Hfree'. simpl.
      destruct (Nat.eqb_spec s' s) as [->|_]; [contradiction | reflexivity]. }
    rewrite mark_length in H. simpl. lia.
Qed.

Lemma two_members (g : list nat) (a b : nat) :
  NoDup g -> In a g -> In b g -> a <> b -> (2 <= length g)%nat.
Proof.
  intros Hnd Ha Hb Hab.
  assert (H : (length [a; b] <= length g)%nat).
  { apply NoDup_incl_length.
    - constructor; [intros [H|[]]; now apply Hab | constructor; [intros [] | constructor]].
    - intros x [<-|[<-|[]]]; assumption. }
  exact H.
Qed.

(** The groups of a catalog: the group of entry [gi] holds the entries
    within the radius of it. *)
Lemma groups_of_catalog (cat : list entry) (rlim : R) (g : list nat) :
  let pos := fun i => position (rewound rewind (nth i cat zero_entry)) in
  In g (query_ball_tree (map position (map (rewound rewind) cat))
          (map position (map (rewound rewind) cat)) rlim) ->
  NoDup g
  /\ exists gi, (gi < length cat)%nat
       /\ forall j, In j g <-> (j < length cat)%nat /\ near rlim (pos gi) (pos j) = true.
Proof.
  intros pos Hg. unfold query_ball_tree in Hg.
  set (ps := map position (map (rewound rewind) cat)) in *.
  assert (Hlps : length ps = length cat) by (unfold ps; now rewrite !length_map).
  assert (Hps : forall i, (i < length cat)%nat -> nth i ps (NaN, NaN) = pos i).
  { intros i Hi. unfold ps, pos. rewrite map_map.
    now apply (nth_map_in (fun e => position (rewound rewind e))). }
  apply in_map_iff in Hg. destruct Hg as [p [<- Hp]].
  split; [apply NoDup_filter, seq_NoDup|].
  destruct (In_nth ps p (NaN, NaN) Hp) as [gi [Hgi <-]].
  rewrite Hlps in Hgi. exists gi. split; [exact Hgi|].
  intros j. rewrite filter_In, in_seq, Hlps. split.
  - intros [Hj Hn]. split; [lia|]. rewrite !Hps in Hn by lia. exact Hn.
  - intros [Hj Hn]. split; [lia|]. now rewrite !Hps by lia.
Qed.

Section NanGroups.
Variables (cat : list entry) (rlim alim : R) (nans : list nat).

Let n := length cat.
Let rcat := map (rewound rewind) cat.
Let pos := fun i => position (rewound rewind (nth i cat zero_entry)).

Hypothesis positions_ok :
  forall e, In e cat -> is_finite (ra e) = true /\ is_finite (dec e) = true.
Hypothesis closed_nan :
  forall i, In i nans ->
    (i < n)%nat
    /\ c0 (amp (nth i cat zero_entry)) = NaN
    /\ (exists j, (j < n)%nat /\ j <> i /\ near rlim (pos i) (pos j) = true)
    /\ (forall j, (j < n)%nat -> near rlim (pos i) (pos j) = true -> In j nans).

(** What every iteration of the loop keeps: no member of [nans] is marked,
    and the entries collected so far do not outnumber the marks. *)
Let kept (st : list bool * list entry) : Prop :=
  length (fst st) = n
  /\ (forall s, In s nans -> nth s (fst st) false = false)
  /\ (length (snd st) <= length (filter (fun x => x) (fst st)))%nat.

Lemma nan_step (st : list bool * list entry) (g : list nat) :
  kept st ->
  In g (query_ball_tree (map position rcat) (map position rcat) rlim) ->
  kept (merge_step rcat alim st g).
Proof.
  intros [Hl [Hfree Hc]] Hg.
  destruct (groups_of_catalog cat rlim g Hg) as [Hnd [gi [Hgi Hmem]]].
  fold pos in Hmem. fold n in Hgi, Hmem.
  assert (Hrange : forall i, In i g -> (i < length (fst st))%nat).
  { intros i Hi. rewrite Hl. now apply Hmem. }
  destruct (Exists_dec (fun j => In j nans) g (fun j => in_dec Nat.eq_dec j nans)) as [Hex|Hno].
  - (* the group reaches [nans]: it lies inside it and is skipped *)
    apply Exists_exists in Hex. destruct Hex as [s [Hsg HsS]].
    apply Hmem in Hsg. destruct Hsg as [Hsn Hnear].
    destruct (closed_nan s HsS) as [_ [_ [_ Hclosed]]].
    assert (HgiS : In gi nans) by (apply Hclosed; [exact Hgi | now rewrite near_sym]).
    destruct (closed_nan gi HgiS) as [_ [_ [[j0 [Hj0 [Hne Hn0]]] Hcl]]].
    assert (Hin : forall i, In i g -> In i nans).
    { intros i Hi. apply Hmem in Hi. destruct Hi as [Hi Hn]. now apply Hcl. }
    assert (Hself : In gi g).
    { apply Hmem. split; [exact Hgi|]. unfold pos.
      destruct (positions_ok (nth gi cat zero_entry) (nth_In _ _ Hgi)) as [F1 F2].
      destruct (position_finite _ F1 F2) as [x [y ->]]. apply near_refl. }
    assert (Hother : In j0 g) by (apply Hmem; now split).
    assert (Hlive : filter (fun i => negb (nth i (fst st) false)) g = g).
    { apply filter_all. intros i Hi. now rewrite (Hfree i (Hin i Hi)). }
    rewrite merge_step_nan_group.
    + now repeat split.
    + cbv zeta. rewrite Hlive. exact (two_members g gi j0 Hnd Hself Hother (not_eq_sym Hne)).
    + cbv zeta. rewrite Hlive. intros i Hi.
      destruct (closed_nan i (Hin i Hi)) as [Hi_n [Hnan _]].
      unfold rcat. rewrite (nth_map_in (rewound rewind) cat i zero_entry zero_entry) by exact Hi_n.
      exact Hnan.
  - (* the group misses [nans]: its marks fall outside it *)
    destruct (merge_step_counts rcat alim st g Hrange Hc) as [H1 H2].
    split; [now rewrite H1|]. split; [|exact H2].
    intros s Hs. rewrite merge_step_outside; [now apply Hfree|].
    intros Hsg. apply Hno, Exists_exists. now exists s.
Qed.

Lemma nan_loop (groups : list (list nat)) (st : list bool * list entry) :
  (forall g, In g groups ->
     In g (query_ball_tree (map position rcat) (map position rcat) rlim)) ->
  kept st -> kept (fold_left (merge_step rcat alim) groups st).
Proof.
  revert st; induction groups as [|g groups IH]; intros st Hg Hk; simpl; [exact Hk|].
  apply IH; [intros g' Hg'; apply Hg; now right|].
  apply nan_step; [exact Hk | apply Hg; now left].
Qed.

Lemma nan_final :
  kept (fold_left (merge_step rcat alim)
          (query_ball_tree (map position rcat) (map position rcat) rlim)
          (repeat false (length rcat), [])).
Proof.
  apply nan_loop; [intros g Hg; exact Hg|].
  unfold kept, rcat. cbn [fst snd]. rewrite length_map, repeat_length.
  repeat split; [|simpl; lia].
  intros s _. destruct (Nat.lt_ge_cases s n) as [Hs|Hs].
  - now apply nth_repeat_lt.
  - apply nth_overflow. now rewrite repeat_length.
Qed.

End NanGroups.

(** C10 (as amended): an iteration that reaches a group of two or more
    entries, not yet done, whose amplitudes are all NaN leaves the state as
    it is: nothing is appended, nothing is marked.  Consequently, in any
    catalog with finite positions, a set [nans] of entries with NaN
    amplitudes that is closed under the neighbourhood (every entry within
    the radius of a member is a member, and every member has another one
    within the radius) is dropped: the call returns, no member of [nans] is
    ever marked as done (so none is kept and none enters a merged entry),
    and the output has at most [len(cat) - len(nans)] entries. *)
Theorem merge_duplicates_nan_groups (cat : list entry) (rlim alim : R) (nans : list nat) :
  let pos := fun i => position (rewound rewind (nth i cat zero_entry)) in
  (forall e, In e cat -> is_finite (ra e) = true /\ is_finite (dec e) = true) ->
  NoDup nans ->
  (forall i, In i nans ->
     (i < length cat)%nat
     /\ c0 (amp (nth i cat zero_entry)) = NaN
     /\ (exists j, (j < length cat)%nat /\ j <> i /\ near rlim (pos i) (pos j) = true)
     /\ (forall j, (j < length cat)%nat -> near rlim (pos i) (pos j) = true -> In j nans)) ->
  (forall st group,
     let live := filter (fun i => negb (nth i (fst st) false)) group in
     (2 <= length live)%nat ->
     (forall i, In i live -> c0 (amp (nth i (map (rewound rewind) cat) zero_entry)) = NaN) ->
     merge_step (map (rewound rewind) cat) alim st group = st)
  /\ exists out,
       merge_duplicates rewind cat rlim alim = Py.Ok out
       /\ (forall i, In i nans -> nth i (done_marks rewind cat rlim alim) false = false)
       /\ (length out + length nans <= length cat)%nat.
Proof.
  intros pos Hfin Hnd HS. split.
  { intros st group. apply merge_step_nan_group. }
  destruct (nan_final cat rlim alim nans Hfin HS) as [Hl [Hfree Hc]].
  unfold merge_duplicates, done_marks.
  destruct cat as [|e0 cat0] eqn:Ecat.
  - exists []. split; [reflexivity|]. split.
    + intros i Hi. destruct (HS i Hi) as [Hlt _]. simpl in Hlt. lia.
    + destruct nans as [|s nans']; [simpl; lia|].
      destruct (HS s (or_introl eq_refl)) as [Hlt _]. simpl in Hlt. lia.
  - rewrite <- Ecat in *.
    rewrite cKDTree_finite by exact Hfin. cbn [Py.bind].
    eexists. split; [reflexivity|]. split; [exact Hfree|].
    pose proof (free_marks nans _ Hnd
                  (fun s Hs => conj (eq_ind_r (fun k => (s < k)%nat)
                                       (proj1 (HS s Hs)) Hl) (Hfree s Hs))) as Hroom.
    rewrite Hl in Hroom. lia.
Qed.

End Rewind.
End MergeProps.

(** *** The duplicate resolver on concrete catalogs *)

Section MergeExamples.
Import Num Merge.

Ltac decide_near :=
  repeat match goal with
  | |- context [within ?r ?p ?q] =>
      first [ rewrite (within_true r p q) by (unfold arcmin; simpl; nra)
            | rewrite (within_false r p q) by (unfold arcmin; simpl; nra) ]
  end.

Lemma arcmin_pos : 0 <= arcmin.
Proof. unfold arcmin. assert (Hpi := PI_RGT_0). lra. Qed.


Lemma position_source (rewind : R -> R) (r d : R) (a da f df : num) :
  position (rewound rewind (source (Fin r) (Fin d) a da f df))
  = (Fin (rewind r * cos d), Fin d).
Proof. reflexivity. Qed.

Lemma rewound_id (r : R) (d a da f df : num) :
  - PI <= r < PI ->
  rewound rewind_principal (source (Fin r) d a da f df) = source (Fin r) d a da f df.
Proof. intros Hr. unfold rewound, set_ra, source; simpl. now rewrite rewind_principal_id. Qed.



(** Two entries at one position are each other's neighbours. *)
Lemma groups_of_pair (rewind : R -> R) (r d : R) (a1 a2 da1 da2 f1 f2 df1 df2 : num) :
  let cat := [source (Fin r) (Fin d) a1 da1 f1 df1; source (Fin r) (Fin d) a2 da2 f2 df2] in
  query_ball_tree (map position (map (rewound rewind) cat))
                  (map position (map (rewound rewind) cat)) arcmin
  = [[0; 1]; [0; 1]]%nat.
Proof.
  intros cat. unfold cat, query_ball_tree.
  cbn [map length seq filter nth]. rewrite !position_source.
  rewrite !near_refl. reflexivity.
Qed.

(** Two sources at one position, both with NaN amplitudes. *)
Lemma merge_duplicates_nan_groups_witness :
  let cat := [source (Fin 0) (Fin 0) NaN (Fin 1) NaN (Fin 1);
              source (Fin 0) (Fin 0) NaN (Fin 2) NaN (Fin 2)] in
  (forall st group,
     let live := filter (fun i => negb (nth i (fst st) false)) group in
     (2 <= length live)%nat ->
     (forall i, In i live ->
        c0 (amp (nth i (map (rewound rewind_principal) cat) zero_entry)) = NaN) ->
     merge_step (map (rewound rewind_principal) cat) 0.25 st group = st)
  /\ exists out,
       merge_duplicates rewind_principal cat arcmin 0.25 = Py.Ok out
       /\ (forall i, In i [0; 1]%nat ->
             nth i (done_marks rewind_principal cat arcmin 0.25) false = false)
       /\ (length out + length [0; 1]%nat <= length cat)%nat.
Proof.
  intros cat.
  apply (merge_duplicates_nan_groups rewind_principal cat arcmin 0.25 [0; 1]%nat).
  - intros e [<-|[<-|[]]]; split; reflexivity.
  - repeat constructor; simpl; intuition congruence.
  - intros i [<-|[<-|[]]]; (split; [simpl; lia|]); (split; [reflexivity|]); split.
    + exists 1%nat. repeat split; [simpl; lia | congruence |].
      cbn [nth cat]. rewrite !position_source. apply near_refl.
    + intros [|[|j]] Hj _; simpl in Hj; try lia; simpl; auto.
    + exists 0%nat. repeat split; [simpl; lia | congruence |].
      cbn [nth cat]. rewrite !position_source. apply near_refl.
    + intros [|[|j]] Hj _; simpl in Hj; try lia; simpl; auto.
Defined.

(** C10 (as stated) fails.  Four sources in a row, 0.9 arc minutes from one
    to the next: [p] at 0 and [j] at 0.9 with amplitude 10, [i] at 1.8 and
    [m] at 2.7 with NaN amplitudes, given in the order [p, i, j, m].  The
    first iteration merges [p] and [j]; the second one reaches the group
    [i, m] (two entries, both amplitudes NaN) and skips it; but the third
    then finds [i] alone in the group of [j], and the fourth [m] alone in
    its own group: both entries of the skipped group are in the returned
    catalog. *)
Theorem merge_duplicates_nan_group_kept :
  let p := source (Fin 0) (Fin 0) (Fin 10) (Fin 1) (Fin 10) (Fin 1) in
  let i := source (Fin (1.8 * arcmin)) (Fin 0) NaN (Fin 1) NaN (Fin 1) in
  let j := source (Fin (0.9 * arcmin)) (Fin 0) (Fin 10) (Fin 1) (Fin 10) (Fin 1) in
  let m := source (Fin (2.7 * arcmin)) (Fin 0) NaN (Fin 1) NaN (Fin 1) in
  let cat := [p; i; j; m] in
  let rcat := map (rewound rewind_principal) cat in
  query_ball_tree (map position rcat) (map position rcat) arcmin
  = [[0; 2]; [1; 2; 3]; [0; 1; 2]; [1; 3]]%nat
  /\ (let st := merge_step rcat 0.25 (repeat false 4, []) [0; 2]%nat in
      filter (fun k => negb (nth k (fst st) false)) [1; 2; 3]%nat = [1; 3]%nat
      /\ merge_step rcat 0.25 st [1; 2; 3]%nat = st)
  /\ exists e, merge_duplicates rewind_principal cat arcmin 0.25 = Py.Ok [e; i; m].
Proof.
  intros p i j m cat rcat.
  assert (Hpi := PI_RGT_0).
  assert (Hrcat : rcat = cat).
  { unfold rcat, cat, p, i, j, m. cbn [map].
    rewrite !rewound_id by (unfold arcmin; lra). reflexivity. }
  assert (Hgroups : query_ball_tree (map position rcat) (map position rcat) arcmin
                    = [[0; 2]; [1; 2; 3]; [0; 1; 2]; [1; 3]]%nat).
  { unfold rcat, cat, p, i, j, m, query_ball_tree.
    cbn [map length seq filter nth]. rewrite !position_source. cbn [near].
    rewrite !rewind_principal_id by (unfold arcmin; lra). rewrite cos_0.
    decide_near. reflexivity. }
  assert (H0 : merge_step cat 0.25 (repeat false 4, []) [0; 2]%nat
               = ([true; false; true; false], [merge_entry [p; j]])).
  { unfold merge_step, cat, p, i, j, m.
    cbn [repeat fst snd filter nth negb map length seq source amp c0 nabs n_max fold_left].
    rewrite nmax2_same. cbn [nmul nleb].
    rewrite Rabs_right by lra.
    replace (Rleb (10 * (1 - 0.25)) 10) with true by (symmetry; apply Rleb_true; lra).
    reflexivity. }
  assert (H1 : merge_step cat 0.25 ([true; false; true; false], [merge_entry [p; j]])
                 [1; 2; 3]%nat
               = ([true; false; true; false], [merge_entry [p; j]])).
  { apply merge_step_nan_group.
    - simpl. lia.
    - intros k [<-|[<-|[]]]; reflexivity. }
  split; [exact Hgroups|]. split.
  - rewrite Hrcat, H0. split; [reflexivity | exact H1].
  - exists (merge_entry [p; j]).
    unfold merge_duplicates. fold cat. fold rcat.
    assert (Hfin : cKDTree (map position rcat) = Py.Ok (map position rcat)).
    { apply cKDTree_finite. intros e [<-|[<-|[<-|[<-|[]]]]]; split; reflexivity. }
    unfold cat at 1. rewrite Hfin. cbn [Py.bind]. rewrite Hgroups, Hrcat.
    cbn [fold_left length]. change (repeat false 4) with (repeat false (length cat)) in H0.
    cbn [length cat] in H0 |- *.
    rewrite H0, H1. reflexivity.
Qed.

End MergeExamples.

Section MergeDflux.
Import Num Merge.

Lemma rewound_at_0 (d a da f df : num) :
  rewound rewind_principal (source (Fin 0) d a da f df) = source (Fin 0) d a da f df.
Proof. unfold rewound, set_ra, source; simpl. now rewrite rewind_principal_0. Qed.

(** C6 at two duplicates of equal amplitude 10 whose uncertainties are 1
    and 2 (amplitude and flux alike): the merged amplitude uncertainty is
    the minimum 1, while the merged flux uncertainty is the weighted mean
    (1*1 + 2/4) / (1 + 1/4) = 1.2, not the minimum 1. *)
Theorem merge_duplicates_dflux_weighted_mean :
  let cat := [source (Fin 0) (Fin 0) (Fin 10) (Fin 1) (Fin 10) (Fin 1);
              source (Fin 0) (Fin 0) (Fin 10) (Fin 2) (Fin 10) (Fin 2)] in
  exists e,
    merge_duplicates rewind_principal cat arcmin 0.25 = Py.Ok [e]
    /\ damp e = (Fin 1, Fin 1, Fin 1)
    /\ dflux e = (Fin 1.2, Fin 1.2, Fin 1.2)
    /\ min_vec (map dflux cat) = (Fin 1, Fin 1, Fin 1).
Proof.
  intros cat. unfold merge_duplicates, cat.
  rewrite cKDTree_finite by (intros e [<-|[<-|[]]]; split; reflexivity).
  cbn [Py.bind]. rewrite groups_of_pair.
  cbn [map length repeat fold_left]. rewrite !rewound_at_0.
  assert (Hstep : merge_step
            [source (Fin 0) (Fin 0) (Fin 10) (Fin 1) (Fin 10) (Fin 1);
             source (Fin 0) (Fin 0) (Fin 10) (Fin 2) (Fin 10) (Fin 2)] 0.25
            ([false; false], []) [0; 1]%nat
          = ([true; true],
             [merge_entry [source (Fin 0) (Fin 0) (Fin 10) (Fin 1) (Fin 10) (Fin 1);
                           source (Fin 0) (Fin 0) (Fin 10) (Fin 2) (Fin 10) (Fin 2)]])).
  { unfold merge_step.
    cbn [fst snd filter nth negb map length seq source amp c0 nabs n_max fold_left].
    rewrite nmax2_same. cbn [nmul nleb].
    rewrite Rabs_right by lra.
    replace (Rleb (10 * (1 - 0.25)) 10) with true by (symmetry; apply Rleb_true; lra).
    reflexivity. }
  rewrite Hstep.
  eexists. split; [reflexivity|].
  unfold merge_entry, min_vec, wmean_vec, wmean, npow_m2, n_min.
  cbn [map damp dflux source c0 c1 c2 fst snd fold_left nmin2 nleb map2 nmul ndiv nsum
       fold_right nadd].
  unfold Rleb. Rdecide. cbn [nsum fold_right nadd map2 nmul ndiv]. Rdecide.
  repeat split; repeat f_equal; lra.
Qed.
End MergeDflux.

(** ** Map merger *)


(** *** Properties of the map merger *)

Section MapMergeProps.
Import Num MapMerge.

Lemma axis_weight_pos (n i : nat) : (i < n)%nat -> 0 < axis_weight n i.
Proof.
  intros Hi. unfold axis_weight.
  assert (Hn : 0 < INR n) by (apply lt_0_INR; lia).
  assert (Hi' : INR i <= INR n - 1).
  { replace (INR n - 1) with (INR (n - 1)) by (rewrite minus_INR by lia; simpl; lra).
    apply le_INR; lia. }
  assert (H0 : 0 <= INR i) by apply pos_INR.
  assert (Habs : Rabs (INR i - (INR n - 1) / 2) <= (INR n - 1) / 2).
  { apply Rabs_le. lra. }
  assert (Hq : 2 * Rabs (INR i - (INR n - 1) / 2) / INR n < 1).
  { apply (Rmult_lt_reg_r (INR n)); [assumption|].
    unfold Rdiv. rewrite Rmult_assoc, Rinv_l by lra. lra. }
  lra.
Qed.

(** The merge weights are strictly positive on every pixel of a map, so a
    pixel has zero accumulated weight only when no map covers it. *)
Theorem build_merge_weight_positive (ny nx y x : nat) :
  (y < ny)%nat -> (x < nx)%nat -> 0 < val (build_merge_weight ny nx) y x.
Proof.
  intros Hy Hx. simpl. apply Rmult_lt_0_compat; now apply axis_weight_pos.
Qed.

Lemma local_inside (p : placed) (y x ly lx : nat) :
  local p y x = Some (ly, lx) -> (ly < ny (pixels p))%nat /\ (lx < nx (pixels p))%nat.
Proof.
  unfold local.
  destruct (_ && _)%bool eqn:E; [|discriminate].
  intros [= <- <-].
  repeat (apply andb_prop in E; destruct E as [E ?]).
  split; lia.
Qed.

Lemma contribution_weight_pos (maps : list placed) (y x : nat) :
  Forall (fun c => 0 < snd c) (contributions maps y x).
Proof.
  induction maps as [|p maps IH]; simpl; [constructor|].
  destruct (local p y x) as [[ly lx]|] eqn:E; [|assumption].
  constructor; [|assumption]. simpl.
  destruct (local_inside _ _ _ _ _ E) as [Hy Hx].
  apply Rmult_lt_0_compat; now apply axis_weight_pos.
Qed.

Lemma weight_sum_pos (cs : list (R * R)) :
  Forall (fun c => 0 < snd c) cs -> cs <> [] -> 0 < weight_sum cs.
Proof.
  unfold weight_sum.
  induction 1 as [|c cs Hc Hcs IH]; [congruence|]. intros _. simpl.
  destruct cs as [|c' cs']; [simpl; lra|].
  assert (0 < np_sum (map snd (c' :: cs'))) by (apply IH; discriminate). lra.
Qed.

Lemma accumulate_pixel (maps : list placed) (acc : ndmap * ndmap) (y x : nat) :
  val (fst (fold_left accumulate maps acc)) y x
    = val (fst acc) y x + weighted_sum (contributions maps y x)
  /\ val (snd (fold_left accumulate maps acc)) y x
    = val (snd acc) y x + weight_sum (contributions maps y x).
Proof.
  revert acc; induction maps as [|p maps IH]; intros acc; simpl.
  - unfold weighted_sum, weight_sum; simpl; split; lra.
  - destruct (IH (accumulate acc p)) as [H1 H2]. rewrite H1, H2.
    unfold accumulate; simpl. unfold local; simpl. fold (local p y x).
    destruct (local p y x) as [[ly lx]|]; unfold weighted_sum, weight_sum; simpl; split; lra.
Qed.

(** C9: on the root task the accumulated weight of a pixel is the sum of the
    (strictly positive) merge weights of the maps that cover it; a pixel whose
    accumulated weight is zero comes out as zero, and a pixel with positive
    accumulated weight comes out as the weight-weighted average of the maps
    that cover it. *)
Theorem merge_maps_onto_pixel (ranks : list (list placed)) (ny nx crop : nat)
    (fmax : R) (y x : nat) :
  let cs := contributions (map (crop_map crop) (concat ranks)) y x in
  let odiv := snd (accumulated ranks ny nx crop) in
  let out := merge_maps_onto ranks ny nx crop fmax in
  val odiv y x = weight_sum cs
  /\ 0 <= val odiv y x
  /\ (val odiv y x = 0 -> val out y x = 0)
  /\ (0 < val odiv y x -> val out y x = weighted_sum cs / weight_sum cs).
Proof.
  intros cs odiv out.
  destruct (accumulate_pixel (map (crop_map crop) (concat ranks))
              (zeros ny nx, zeros ny nx) y x) as [Hv Hw].
  fold cs in Hv, Hw. simpl in Hv, Hw. rewrite Rplus_0_l in Hv, Hw.
  pose proof (contribution_weight_pos (map (crop_map crop) (concat ranks)) y x) as Hpos.
  fold cs in Hpos.
  assert (Hout : val out y x
                 = nan_to_num fmax (ndiv (Fin (weighted_sum cs)) (Fin (weight_sum cs)))).
  { unfold out, merge_maps_onto, accumulated in *.
    destruct (fold_left _ _ _) as [omap od]; simpl in *. now rewrite Hv, Hw. }
  unfold odiv, accumulated. rewrite Hw, Hout.
  destruct cs as [|c cs'] eqn:Ecs.
  - unfold weight_sum, weighted_sum; simpl. repeat split; try lra.
    intros _. destruct (Req_dec_T 0 0); [|lra].
    unfold scale_inf. destruct (Rlt_dec 0 0); [lra|]. reflexivity.
  - assert (Hs : 0 < weight_sum (c :: cs')) by (apply weight_sum_pos; [assumption|discriminate]).
    repeat split; try lra.
    intros _. simpl. destruct (Req_dec_T (weight_sum (c :: cs')) 0); [lra|]. reflexivity.
Qed.

End MapMergeProps.

Lemma build_merge_weight_positive_witness :
  0 < MapMerge.val (MapMerge.build_merge_weight 3 3) 0 0.
Proof. apply build_merge_weight_positive; lia. Defined.

(** ** Logging set-up *)

Section LogProps.
Import Log.

Lemma verbosity2level_cases (verbosity : Z) :
  (verbosity <= 0 /\ verbosity2level verbosity = ERROR)%Z
  \/ (verbosity = 1 /\ verbosity2level verbosity = INFO)%Z
  \/ (2 <= verbosity /\ verbosity2level verbosity = DEBUG)%Z.
Proof.
  unfold verbosity2level.
  destruct (Z.leb_spec verbosity 0); [left; split; [lia | reflexivity]|].
  destruct (Z.leb_spec verbosity 1); [right; left; split; [lia | reflexivity]|].
  right; right. split; [lia | reflexivity].
Qed.

Lemma console_emitted (level rank levelno : Z) :
  emitted (console_handler level rank) levelno = true
  <-> (DEBUG <= levelno)%Z /\ (level <= levelno)%Z /\ (rank = 0%Z \/ levelno <> INFO).
Proof.
  unfold emitted, handles, console_handler, QuietOthers_filter, EnFilter_filter; simpl.
  rewrite !andb_true_iff, orb_true_iff, orb_false_r, negb_true_iff.
  rewrite !Z.leb_le, Z.eqb_eq, Z.eqb_neq. tauto.
Qed.

(** Raising the verbosity never hides a record from the console: what
    comes out at one verbosity comes out at every higher one; and an error
    (or anything more severe) comes out on every task at every verbosity. *)
Theorem verbosity2level_console (verbosity verbosity' rank levelno : Z) :
  ((verbosity <= verbosity')%Z ->
   emitted (console_handler (verbosity2level verbosity) rank) levelno = true ->
   emitted (console_handler (verbosity2level verbosity') rank) levelno = true)
  /\ ((ERROR <= levelno)%Z ->
      emitted (console_handler (verbosity2level verbosity) rank) levelno = true).
Proof.
  rewrite !console_emitted.
  destruct (verbosity2level_cases verbosity) as [[Hv ->]|[[Hv ->]|[Hv ->]]];
    destruct (verbosity2level_cases verbosity') as [[Hw ->]|[[Hw ->]|[Hw ->]]];
    unfold ERROR, INFO, DEBUG; split; intros H1; try intros H2; lia.
Qed.

(** On the console a task other than the root never shows an info record,
    whatever the threshold, while the root shows every record that reaches
    the threshold; and the file of a task receives every record that its
    console shows. *)
Theorem init_handlers (level rank levelno : Z) :
  (rank <> 0%Z -> emitted (console_handler level rank) INFO = false)
  /\ (emitted (console_handler level 0) levelno
      = ((DEBUG <=? levelno)%Z && (level <=? levelno)%Z))
  /\ (emitted (console_handler level rank) levelno = true ->
      emitted (file_handler rank) levelno = true).
Proof.
  unfold emitted, handles, console_handler, file_handler, QuietOthers_filter,
    EnFilter_filter; simpl.
  split; [|split].
  - intros Hr. apply Z.eqb_neq in Hr. rewrite Hr. simpl.
    now rewrite !andb_false_r.
  - now rewrite !andb_true_r.
  - intros H. apply andb_prop in H. destruct H as [-> _]. reflexivity.
Qed.

End LogProps.

(** ** Small numerical helpers *)

Section HelperProps.
Import Py Helpers.

Lemma fold_left_Rmax_swap (l : list R) (a b : R) :
  fold_left Rmax l (Rmax a b) = Rmax (fold_left Rmax l a) b.
Proof.
  revert a; induction l as [|y l IH]; intros a; simpl; [reflexivity|].
  rewrite <- IH. f_equal.
  rewrite <- !Rmax_assoc. f_equal. apply Rmax_comm.
Qed.

Lemma fold_left_Rmax_attained (l : list R) (a : R) :
  fold_left Rmax l a = a \/ In (fold_left Rmax l a) l.
Proof.
  revert a; induction l as [|y l IH]; intros a; simpl; [now left|].
  destruct (IH (Rmax a y)) as [H|H]; [|now right; right].
  rewrite H. unfold Rmax. destruct (Rle_dec a y); [right; now left | now left].
Qed.

(** [amax] gives the same answer on both of its paths, whether or not the
    installed numpy knows the [initial] argument; with an initial value it
    never raises and returns the larger of the initial value and the
    maximum of the array (the initial value itself for an empty array);
    without one it raises on an empty array. *)
Theorem amax_paths (supports_initial : bool) (arr : list R) (initial : R) :
  amax true arr (Some initial) = amax false arr (Some initial)
  /\ amax true arr None = amax false arr None
  /\ (exists m, amax supports_initial arr (Some initial) = Ok m
               /\ initial <= m /\ (forall x, In x arr -> x <= m)
               /\ (m = initial \/ In m arr))
  /\ amax supports_initial [] (Some initial) = Ok initial
  /\ amax supports_initial [] None = Raise ValueError.
Proof.
  assert (Heq : amax true arr (Some initial) = amax false arr (Some initial)).
  { unfold amax, max_of. destruct arr as [|x t]; [reflexivity|].
    simpl. f_equal. rewrite fold_left_app. simpl.
    now rewrite (Rmax_comm initial x), fold_left_Rmax_swap. }
  split; [exact Heq|]. split; [reflexivity|]. split; [|split].
  - exists (fold_left Rmax arr initial). split.
    + destruct supports_initial; [reflexivity | now rewrite <- Heq].
    + split; [apply fold_left_Rmax_ge|]. split.
      * intros x Hx. now apply fold_left_Rmax_In.
      * apply fold_left_Rmax_attained.
  - destruct supports_initial; reflexivity.
  - destruct supports_initial; reflexivity.
Qed.

Lemma nth_map2 {A B C : Type} (f : A -> B -> C) (a : list A) (b : list B)
    (da : A) (db : B) (dc : C) (k : nat) :
  (k < length a)%nat -> (k < length b)%nat ->
  nth k (map2 f a b) dc = f (nth k a da) (nth k b db).
Proof.
  revert b k; induction a as [|x a IH]; intros [|y b] [|k] Ha Hb; simpl in *; try lia;
    [reflexivity|]. apply IH; lia.
Qed.

Lemma length_map2 {A B C : Type} (f : A -> B -> C) (a : list A) (b : list B) :
  length (map2 f a b) = Nat.min (length a) (length b).
Proof.
  revert b; induction a as [|x a IH]; intros [|y b]; simpl; try reflexivity.
  now rewrite IH.
Qed.

(** For arrays of equal length [build_prior] returns the amplitudes as
    they are and one inverse variance per source, each strictly positive
    when [min_ivar] is; where the uncertainty is positive the prior is
    never tighter than the measurement, [ivar <= 1/damp^2], and it is
    exactly [1/damp^2] when the variability is zero; where it is not
    positive the inverse variance is [min_ivar]. *)
Theorem build_prior_ivars (amps damps : list R) (variability min_ivar : R) :
  length damps = length amps ->
  0 < min_ivar ->
  exists ivars,
    build_prior amps damps variability min_ivar = Ok (amps, ivars)
    /\ length ivars = length amps
    /\ forall k, (k < length amps)%nat ->
         let d := nth k damps 0 in
         let iv := nth k ivars 0 in
         0 < iv
         /\ (0 < d -> iv <= 1 / (d * d) /\ (variability = 0 -> iv = 1 / (d * d)))
         /\ (d <= 0 -> iv = min_ivar).
Proof.
  intros Hlen Hmin. unfold build_prior.
  rewrite Hlen, Nat.eqb_refl. simpl.
  eexists. split; [reflexivity|]. split.
  { rewrite length_map2, Hlen. apply Nat.min_id. }
  intros k Hk. cbv zeta.
  rewrite (nth_map2 _ _ _ 0 0) by lia.
  set (d := nth k damps 0). set (a := nth k amps 0).
  unfold Rltb. destruct (Rlt_dec 0 d) as [Hd|Hd].
  - assert (Hd2 : 0 < d * d) by nra.
    assert (Hq : 0 <= a * variability * (a * variability)) by nra.
    assert (Hs : 0 < d * d + a * variability * (a * variability)) by lra.
    split; [|split].
    + apply Rdiv_lt_0_compat; lra.
    + intros _. split.
      * unfold Rdiv. rewrite !Rmult_1_l. apply Rinv_le_contravar; lra.
      * intros ->. f_equal. ring.
    + intros Hle. lra.
  - split; [exact Hmin|]. split; [intros; lra | reflexivity].
Qed.

Lemma build_prior_ivars_witness :
  exists ivars,
    build_prior [10; 20] [2; 0] 1 (1 / 10) = Ok ([10; 20], ivars)
    /\ length ivars = 2%nat
    /\ forall k, (k < 2)%nat ->
         let d := nth k [2; 0] 0 in
         let iv := nth k ivars 0 in
         0 < iv
         /\ (0 < d -> iv <= 1 / (d * d) /\ (1 = 0 -> iv = 1 / (d * d)))
         /\ (d <= 0 -> iv = 1 / 10).
Proof. apply (build_prior_ivars [10; 20] [2; 0] 1 (1 / 10)); [reflexivity | lra]. Defined.

Lemma last_filter_seq (p : nat -> bool) (n : nat) (i : nat) :
  filter p (seq 0 n) <> [] ->
  i = last (filter p (seq 0 n)) 0%nat ->
  (i < n)%nat /\ p i = true /\ forall j, (i < j < n)%nat -> p j = false.
Proof.
  induction n as [|n IH]; intros Hne ->; [now elim Hne|].
  rewrite seq_S, filter_app in *. simpl in *.
  destruct (p n) eqn:Hp.
  - rewrite last_last. split; [lia|]. split; [exact Hp|]. intros j Hj. lia.
  - rewrite app_nil_r in *. destruct (IH Hne eq_refl) as [Hi [Hpi Hj]].
    split; [lia|]. split; [exact Hpi|]. intros j Hjn.
    destruct (Nat.eq_dec j n) as [->|Hn]; [exact Hp | apply Hj; lia].
Qed.

Lemma filter_seq_nil (p : nat -> bool) (n : nat) :
  filter p (seq 0 n) = [] -> forall j, (j < n)%nat -> p j = false.
Proof.
  intros H j Hj. destruct (p j) eqn:Hp; [|reflexivity].
  assert (Hin : In j (filter p (seq 0 n))).
  { apply filter_In. split; [apply in_seq; lia | exact Hp]. }
  rewrite H in Hin. destruct Hin.
Qed.

Lemma item_nat {A : Type} (d : A) (l : list A) (i : nat) :
  (i < length l)%nat -> item d l (Z.of_nat i) = Ok (nth i l d).
Proof.
  intros Hi. unfold item, position.
  replace ((Z.of_nat i <? 0)%Z) with false by (symmetry; apply Z.ltb_ge; lia).
  replace ((0 <=? Z.of_nat i)%Z) with true by (symmetry; apply Z.leb_le; lia).
  replace ((Z.of_nat i <? Z.of_nat (length l))%Z) with true
    by (symmetry; apply Z.ltb_lt; lia).
  cbn [andb bind]. now rewrite Nat2Z.id.
Qed.

Lemma item_last {A : Type} (d : A) (l : list A) :
  l <> [] -> item d l (-1) = Ok (nth (length l - 1) l d).
Proof.
  intros Hne.
  assert (Hn : (0 < length l)%nat) by (destruct l; [congruence | simpl; lia]).
  unfold item, position.
  replace ((-1 <? 0)%Z) with true by reflexivity.
  replace ((0 <=? -1 + Z.of_nat (length l))%Z) with true by (symmetry; apply Z.leb_le; lia).
  replace ((-1 + Z.of_nat (length l) <? Z.of_nat (length l))%Z) with true
    by (symmetry; apply Z.ltb_lt; lia).
  cbn [andb bind]. do 2 f_equal. lia.
Qed.

(** On a profile with at least one sample [get_beam_rad] returns the
    radius of a sample beyond which no value exceeds [lim]: the last sample
    above [lim] when there is one, and otherwise the last sample of the
    profile (its largest radius, not its first).  On an empty profile it
    raises. *)
Theorem get_beam_rad_last_above (r b : list R) (lim : R) :
  (length r = length b -> b <> [] ->
   exists i, (i < length b)%nat
     /\ get_beam_rad (r, b) lim = Ok (nth i r 0)
     /\ (forall j, (i < j < length b)%nat -> nth j b 0 <= lim)
     /\ (lim < nth i b 0
         \/ (i = (length b - 1)%nat /\ forall j, (j < length b)%nat -> nth j b 0 <= lim)))
  /\ get_beam_rad ([], []) lim = Raise IndexError.
Proof.
  split; [|reflexivity].
  intros Hlen Hne. unfold get_beam_rad. cbn [fst snd].
  set (p := fun i => Rltb lim (nth i b 0)).
  assert (Hn : (0 < length b)%nat) by (destruct b; [congruence | simpl; lia]).
  destruct (filter p (seq 0 (length b))) as [|a above] eqn:Hab.
  - exists (length b - 1)%nat.
    pose proof (filter_seq_nil p _ Hab) as Hnone.
    assert (Hle : forall j, (j < length b)%nat -> nth j b 0 <= lim).
    { intros j Hj. apply Hnone in Hj. unfold p in Hj. apply Rltb_false in Hj. lra. }
    split; [lia|]. split.
    + rewrite item_last, Hlen; [reflexivity|]. destruct r; [|discriminate].
      simpl in Hlen. lia.
    + split; [intros j Hj; apply Hle; lia|]. right. split; [reflexivity | exact Hle].
  - rewrite <- Hab.
    assert (Hne' : filter p (seq 0 (length b)) <> []) by (rewrite Hab; discriminate).
    destruct (last_filter_seq p (length b) _ Hne' eq_refl) as [Hi [Hp Hafter]].
    set (i := last (filter p (seq 0 (length b))) 0%nat) in *.
    exists i. split; [exact Hi|]. split.
    + apply item_nat. lia.
    + split.
      * intros j Hj. apply Hafter in Hj. unfold p in Hj. apply Rltb_false in Hj. lra.
      * left. unfold p in Hp. now apply Rltb_true in Hp.
Qed.

Section PadRegion.
Variable fft_len : Z -> Z.
Hypothesis fft_len_above : forall n, (n <= fft_len n)%Z.

(** [pad_region] with the transform padding: the regions keep their
    number; along every axis the lower corner of a region moves down by
    exactly [pad] and its size becomes the fast length of the padded size;
    so for a non-negative [pad] the returned region contains the given
    one. *)
Theorem pad_region_fft_contains (regions : list region) (pad : Z) (k i : nat) :
  (k < length regions)%nat ->
  length (fst (nth k regions ([], []))) = length (snd (nth k regions ([], []))) ->
  (i < length (fst (nth k regions ([], []))))%nat ->
  let r := nth k regions ([], []) in
  let r' := nth k (pad_region fft_len regions pad true) ([], []) in
  length (pad_region fft_len regions pad true) = length regions
  /\ nth i (fst r') 0%Z = (nth i (fst r) 0 - pad)%Z
  /\ size_along r' i = fft_len (size_along r i + 2 * pad)
  /\ ((0 <= pad)%Z ->
      (nth i (fst r') 0 <= nth i (fst r) 0)%Z /\ (nth i (snd r) 0 <= nth i (snd r') 0)%Z).
Proof.
  intros Hk Hlen Hi r r'. fold r in Hlen, Hi.
  set (padded := fun r0 : region =>
                   pad_one_fft fft_len (map (fun v => (v - pad)%Z) (fst r0),
                                        map (fun v => (v + pad)%Z) (snd r0))).
  assert (Hr' : r' = padded r).
  { unfold r', pad_region, pad_region_fft. rewrite map_map.
    exact (map_nth padded regions (@nil Z, @nil Z) k). }
  unfold padded in Hr'.
  assert (Hlo : nth i (fst r') 0%Z = (nth i (fst r) 0 - pad)%Z).
  { rewrite Hr'. unfold pad_one_fft. cbn [fst snd].
    rewrite (nth_indep _ 0%Z ((fun v => (v - pad)%Z) 0%Z)) by (now rewrite length_map).
    now rewrite (map_nth (fun v => (v - pad)%Z)). }
  assert (Hup : nth i (snd r') 0%Z
                = (nth i (fst r) 0 - pad + fft_len (size_along r i + 2 * pad))%Z).
  { rewrite Hr'. unfold pad_one_fft. cbn [fst snd].
    rewrite (nth_map2 _ _ _ 0%Z 0%Z) by (rewrite length_map; lia).
    rewrite (nth_indep (map _ (fst r)) 0%Z ((fun v => (v - pad)%Z) 0%Z))
      by (rewrite length_map; lia).
    rewrite (nth_indep (map _ (snd r)) 0%Z ((fun v => (v + pad)%Z) 0%Z))
      by (rewrite length_map; lia).
    rewrite (map_nth (fun v => (v - pad)%Z)), (map_nth (fun v => (v + pad)%Z)).
    unfold size_along.
    replace (nth i (snd r) 0 + pad - (nth i (fst r) 0 - pad))%Z
      with (nth i (snd r) 0 - nth i (fst r) 0 + 2 * pad)%Z by lia.
    lia. }
  split.
  { unfold pad_region, pad_region_fft. now rewrite !length_map. }
  split; [exact Hlo|]. split.
  { unfold size_along at 1. rewrite Hup, Hlo. lia. }
  intros Hpad. rewrite Hlo, Hup.
  pose proof (fft_len_above (size_along r i + 2 * pad)) as Hf.
  unfold size_along in *. lia.
Qed.

End PadRegion.

Lemma pad_region_fft_contains_witness :
  let fft_len := fun n => Z.max n 128 in
  let regions := [([0; 0], [100; 60])%Z] in
  let r := nth 0 regions ([], []) in
  let r' := nth 0 (pad_region fft_len regions 10 true) ([], []) in
  length (pad_region fft_len regions 10 true) = length regions
  /\ nth 1 (fst r') 0%Z = (nth 1 (fst r) 0 - 10)%Z
  /\ size_along r' 1 = fft_len (size_along r 1 + 2 * 10)%Z
  /\ ((0 <= 10)%Z ->
      (nth 1 (fst r') 0 <= nth 1 (fst r) 0)%Z /\ (nth 1 (snd r) 0 <= nth 1 (snd r') 0)%Z).
Proof.
  apply (pad_region_fft_contains (fun n => Z.max n 128)); simpl; lia.
Defined.

End HelperProps.

(** ** Local noise level of a filtered map *)

Section NormProps.
Import Norm.

Lemma np_sum_bounds (l : list R) (lo hi : R) :
  (forall x, In x l -> lo <= x <= hi) ->
  INR (length l) * lo <= np_sum l <= INR (length l) * hi.
Proof.
  induction l as [|a l IH]; intros H.
  - simpl. lra.
  - change (np_sum (a :: l)) with (a + np_sum l).
    rewrite length_cons, S_INR.
    destruct (H a (or_introl eq_refl)) as [Ha1 Ha2].
    destruct IH as [IH1 IH2]; [intros x Hx; apply H; now right|]. lra.
Qed.

Lemma np_mean_bounds (l : list R) (lo hi : R) :
  l <> [] -> (forall x, In x l -> lo <= x <= hi) -> lo <= np_mean l <= hi.
Proof.
  intros Hne H. unfold np_mean.
  assert (Hn : 0 < INR (length l)).
  { apply lt_0_INR. destruct l; [congruence | simpl; lia]. }
  destruct (np_sum_bounds l lo hi H) as [H1 H2].
  split.
  - apply (Rmult_le_reg_r (INR (length l))); [exact Hn|].
    unfold Rdiv. rewrite Rmult_assoc, Rinv_l by lra. lra.
  - apply (Rmult_le_reg_r (INR (length l))); [exact Hn|].
    unfold Rdiv. rewrite Rmult_assoc, Rinv_l by lra. lra.
Qed.

Lemma insert_R_In (x y : R) (l : list R) : In y (insert_R x l) <-> y = x \/ In y l.
Proof.
  induction l as [|a l IH]; simpl.
  - split; [intros [H|[]]; now left | intros [H|[]]; now left].
  - destruct (Rle_dec x a); simpl; [split; intros [H|H]; auto|].
    rewrite IH. split; intros [H|[H|H]]; auto.
Qed.

Lemma insert_R_length (x : R) (l : list R) : length (insert_R x l) = S (length l).
Proof.
  induction l as [|a l IH]; simpl; [reflexivity|].
  destruct (Rle_dec x a); simpl; [reflexivity | now rewrite IH].
Qed.

Lemma sort_R_In (y : R) (l : list R) : In y (sort_R l) <-> In y l.
Proof.
  induction l as [|a l IH]; simpl; [tauto|].
  rewrite insert_R_In, IH. split; intros [H|H]; auto.
Qed.

Lemma sort_R_length (l : list R) : length (sort_R l) = length l.
Proof.
  induction l as [|a l IH]; simpl; [reflexivity|].
  now rewrite insert_R_length, IH.
Qed.

Lemma np_median_bounds (l : list R) (lo hi : R) :
  l <> [] -> (forall x, In x l -> lo <= x <= hi) -> lo <= np_median l <= hi.
Proof.
  intros Hne H. unfold np_median.
  assert (Hn : (0 < length (sort_R l))%nat).
  { rewrite sort_R_length. destruct l; [congruence | simpl; lia]. }
  assert (Hnth : forall k, (k < length (sort_R l))%nat -> lo <= nth k (sort_R l) 0 <= hi).
  { intros k Hk. apply H, sort_R_In, nth_In, Hk. }
  set (n := length (sort_R l)) in *.
  assert (Hhalf : (n / 2 < n)%nat) by (apply Nat.div_lt; lia).
  destruct (Nat.even n) eqn:He.
  - assert (Hp : (n / 2 - 1 < n)%nat) by lia.
    pose proof (Hnth _ Hhalf). pose proof (Hnth _ Hp). lra.
  - now apply Hnth.
Qed.

Lemma In_firstn {A : Type} (n : nat) (l : list A) (x : A) : In x (firstn n l) -> In x l.
Proof.
  intros H. rewrite <- (firstn_skipn n l). apply in_or_app. now left.
Qed.

Lemma In_skipn {A : Type} (n : nat) (l : list A) (x : A) : In x (skipn n l) -> In x l.
Proof.
  intros H. rewrite <- (firstn_skipn n l). apply in_or_app. now right.
Qed.

Lemma rows_spec (nblock bsize : nat) (arr : list R) (row : list R) :
  (0 < bsize)%nat -> (nblock * bsize <= length arr)%nat ->
  In row (rows nblock bsize arr) ->
  row <> [] /\ forall x, In x row -> In x arr.
Proof.
  intros Hb. revert arr. induction nblock as [|k IH]; intros arr Hlen Hin; [destruct Hin|].
  simpl in Hin. destruct Hin as [<-|Hin].
  - split.
    + intros Hnil. apply (f_equal (@length R)) in Hnil.
      rewrite length_firstn in Hnil. simpl in *. lia.
    + intros x. apply In_firstn.
  - destruct (IH (skipn bsize arr)) as [Hne Hsub]; [|exact Hin|].
    + rewrite length_skipn. simpl in Hlen. lia.
    + split; [exact Hne|]. intros x Hx. eapply In_skipn, Hsub, Hx.
Qed.

(** The median of the block means, the last block running to the end of
    the array, lies between any lower and upper bound of the array. *)
Lemma block_means_bounds (arr : list R) (bsize : nat) (lo hi : R) :
  let nblock := (length arr / bsize)%nat in
  (0 < bsize)%nat -> (1 < nblock)%nat ->
  (forall x, In x arr -> lo <= x <= hi) ->
  lo <= np_median (map np_mean (rows nblock bsize arr)
                   ++ [np_mean (skipn ((nblock - 1) * bsize) arr)]) <= hi.
Proof.
  intros nblock Hb Hgt H.
  assert (Hfit : (nblock * bsize <= length arr)%nat).
  { unfold nblock. rewrite Nat.mul_comm. apply Nat.Div0.mul_div_le. }
  apply np_median_bounds.
  - intros Hnil. apply (f_equal (@length R)) in Hnil.
    rewrite length_app in Hnil. simpl in Hnil. lia.
  - intros m Hm. apply in_app_or in Hm. destruct Hm as [Hm|[<-|[]]].
    + apply in_map_iff in Hm. destruct Hm as [row [<- Hrow]].
      destruct (rows_spec _ _ _ _ Hb Hfit Hrow) as [Hrne Hsub].
      apply np_mean_bounds; [exact Hrne|]. intros x Hx. apply H, Hsub, Hx.
    + apply np_mean_bounds.
      * intros Hnil. apply (f_equal (@length R)) in Hnil.
        rewrite length_skipn in Hnil. simpl in Hnil. nia.
      * intros x Hx. eapply H, In_skipn, Hx.
Qed.

(** [safe_mean] of a non-empty array never leaves the range of its
    values, for every positive block size: whether it is the plain mean or
    the median of the block means, it lies between any lower and upper
    bound of the array. *)
Theorem safe_mean_bounds (arr : list R) (bsize : nat) (lo hi : R) :
  arr <> [] -> (0 < bsize)%nat ->
  (forall x, In x arr -> lo <= x <= hi) ->
  lo <= safe_mean arr bsize <= hi.
Proof.
  intros Hne Hb H. unfold safe_mean.
  destruct (Nat.leb_spec (length arr / bsize) 1) as [Hle|Hgt].
  - now apply np_mean_bounds.
  - now apply block_means_bounds.
Qed.

Lemma safe_mean_bounds_witness : 1 <= safe_mean [1; 3; 2; 3; 1] 2 <= 3.
Proof.
  apply safe_mean_bounds; [discriminate | lia |].
  intros x [<-|[<-|[<-|[<-|[<-|[]]]]]]; lra.
Defined.

Lemma positive_lower_bound (l : list R) :
  (forall x, In x l -> 0 < x) -> exists lo, 0 < lo /\ forall x, In x l -> lo <= x.
Proof.
  induction l as [|a l IH]; intros H.
  - exists 1. split; [lra | intros x []].
  - destruct IH as [lo [Hlo Hl]]; [intros x Hx; apply H; now right|].
    pose proof (H a (or_introl eq_refl)) as Ha.
    exists (Rmin a lo). split; [apply Rmin_glb_lt; assumption|].
    intros x [<-|Hx]; [apply Rmin_l|].
    eapply Rle_trans; [apply Rmin_r | now apply Hl].
Qed.

Lemma nonzero_In (l : list R) (v : R) : In v (nonzero l) <-> In v l /\ v <> 0.
Proof.
  unfold nonzero. rewrite filter_In.
  destruct (Req_dec_T v 0); split; intros [H1 H2]; split; auto; congruence.
Qed.

Lemma block_std_pos (l : list R) :
  nonzero l <> [] -> 0 < block_std (nonzero l).
Proof.
  intros Hne. unfold block_std. apply sqrt_lt_R0.
  set (sq := map (fun v => v * v) (nonzero l)).
  assert (Hpos : forall x, In x sq -> 0 < x).
  { intros x Hx. apply in_map_iff in Hx. destruct Hx as [v [<- Hv]].
    apply nonzero_In in Hv. destruct Hv as [_ Hv]. nra. }
  destruct (positive_lower_bound sq Hpos) as [lo [Hlo Hl]].
  apply Rlt_le_trans with lo; [exact Hlo|].
  assert (Hsq : sq <> []) by (unfold sq; destruct (nonzero l); [congruence | discriminate]).
  assert (Hb : forall x, In x sq -> lo <= x <= np_max sq + lo).
  { intros x Hx. split; [now apply Hl|].
    pose proof (np_max_ge sq x Hx). lra. }
  unfold safe_mean.
  destruct (Nat.leb_spec (length sq / 100) 1) as [Hle|Hgt].
  - now apply (np_mean_bounds sq lo (np_max sq + lo)).
  - apply (block_means_bounds sq 100 lo (np_max sq + lo)); [lia | exact Hgt | exact Hb].
Qed.

Lemma fold_left_map {A B C : Type} (f : A -> B -> A) (g : C -> B) (l : list C) (a : A) :
  fold_left f (map g l) a = fold_left (fun a x => f a (g x)) l a.
Proof. revert a; induction l as [|x l IH]; intros a; simpl; [reflexivity | apply IH]. Qed.

Lemma fold_left_nested {A : Type} (f : A -> nat -> nat -> A) (ys xs : list nat) (a : A) :
  fold_left (fun a y => fold_left (fun a x => f a y x) xs a) ys a
  = fold_left (fun a c => f a (fst c) (snd c)) (list_prod ys xs) a.
Proof.
  revert a; induction ys as [|y ys IH]; intros a; simpl; [reflexivity|].
  rewrite fold_left_app, fold_left_map. simpl. apply IH.
Qed.

Lemma fold_left_invariant {A B : Type} (P : A -> Prop) (f : A -> B -> A) (l : list B) (a : A) :
  P a -> (forall a b, P a -> P (f a b)) -> P (fold_left f l a).
Proof.
  intros Ha Hf. revert a Ha; induction l as [|b l IH]; intros a Ha; simpl; [exact Ha|].
  apply IH, Hf, Ha.
Qed.

Section Blocks.
Variable snmap : Filter.rmap.
Variables h w bsize : nat.

Lemma get_snmap_norm_flat :
  get_snmap_norm snmap h w bsize
  = fold_left (fun norm c => norm_block snmap h w bsize norm (fst c) (snd c))
              (list_prod (seq 0 (h / bsize)) (seq 0 (w / bsize)))
              (fun y x => snmap y x * 0 + 1).
Proof. unfold get_snmap_norm. apply fold_left_nested. Qed.

(** The map returned by [get_snmap_norm] is strictly positive at every
    pixel, so dividing by it is always defined; and for a map with fewer
    than [bsize] rows or columns no block is formed at all and the map is
    1 everywhere. *)
Theorem get_snmap_norm_positive (y x : nat) :
  0 < get_snmap_norm snmap h w bsize y x
  /\ ((h < bsize)%nat \/ (w < bsize)%nat -> get_snmap_norm snmap h w bsize y x = 1).
Proof.
  rewrite get_snmap_norm_flat. split.
  - revert y x.
    apply (fold_left_invariant (fun norm : Filter.rmap => forall y x, 0 < norm y x)).
    + intros y x. lra.
    + intros norm [iby ibx] Hn y x. cbn [fst snd]. unfold norm_block.
      destruct (block_vals snmap h w bsize iby ibx) as [|v vals] eqn:Hv; [apply Hn|].
      unfold fill.
      destruct (_ && _)%bool; [|apply Hn].
      rewrite <- Hv. unfold block_vals. apply block_std_pos.
      unfold block_vals in Hv. rewrite Hv. discriminate.
  - intros Hsmall.
    assert (Hnil : list_prod (seq 0 (h / bsize)) (seq 0 (w / bsize)) = []).
    { destruct Hsmall as [Hs|Hs]; rewrite (Nat.div_small _ _ Hs); [reflexivity|].
      simpl. induction (seq 0 (h / bsize)); [reflexivity | exact IHl]. }
    rewrite Hnil. simpl. ring.
Qed.

Hypothesis bsize_pos : (0 < bsize)%nat.

Lemma block_range (n b i : nat) :
  (bsize <= n)%nat -> (b < n / bsize)%nat -> (i < n)%nat ->
  ((block_start bsize b <=? i) && (i <? block_end bsize (n / bsize) n b))%nat = true
  <-> b = block_of bsize (n / bsize) i.
Proof.
  intros Hn Hb Hi. unfold block_start, block_end, block_of.
  set (nb := (n / bsize)%nat) in *.
  pose proof (Nat.div_mod_eq i bsize) as Hdm.
  pose proof (Nat.mod_upper_bound i bsize ltac:(lia)) as Hmod.
  set (q := (i / bsize)%nat) in *. set (r := (i mod bsize)%nat) in *.
  rewrite andb_true_iff, Nat.leb_le, Nat.ltb_lt.
  destruct (Nat.ltb_spec b (nb - 1)) as [Hlt|Hge].
  - split.
    + intros [H1 H2]. assert (q = b) by nia. lia.
    + intros Hq. assert (q = b) by lia. nia.
  - assert (Hbn : b = (nb - 1)%nat) by lia.
    split.
    + intros [H1 H2]. assert (b <= q)%nat by nia. lia.
    + intros Hq. assert (b <= q)%nat by lia. split; [nia | exact Hi].
Qed.

Lemma block_of_lt (n i : nat) : (bsize <= n)%nat -> (block_of bsize (n / bsize) i < n / bsize)%nat.
Proof.
  intros Hn. unfold block_of.
  assert (0 < n / bsize)%nat by (apply Nat.div_str_pos; lia). lia.
Qed.

(** On a map with at least [bsize] rows and columns the blocks tile the
    map, the last block of each axis running to the edge: every pixel gets
    the level of the one block that holds it, the square root of the safe
    mean of the squares of the block's non-zero pixels, or 1 when the block
    has no non-zero pixel. *)
Theorem get_snmap_norm_blocks (y x : nat) :
  (bsize <= h)%nat -> (bsize <= w)%nat -> (y < h)%nat -> (x < w)%nat ->
  get_snmap_norm snmap h w bsize y x
  = match block_vals snmap h w bsize (block_of bsize (h / bsize) y)
                                     (block_of bsize (w / bsize) x) with
    | [] => 1
    | vals => block_std vals
    end.
Proof.
  intros Hh Hw Hy Hx. rewrite get_snmap_norm_flat.
  set (owner := (block_of bsize (h / bsize) y, block_of bsize (w / bsize) x)).
  set (step := fun (norm : Filter.rmap) (c : nat * nat) =>
                 norm_block snmap h w bsize norm (fst c) (snd c)).
  assert (Hstep : forall (norm : Filter.rmap) c,
            (fst c < h / bsize)%nat -> (snd c < w / bsize)%nat ->
            step norm c y x
            = if (Nat.eqb (fst c) (fst owner) && Nat.eqb (snd c) (snd owner))%bool
              then match block_vals snmap h w bsize (fst owner) (snd owner) with
                   | [] => norm y x
                   | vals => block_std vals
                   end
              else norm y x).
  { intros norm [iby ibx] Hby Hbx. unfold owner. cbn [fst snd] in *.
    unfold step, norm_block. cbn [fst snd].
    pose proof (block_range h iby y Hh Hby Hy) as Ry.
    pose proof (block_range w ibx x Hw Hbx Hx) as Rx.
    destruct (Nat.eqb_spec iby (block_of bsize (h / bsize) y)) as [Ey|Ey];
      destruct (Nat.eqb_spec ibx (block_of bsize (w / bsize) x)) as [Ex|Ex]; cbn [andb].
    - subst iby ibx.
      destruct (block_vals snmap h w bsize _ _) as [|v vals]; [reflexivity|].
      unfold fill.
      rewrite <- andb_assoc. rewrite (proj2 Ry eq_refl), (proj2 Rx eq_refl). reflexivity.
    - destruct (block_vals snmap h w bsize iby ibx) as [|v vals]; [reflexivity|].
      unfold fill. rewrite <- andb_assoc.
      destruct ((block_start bsize ibx <=? x)%nat && (x <? block_end bsize (w / bsize) w ibx)%nat)%bool
        eqn:E2; [elim Ex; now apply Rx | now rewrite andb_false_r].
    - destruct (block_vals snmap h w bsize iby ibx) as [|v vals]; [reflexivity|].
      unfold fill. rewrite <- andb_assoc.
      destruct ((block_start bsize iby <=? y)%nat && (y <? block_end bsize (h / bsize) h iby)%nat)%bool
        eqn:E1; [elim Ey; now apply Ry | reflexivity].
    - destruct (block_vals snmap h w bsize iby ibx) as [|v vals]; [reflexivity|].
      unfold fill. rewrite <- andb_assoc.
      destruct ((block_start bsize iby <=? y)%nat && (y <? block_end bsize (h / bsize) h iby)%nat)%bool
        eqn:E1; [elim Ey; now apply Ry | reflexivity]. }
  assert (Hfold : forall cells (norm : Filter.rmap),
            (forall c, In c cells -> (fst c < h / bsize)%nat /\ (snd c < w / bsize)%nat) ->
            (In owner cells ->
             fold_left step cells norm y x
             = match block_vals snmap h w bsize (fst owner) (snd owner) with
               | [] => norm y x
               | vals => block_std vals
               end)
            /\ (~ In owner cells -> fold_left step cells norm y x = norm y x)).
  { induction cells as [|c cells IH]; intros norm Hc.
    - split; [intros [] | reflexivity].
    - simpl fold_left.
      destruct (Hc c (or_introl eq_refl)) as [Hc1 Hc2].
      destruct (IH (step norm c) (fun c' H' => Hc c' (or_intror H'))) as [IHin IHout].
      pose proof (Hstep norm c Hc1 Hc2) as Hs.
      destruct (Nat.eqb_spec (fst c) (fst owner)) as [E1|E1];
        destruct (Nat.eqb_spec (snd c) (snd owner)) as [E2|E2]; cbn [andb] in Hs.
      + assert (Hco : c = owner) by (destruct c, owner; simpl in *; congruence).
        split.
        * intros _.
          assert (Hdec : In owner cells \/ ~ In owner cells).
          { destruct (in_dec (fun a b : nat * nat =>
                                ltac:(decide equality; apply Nat.eq_dec) : {a = b} + {a <> b})
                             owner cells); auto. }
          destruct Hdec as [Hin|Hout].
          -- rewrite (IHin Hin), Hs.
             destruct (block_vals snmap h w bsize (fst owner) (snd owner)); reflexivity.
          -- rewrite (IHout Hout), Hs. reflexivity.
        * intros Hn. elim Hn. left. exact Hco.
      + assert (Hco : c <> owner) by (intros ->; congruence).
        split.
        * intros [Hin|Hin]; [contradiction|]. rewrite (IHin Hin), Hs. reflexivity.
        * intros Hn. rewrite IHout, Hs; [reflexivity|]. intros Hin. apply Hn. now right.
      + assert (Hco : c <> owner) by (intros ->; congruence).
        split.
        * intros [Hin|Hin]; [contradiction|]. rewrite (IHin Hin), Hs. reflexivity.
        * intros Hn. rewrite IHout, Hs; [reflexivity|]. intros Hin. apply Hn. now right.
      + assert (Hco : c <> owner) by (intros ->; congruence).
        split.
        * intros [Hin|Hin]; [contradiction|]. rewrite (IHin Hin), Hs. reflexivity.
        * intros Hn. rewrite IHout, Hs; [reflexivity|]. intros Hin. apply Hn. now right. }
  destruct (Hfold (list_prod (seq 0 (h / bsize)) (seq 0 (w / bsize)))
                  (fun y x => snmap y x * 0 + 1)) as [Hin _].
  { intros [a b] Hc. apply in_prod_iff in Hc. rewrite !in_seq in Hc. cbn [fst snd]. lia. }
  fold step. rewrite Hin.
  - unfold owner. cbn [fst snd].
    destruct (block_vals snmap h w bsize _ _); [ring | reflexivity].
  - unfold owner. apply in_prod; apply in_seq; split; try lia; simpl; now apply block_of_lt.
Qed.

End Blocks.

Lemma get_snmap_norm_blocks_witness :
  let snmap : Filter.rmap := fun y x => if (y =? 0)%nat then 0 else 3 in
  get_snmap_norm snmap 5%nat 5%nat 2%nat 4%nat 4%nat
  = match block_vals snmap 5%nat 5%nat 2%nat (block_of 2 (5 / 2) 4)%nat (block_of 2 (5 / 2) 4)%nat with
    | [] => 1
    | vals => block_std vals
    end.
Proof. apply get_snmap_norm_blocks; lia. Defined.

End NormProps.

(** ** Regions of a map *)

Section RegionProps.
Import Py Regions.
Import String.StringSyntax.
Local Open Scope string_scope.

Lemma traverse_ok {A B : Type} (g : A -> B) (l : list A) :
  traverse (fun a => Ok (g a)) l = Ok (map g l).
Proof. induction l as [|a l IH]; simpl; [reflexivity | now rewrite IH]. Qed.

Lemma traverse_ext {A B : Type} (f g : A -> result B) (l : list A) :
  (forall a, In a l -> f a = g a) -> traverse f l = traverse g l.
Proof.
  induction l as [|a l IH]; intros H; simpl; [reflexivity|].
  rewrite (H a (or_introl eq_refl)), IH; [reflexivity|].
  intros b Hb. apply H. now right.
Qed.

(** The corners that [range0] steps through: the multiples of a positive
    step below [stop]. *)
Lemma range0_spec (stop : nat) (step : Z) :
  (0 < step)%Z ->
  exists l, range0 stop step = Ok l
    /\ forall v, In v l <-> exists k, (v = k * step /\ 0 <= k /\ k * step < Z.of_nat stop)%Z.
Proof.
  intros Hs. unfold range0.
  replace ((step =? 0)%Z) with false by (symmetry; apply Z.eqb_neq; lia).
  replace ((step <? 0)%Z) with false by (symmetry; apply Z.ltb_ge; lia).
  eexists. split; [reflexivity|].
  set (c := ((Z.of_nat stop + step - 1) / step)%Z).
  assert (Hc1 : (c * step <= Z.of_nat stop + step - 1)%Z).
  { unfold c. rewrite Z.mul_comm. apply Z.mul_div_le. lia. }
  assert (Hc2 : (Z.of_nat stop + step - 1 < (c + 1) * step)%Z).
  { unfold c. rewrite Z.mul_comm.
    replace (step * ((Z.of_nat stop + step - 1) / step + 1))%Z
      with (step * Z.succ ((Z.of_nat stop + step - 1) / step))%Z by lia.
    apply Z.mul_succ_div_gt. lia. }
  assert (Hc0 : (0 <= c)%Z) by (unfold c; apply Z.div_pos; lia).
  intros v. rewrite in_map_iff. split.
  - intros [k [<- Hk]]. apply in_seq in Hk. exists (Z.of_nat k).
    split; [reflexivity|]. split; [lia|]. nia.
  - intros [k [-> [Hk0 Hk]]]. exists (Z.to_nat k). split; [f_equal; lia|].
    apply in_seq. split; [lia|]. simpl. nia.
Qed.

Section Tiles.
Variable int : String.string -> option Z.
Variable box_regions : list String.string -> result (list pixbox).
Variable isfile : String.string -> bool.
Variable file_regions : String.string -> result (list pixbox).

Lemma tiles_spec (ny nx : nat) (t0 t1 : Z) :
  (0 < t0)%Z -> (0 < t1)%Z ->
  exists regions, tiles ny nx (t0, t1) = Ok regions
    /\ forall r, In r regions <->
         exists ky kx, (0 <= ky /\ ky * t0 < Z.of_nat ny /\ 0 <= kx /\ kx * t1 < Z.of_nat nx)%Z
           /\ r = ((ky * t0, kx * t1), (ky * t0 + t0, kx * t1 + t1))%Z.
Proof.
  intros H0 H1. unfold tiles. cbn [fst snd].
  destruct (range0_spec ny t0 H0) as [ys [-> Hys]].
  destruct (range0_spec nx t1 H1) as [xs [Exs Hxs]].
  rewrite Exs. cbn [bind]. rewrite traverse_ok. cbn [bind].
  eexists. split; [reflexivity|].
  intros r. rewrite <- flat_map_concat_map, in_flat_map. split.
  - intros [y [Hy Hr]]. apply in_map_iff in Hr. destruct Hr as [x [<- Hx]].
    apply Hys in Hy. destruct Hy as [ky [-> [Hk0 Hk]]].
    apply Hxs in Hx. destruct Hx as [kx [-> [Hx0 Hx]]].
    exists ky, kx. split; [lia | reflexivity].
  - intros [ky [kx [[Hk0 [Hk [Hx0 Hx]]] ->]]].
    exists (ky * t0)%Z. split.
    + apply Hys. exists ky. lia.
    + apply in_map_iff. exists (kx * t1)%Z. split; [reflexivity|].
      apply Hxs. exists kx. lia.
Qed.

(** The ["tile"] regions, for positive tile sizes: the call returns, every
    pixel of the map lies in exactly one tile, and every tile has the full
    tile size with its lower corner inside the map (a tile at the upper
    edge is not clipped to the map). *)
Theorem get_regions_tile (regfile : String.string) (ny nx : nat) (tsize : list Z) :
  hd String.EmptyString (split colon regfile) = "tile" ->
  ints int (firstn 2 (tl (split colon regfile))) = Ok tsize ->
  (0 < fst (tile_size tsize))%Z -> (0 < snd (tile_size tsize))%Z ->
  exists regions,
    get_regions int box_regions isfile file_regions (Some regfile) ny nx = Ok regions
    /\ (forall y x, (y < ny)%nat -> (x < nx)%nat ->
          exists r, In r regions /\ contains r (Z.of_nat y) (Z.of_nat x)
            /\ forall r', In r' regions -> contains r' (Z.of_nat y) (Z.of_nat x) -> r' = r)
    /\ (forall r, In r regions ->
          (0 <= fst (fst r) < Z.of_nat ny)%Z /\ (0 <= snd (fst r) < Z.of_nat nx)%Z
          /\ fst (snd r) = (fst (fst r) + fst (tile_size tsize))%Z
          /\ snd (snd r) = (snd (fst r) + snd (tile_size tsize))%Z).
Proof.
  intros Hname Hints H0 H1. unfold get_regions. rewrite Hname, Hints.
  cbn [String.eqb Ascii.eqb Bool.eqb bind]. cbn.
  destruct (tile_size tsize) as [t0 t1]. cbn [fst snd] in *.
  destruct (tiles_spec ny nx t0 t1 H0 H1) as [regions [-> Hreg]].
  exists regions. split; [reflexivity|]. split.
  - intros y x Hy Hx.
    set (ky := (Z.of_nat y / t0)%Z). set (kx := (Z.of_nat x / t1)%Z).
    assert (Hky : (ky * t0 <= Z.of_nat y < ky * t0 + t0)%Z).
    { unfold ky. pose proof (Z.mul_div_le (Z.of_nat y) t0 H0).
      pose proof (Z.mul_succ_div_gt (Z.of_nat y) t0 H0). lia. }
    assert (Hkx : (kx * t1 <= Z.of_nat x < kx * t1 + t1)%Z).
    { unfold kx. pose proof (Z.mul_div_le (Z.of_nat x) t1 H1).
      pose proof (Z.mul_succ_div_gt (Z.of_nat x) t1 H1). lia. }
    assert (Hk0 : (0 <= ky)%Z) by (unfold ky; apply Z.div_pos; lia).
    assert (Hx0 : (0 <= kx)%Z) by (unfold kx; apply Z.div_pos; lia).
    exists ((ky * t0, kx * t1), (ky * t0 + t0, kx * t1 + t1))%Z.
    split; [|split].
    + apply Hreg. exists ky, kx. split; [lia | reflexivity].
    + unfold contains. cbn [fst snd]. lia.
    + intros r' Hr' Hc. apply Hreg in Hr'.
      destruct Hr' as [ky' [kx' [[Hk0' [Hk' [Hx0' Hx']]] ->]]].
      unfold contains in Hc. cbn [fst snd] in Hc.
      assert (ky' = ky) by nia. assert (kx' = kx) by nia. now subst.
  - intros r Hr. apply Hreg in Hr.
    destruct Hr as [ky [kx [[Hk0 [Hk [Hx0 Hx]]] ->]]]. cbn [fst snd].
    repeat split; nia.
Qed.

(** Degenerate tile sizes.  A tile height of zero raises (the step of the
    row range is zero), and so does a tile width of zero on a map that has
    rows; a negative tile height or width raises nothing and silently gives
    no region at all. *)
Theorem get_regions_tile_degenerate (regfile : String.string) (ny nx : nat) (tsize : list Z) :
  hd String.EmptyString (split colon regfile) = "tile" ->
  ints int (firstn 2 (tl (split colon regfile))) = Ok tsize ->
  let run := get_regions int box_regions isfile file_regions (Some regfile) ny nx in
  (fst (tile_size tsize) = 0%Z -> run = Raise ValueError)
  /\ ((fst (tile_size tsize) < 0)%Z -> run = Ok [])
  /\ ((0 < fst (tile_size tsize))%Z -> (snd (tile_size tsize) < 0)%Z -> run = Ok [])
  /\ ((0 < fst (tile_size tsize))%Z -> snd (tile_size tsize) = 0%Z -> (0 < ny)%nat ->
      run = Raise ValueError).
Proof.
  intros Hname Hints run. unfold run, get_regions. rewrite Hname, Hints.
  cbn [String.eqb Ascii.eqb Bool.eqb bind]. cbn.
  destruct (tile_size tsize) as [t0 t1]. cbn [fst snd]. unfold tiles. cbn [fst snd].
  split; [|split; [|split]].
  - intros ->. reflexivity.
  - intros H0. unfold range0 at 1.
    replace ((t0 =? 0)%Z) with false by (symmetry; apply Z.eqb_neq; lia).
    replace ((t0 <? 0)%Z) with true by (symmetry; apply Z.ltb_lt; lia).
    reflexivity.
  - intros H0 H1.
    destruct (range0_spec ny t0 H0) as [ys [-> _]]. cbn [bind].
    assert (Hx : range0 nx t1 = Ok []).
    { unfold range0.
      replace ((t1 =? 0)%Z) with false by (symmetry; apply Z.eqb_neq; lia).
      replace ((t1 <? 0)%Z) with true by (symmetry; apply Z.ltb_lt; lia).
      reflexivity. }
    rewrite Hx. cbn [bind map]. rewrite traverse_ok. cbn [bind].
    f_equal. induction ys as [|y ys IH]; [reflexivity | exact IH].
  - intros H0 -> Hny. unfold range0 at 1.
    replace ((t0 =? 0)%Z) with false by (symmetry; apply Z.eqb_neq; lia).
    replace ((t0 <? 0)%Z) with false by (symmetry; apply Z.ltb_ge; lia).
    cbn [bind].
    assert (Hc : exists c, Z.to_nat ((Z.of_nat ny + t0 - 1) / t0) = S c).
    { assert (1 <= (Z.of_nat ny + t0 - 1) / t0)%Z.
      { apply Z.div_le_lower_bound; lia. }
      exists (Z.to_nat ((Z.of_nat ny + t0 - 1) / t0) - 1)%nat. lia. }
    destruct Hc as [c ->]. reflexivity.
Qed.

End Tiles.

Lemma get_regions_tile_witness :
  let int := fun s => if String.eqb s "100" then Some 100%Z else None in
  exists regions,
    get_regions int (fun _ => Ok []) (fun _ => false) (fun _ => Ok [])
      (Some "tile:100") 250 120 = Ok regions
    /\ (forall y x, (y < 250)%nat -> (x < 120)%nat ->
          exists r, In r regions /\ contains r (Z.of_nat y) (Z.of_nat x)
            /\ forall r', In r' regions -> contains r' (Z.of_nat y) (Z.of_nat x) -> r' = r)
    /\ (forall r, In r regions ->
          (0 <= fst (fst r) < Z.of_nat 250)%Z /\ (0 <= snd (fst r) < Z.of_nat 120)%Z
          /\ fst (snd r) = (fst (fst r) + 100)%Z
          /\ snd (snd r) = (snd (fst r) + 100)%Z).
Proof.
  intros int.
  apply (get_regions_tile int (fun _ => Ok []) (fun _ => false) (fun _ => Ok [])
           "tile:100" 250 120 [100%Z]); [reflexivity | reflexivity | simpl; lia | simpl; lia].
Defined.

Lemma get_regions_tile_degenerate_witness :
  let int := fun s => if String.eqb s "-5" then Some (-5)%Z else None in
  let run := get_regions int (fun _ => Ok []) (fun _ => false) (fun _ => Ok [])
               (Some "tile:-5") 250 120 in
  (fst (tile_size [(-5)%Z]) = 0%Z -> run = Raise ValueError)
  /\ ((fst (tile_size [(-5)%Z]) < 0)%Z -> run = Ok [])
  /\ ((0 < fst (tile_size [(-5)%Z]))%Z -> (snd (tile_size [(-5)%Z]) < 0)%Z -> run = Ok [])
  /\ ((0 < fst (tile_size [(-5)%Z]))%Z -> snd (tile_size [(-5)%Z]) = 0%Z -> (0 < 250)%nat ->
      run = Raise ValueError).
Proof.
  intros int.
  apply (get_regions_tile_degenerate int (fun _ => Ok []) (fun _ => false) (fun _ => Ok [])
           "tile:-5" 250 120 [(-5)%Z]); reflexivity.
Defined.

End RegionProps.

(** ** Pruning around bright sources *)

Section PruneProps.
Import Py Num Merge Prune.

Lemma nltb_asym (a b : num) : nltb a b = true -> nltb b a = false.
Proof.
  destruct a, b; simpl; try easy.
  intros H. apply Rltb_true in H. apply Rltb_false. lra.
Qed.

Lemma nltb_finite (a b : num) : nltb a b = true -> a <> NaN /\ b <> NaN.
Proof. destruct a, b; simpl; intros H; split; congruence. Qed.

Lemma takes_over_lt (a best : num) :
  best <> NaN -> a <> NaN -> takes_over a best = nltb best a.
Proof. destruct a, best; simpl; congruence. Qed.

Lemma argmax_from_keep (bi : nat) (best : num) (i : nat) (t : list num) :
  (forall a, In a t -> nltb a best = true) -> argmax_from bi best i t = bi.
Proof.
  revert i; induction t as [|a t IH]; intros i H; simpl; [reflexivity|].
  pose proof (H a (or_introl eq_refl)) as Ha.
  destruct (nltb_finite _ _ Ha) as [Hna Hnb].
  rewrite takes_over_lt, (nltb_asym _ _ Ha) by assumption.
  apply IH. intros b Hb. apply H. now right.
Qed.

Lemma argmax_from_strict (bi : nat) (best : num) (i : nat) (t1 : list num) (m : num)
    (t2 : list num) :
  nltb best m = true ->
  (forall a, In a t1 -> nltb a m = true) ->
  (forall a, In a t2 -> nltb a m = true) ->
  argmax_from bi best i (t1 ++ m :: t2) = (i + length t1)%nat.
Proof.
  revert bi best i; induction t1 as [|a t1 IH]; intros bi best i Hb H1 H2; simpl.
  - destruct (nltb_finite _ _ Hb) as [Hnb Hnm].
    rewrite takes_over_lt, Hb by assumption.
    rewrite argmax_from_keep by assumption. lia.
  - destruct (takes_over a best).
    + rewrite IH; [lia | apply H1; now left | intros b Hin; apply H1; now right | exact H2].
    + rewrite IH; [lia | exact Hb | intros b Hin; apply H1; now right | exact H2].
Qed.

Lemma argmax_split (l1 : list num) (m : num) (l2 : list num) :
  (forall a, In a l1 -> nltb a m = true) ->
  (forall a, In a l2 -> nltb a m = true) ->
  argmax (l1 ++ m :: l2) = Ok (length l1).
Proof.
  intros H1 H2. destruct l1 as [|x t1]; simpl.
  - now rewrite argmax_from_keep.
  - rewrite argmax_from_strict; [reflexivity | apply H1; now left | | exact H2].
    intros a Ha. apply H1. now right.
Qed.

Lemma argmax_from_lt (bi : nat) (best : num) (i : nat) (t : list num) :
  (bi < i)%nat -> (argmax_from bi best i t < i + length t)%nat.
Proof.
  revert bi best i; induction t as [|a t IH]; intros bi best i Hbi; simpl; [lia|].
  destruct (takes_over a best).
  - specialize (IH i a (S i) ltac:(lia)). lia.
  - specialize (IH bi best (S i) ltac:(lia)). lia.
Qed.

Lemma argmax_lt (l : list num) :
  l <> [] -> exists k, argmax l = Ok k /\ (k < length l)%nat.
Proof.
  destruct l as [|a t]; [congruence|]. intros _. simpl.
  eexists. split; [reflexivity|].
  pose proof (argmax_from_lt 0 a 1 t ltac:(lia)). lia.
Qed.

Lemma length_update {A : Type} (l : list A) (i : nat) (v : A) :
  length (update l i v) = length l.
Proof.
  revert i; induction l as [|a l IH]; intros [|i]; simpl; try reflexivity.
  now rewrite IH.
Qed.

Lemma nth_update_same {A : Type} (l : list A) (i : nat) (v d : A) :
  (i < length l)%nat -> nth i (update l i v) d = v.
Proof.
  revert i; induction l as [|a l IH]; intros [|i] Hi; simpl in *; try lia; [reflexivity|].
  apply IH. lia.
Qed.

Lemma nth_update_other {A : Type} (l : list A) (i j : nat) (v d : A) :
  i <> j -> nth j (update l i v) d = nth j l d.
Proof.
  revert i j; induction l as [|a l IH]; intros [|i] [|j] Hij; simpl; try reflexivity;
    try congruence.
  apply IH. congruence.
Qed.

(** Scattering values to distinct positions of an array. *)
Lemma scatter_spec {A : Type} (d : A) (group : list nat) (vals l : list A) :
  NoDup group -> length vals = length group ->
  (forall i, In i group -> (i < length l)%nat) ->
  let l' := fold_left (fun rej (p : nat * A) => update rej (fst p) (snd p))
                      (combine group vals) l in
  length l' = length l
  /\ (forall p, (p < length group)%nat -> nth (nth p group 0%nat) l' d = nth p vals d)
  /\ (forall i, ~ In i group -> nth i l' d = nth i l d).
Proof.
  revert vals l; induction group as [|g gs IH]; intros vals l Hnd Hlen Hin; simpl.
  - split; [reflexivity|]. split; [intros p Hp; simpl in Hp; lia | reflexivity].
  - destruct vals as [|v vs]; [discriminate|]. simpl.
    inversion Hnd as [|? ? Hg Hnd']; subst.
    destruct (IH vs (update l g v) Hnd') as [IH1 [IH2 IH3]].
    + simpl in Hlen. lia.
    + intros i Hi. rewrite length_update. apply Hin. now right.
    + split; [now rewrite IH1, length_update|]. split.
      * intros [|p] Hp.
        -- rewrite IH3 by exact Hg. apply nth_update_same. apply Hin. now left.
        -- apply IH2. simpl in Hp. lia.
      * intros i Hi. rewrite IH3 by (intros H; apply Hi; now right).
        apply nth_update_other. intros ->. apply Hi. now left.
Qed.

Section Groups.
Variable snrs : list num.

Lemma reject_group_spec (rejected : list bool) (group : list nat) :
  NoDup group -> group <> [] ->
  (forall i, In i group -> (i < length rejected)%nat) ->
  exists k rej',
    (k < length group)%nat
    /\ argmax (map (fun i => nth i snrs NaN) group) = Ok k
    /\ reject_group snrs rejected group = Ok rej'
    /\ length rej' = length rejected
    /\ (forall p, (p < length group)%nat ->
          nth (nth p group 0%nat) rej' false
          = nth (nth p group 0%nat) rejected false || negb (p =? k)%nat)
    /\ (forall i, ~ In i group -> nth i rej' false = nth i rejected false).
Proof.
  intros Hnd Hne Hin.
  destruct (argmax_lt (map (fun i => nth i snrs NaN) group)) as [k [Hk Hlt]].
  { destruct group; [congruence | discriminate]. }
  rewrite length_map in Hlt.
  unfold reject_group. rewrite Hk. cbn [bind].
  set (bad := map (fun p => negb (p =? k)%nat) (seq 0 (length group))).
  set (merged := map2 orb (map (fun i => nth i rejected false) group) bad).
  assert (Hlm : length merged = length group).
  { unfold merged, bad. rewrite length_map2, !length_map, length_seq. apply Nat.min_id. }
  destruct (scatter_spec false group merged rejected Hnd Hlm Hin) as [H1 [H2 H3]].
  exists k. eexists. split; [exact Hlt|]. split; [reflexivity|]. split; [reflexivity|].
  split; [exact H1|]. split; [|exact H3].
  intros p Hp. rewrite H2 by exact Hp. unfold merged, bad.
  rewrite (nth_map2 _ _ _ false false) by (rewrite ?length_map, ?length_seq; lia).
  rewrite (nth_map_in _ _ _ _ 0%nat) by exact Hp.
  rewrite (nth_map_in _ _ _ _ 0%nat) by (rewrite length_seq; exact Hp).
  now rewrite seq_nth by exact Hp.
Qed.

Lemma reject_groups_spec (groups : list (list nat)) (rejected : list bool) :
  (forall g, In g groups ->
     NoDup g /\ g <> [] /\ forall i, In i g -> (i < length rejected)%nat) ->
  exists rej',
    reject_groups snrs rejected groups = Ok rej'
    /\ length rej' = length rejected
    /\ (forall i, nth i rejected false = true -> nth i rej' false = true)
    /\ (forall g i j, In g groups -> In i g -> In j g ->
          nth i rej' false = false -> nth j rej' false = false -> i = j)
    /\ (forall i,
          (forall g, In g groups -> In i g ->
             exists g1 g2, g = g1 ++ i :: g2
               /\ argmax (map (fun i => nth i snrs NaN) g) = Ok (length g1)) ->
          nth i rej' false = nth i rejected false).
Proof.
  revert rejected; induction groups as [|g groups IH]; intros rejected Hg.
  - exists rejected. simpl. repeat split; auto. intros g i j [].
  - destruct (Hg g (or_introl eq_refl)) as [Hnd [Hne Hin]].
    destruct (reject_group_spec rejected g Hnd Hne Hin)
      as [k [rej1 [Hk [Harg [Hrun [Hlen1 [Hmem Hout]]]]]]].
    destruct (IH rej1) as [rej' [Hrun' [Hlen' [Hmono [Hone Hwin]]]]].
    { intros g' Hg'. destruct (Hg g' (or_intror Hg')) as [A [B C]].
      split; [exact A|]. split; [exact B|]. now rewrite Hlen1. }
    exists rej'. simpl. rewrite Hrun. cbn [bind].
    split; [exact Hrun'|]. split; [now rewrite Hlen', Hlen1|].
    assert (Hstep : forall i, nth i rejected false = true -> nth i rej1 false = true).
    { intros i Hi.
      destruct (in_dec Nat.eq_dec i g) as [Hig|Hig]; [|now rewrite Hout].
      destruct (In_nth g i 0%nat Hig) as [p [Hp <-]].
      rewrite Hmem by exact Hp. now rewrite Hi. }
    split; [intros i Hi; apply Hmono, Hstep, Hi|]. split.
    + intros g' i j [<-|Hg'] Hi Hj Ri Rj; [|eapply Hone; eassumption].
      assert (Ri1 : nth i rej1 false = false).
      { destruct (nth i rej1 false) eqn:E; [|reflexivity]. apply Hmono in E. congruence. }
      assert (Rj1 : nth j rej1 false = false).
      { destruct (nth j rej1 false) eqn:E; [|reflexivity]. apply Hmono in E. congruence. }
      destruct (In_nth g i 0%nat Hi) as [p [Hp Ep]].
      destruct (In_nth g j 0%nat Hj) as [q [Hq Eq]].
      rewrite <- Ep in Ri1. rewrite <- Eq in Rj1.
      rewrite Hmem in Ri1, Rj1 by assumption.
      apply orb_false_elim in Ri1. apply orb_false_elim in Rj1.
      destruct Ri1 as [_ Ri1]. destruct Rj1 as [_ Rj1].
      apply negb_false_iff, Nat.eqb_eq in Ri1. apply negb_false_iff, Nat.eqb_eq in Rj1.
      congruence.
    + intros i Hi. rewrite Hwin.
      * destruct (in_dec Nat.eq_dec i g) as [Hig|Hig]; [|now apply Hout].
        destruct (Hi g (or_introl eq_refl) Hig) as [g1 [g2 [Eg Ea]]].
        rewrite Harg in Ea. injection Ea as ->.
        assert (Ei : nth (length g1) g 0%nat = i).
        { rewrite Eg, app_nth2, Nat.sub_diag by lia. reflexivity. }
        rewrite <- Ei at 1 2. rewrite Hmem.
        -- now rewrite Nat.eqb_refl, orb_false_r, Ei.
        -- rewrite Eg, length_app. simpl. lia.
      * intros g' Hg' Hig'. apply Hi; [now right | exact Hig'].
Qed.

End Groups.

Lemma select_In {A : Type} (d : A) (mask : list bool) (l : list A) (x : A) :
  In x (select mask l) ->
  exists b, (b < length l)%nat /\ nth b mask false = true /\ x = nth b l d.
Proof.
  unfold select. revert mask; induction l as [|a l IH]; intros [|m mask]; simpl;
    try contradiction.
  destruct m; simpl.
  - intros [<-|H].
    + exists 0%nat. split; [lia|]. split; reflexivity.
    + destruct (IH mask H) as [b [Hb [Hm Hx]]]. exists (S b). split; [lia|]. now split.
  - intros H. destruct (IH mask H) as [b [Hb [Hm Hx]]]. exists (S b). split; [lia|]. now split.
Qed.

Lemma In_select {A : Type} (d : A) (mask : list bool) (l : list A) (b : nat) :
  (b < length l)%nat -> nth b mask false = true -> In (nth b l d) (select mask l).
Proof.
  unfold select. revert mask b; induction l as [|a l IH]; intros [|m mask] [|b] Hb Hm;
    simpl in *; try lia; try discriminate.
  - subst m. now left.
  - destruct m; simpl; [right|]; apply IH; (lia || assumption).
Qed.

Section PruneNearBright.
Variable rewind : R -> R.

(** [prune_near_bright] on a catalog with finite positions, for a
    non-negative radius: the call returns; of the sources within [rlim] of
    any one bright source (the bright source included) at most one is
    returned; a source that is within [rlim] of no bright source is always
    returned; and so is a source whose signal-to-noise ratio is strictly
    larger than that of every other source.  The returned entries carry
    the rewound right ascension, as does the caller's catalog afterwards. *)
Theorem prune_near_bright_groups (cat : list entry) (lim_bright rlim : R) :
  0 <= rlim ->
  (forall e, In e cat -> is_finite (ra e) = true /\ is_finite (dec e) = true) ->
  let n := length cat in
  let pos := fun i => position (rewound rewind (nth i cat zero_entry)) in
  let bright := fun b => nltb (Fin lim_bright) (snr (nth b cat zero_entry)) = true in
  exists rejected,
    length rejected = n
    /\ prune_near_bright rewind cat lim_bright rlim
       = Ok (map (rewound rewind) cat,
             select (map negb rejected) (map (rewound rewind) cat))
    /\ (forall b i j, (b < n)%nat -> (i < n)%nat -> (j < n)%nat -> bright b ->
          near rlim (pos b) (pos i) = true -> near rlim (pos b) (pos j) = true ->
          nth i rejected false = false -> nth j rejected false = false -> i = j)
    /\ (forall i, (i < n)%nat ->
          (forall b, (b < n)%nat -> bright b -> near rlim (pos b) (pos i) = false) ->
          nth i rejected false = false)
    /\ (forall i, (i < n)%nat ->
          (forall j, (j < n)%nat -> j <> i ->
             nltb (snr (nth j cat zero_entry)) (snr (nth i cat zero_entry)) = true) ->
          nth i rejected false = false).
Proof.
  intros Hr Hfin n pos bright.
  set (rcat := map (rewound rewind) cat).
  set (ps := map position rcat).
  set (mask := map (fun s => nltb (Fin lim_bright) s) (map snr cat)).
  set (groups := query_ball_tree (select mask ps) ps rlim).
  assert (Hlps : length ps = n) by (unfold ps, rcat; now rewrite !length_map).
  assert (Hps : forall i, (i < n)%nat -> nth i ps (NaN, NaN) = pos i).
  { intros i Hi. unfold ps, rcat, pos.
    rewrite (nth_map_in _ _ _ _ zero_entry) by (now rewrite length_map).
    now rewrite (nth_map_in _ _ _ _ zero_entry). }
  assert (Hmask : forall b, (b < n)%nat ->
            nth b mask false = nltb (Fin lim_bright) (snr (nth b cat zero_entry))).
  { intros b Hb. unfold mask.
    rewrite (nth_map_in _ _ _ _ NaN) by (now rewrite length_map).
    now rewrite (nth_map_in _ _ _ _ zero_entry). }
  assert (Hsnr : forall j, (j < n)%nat ->
            nth j (map snr cat) NaN = snr (nth j cat zero_entry)).
  { intros j Hj. now apply nth_map_in. }
  assert (Hself : forall i, (i < n)%nat -> near rlim (pos i) (pos i) = true).
  { intros i Hi. unfold pos.
    destruct (Hfin (nth i cat zero_entry) (nth_In _ _ Hi)) as [F1 F2].
    destruct (position_finite rewind _ F1 F2) as [x [y ->]]. apply near_refl. }
  (* every group belongs to a bright source and holds exactly what is near it *)
  assert (Hgroup : forall g, In g groups ->
            exists b, (b < n)%nat /\ bright b
              /\ forall i, In i g <-> (i < n)%nat /\ near rlim (pos b) (pos i) = true).
  { intros g Hg. unfold groups, query_ball_tree in Hg.
    apply in_map_iff in Hg. destruct Hg as [p [<- Hp]].
    destruct (select_In (NaN, NaN) _ _ _ Hp) as [b [Hb [Hm ->]]].
    rewrite Hlps in Hb. exists b. split; [exact Hb|]. split.
    { unfold bright. now rewrite <- Hmask. }
    intros i. rewrite filter_In, in_seq, Hlps. split.
    - intros [Hi Hn]. split; [lia|]. rewrite !Hps in Hn by lia. exact Hn.
    - intros [Hi Hn]. split; [lia|]. now rewrite !Hps by lia. }
  assert (Hof : forall b, (b < n)%nat -> bright b ->
            exists g, In g groups
              /\ forall i, In i g <-> (i < n)%nat /\ near rlim (pos b) (pos i) = true).
  { intros b Hb Hbr.
    exists (filter (fun j => near rlim (nth b ps (NaN, NaN)) (nth j ps (NaN, NaN)))
                   (seq 0 (length ps))).
    split.
    - unfold groups, query_ball_tree.
      apply in_map_iff. exists (nth b ps (NaN, NaN)). split; [reflexivity|].
      apply In_select; [lia|]. rewrite Hmask by exact Hb. exact Hbr.
    - intros i. rewrite filter_In, in_seq, Hlps. split.
      + intros [Hi Hn]. split; [lia|]. rewrite !Hps in Hn by lia. exact Hn.
      + intros [Hi Hn]. split; [lia|]. now rewrite !Hps by lia. }
  assert (Hwf : forall g, In g groups ->
            NoDup g /\ g <> [] /\ forall i, In i g -> (i < length (repeat false n))%nat).
  { intros g Hg. split; [|split].
    - unfold groups, query_ball_tree in Hg.
      apply in_map_iff in Hg. destruct Hg as [p [<- _]].
      apply NoDup_filter, seq_NoDup.
    - destruct (Hgroup g Hg) as [b [Hb [_ Hmem]]].
      intros ->. apply (proj2 (Hmem b)). split; [exact Hb | now apply Hself].
    - intros i Hi. rewrite repeat_length.
      destruct (Hgroup g Hg) as [b [_ [_ Hmem]]]. now apply Hmem. }
  destruct (reject_groups_spec (map snr cat) groups (repeat false n) Hwf)
    as [rejected [Hrun [Hlen [_ [Hone Hwin]]]]].
  assert (Hinit : forall i, nth i (repeat false n) false = false).
  { intros i. destruct (Nat.lt_ge_cases i n) as [Hi|Hi].
    - now rewrite nth_repeat_lt.
    - apply nth_overflow. now rewrite repeat_length. }
  exists rejected. split; [now rewrite Hlen, repeat_length|]. split.
  { assert (Hall : forallb finite_point ps = true)
      by (now apply positions_finite).
    assert (Hsel : forallb finite_point (select mask ps) = true).
    { apply forallb_forall. intros p Hp.
      destruct (select_In (NaN, NaN) _ _ _ Hp) as [b [Hb [_ ->]]].
      apply (proj1 (forallb_forall _ _) Hall), nth_In, Hb. }
    unfold prune_near_bright, rejected_of, cKDTree. cbv zeta.
    unfold mask, ps, rcat in Hall, Hsel. rewrite Hall, Hsel. cbn [bind].
    rewrite length_map.
    unfold groups, mask, ps, rcat, n in Hrun. rewrite Hrun. reflexivity. }
  split; [|split].
  - intros b i j Hb Hi Hj Hbr Ni Nj Ri Rj.
    destruct (Hof b Hb Hbr) as [g [Hg Hmem]].
    apply (Hone g i j Hg); try assumption; apply Hmem; now split.
  - intros i Hi Hfar. rewrite Hwin; [apply Hinit|].
    intros g Hg Hig. exfalso.
    destruct (Hgroup g Hg) as [b [Hb [Hbr Hmem]]].
    apply Hmem in Hig. destruct Hig as [_ Hn].
    rewrite (Hfar b Hb Hbr) in Hn. discriminate.
  - intros i Hi Hbest. rewrite Hwin; [apply Hinit|].
    intros g Hg Hig.
    destruct (in_split i g Hig) as [g1 [g2 Eg]].
    exists g1, g2. split; [exact Eg|].
    destruct (Hwf g Hg) as [Hnd _].
    destruct (Hgroup g Hg) as [b [_ [_ Hmem]]].
    rewrite Eg in Hnd. apply NoDup_remove_2 in Hnd.
    rewrite Eg, map_app. simpl. rewrite <- (length_map (fun i => nth i (map snr cat) NaN) g1).
    assert (Hlow : forall j, In j (g1 ++ g2) ->
              nltb (nth j (map snr cat) NaN) (nth i (map snr cat) NaN) = true).
    { intros j Hj. assert (Hjg : In j g).
      { rewrite Eg. apply in_app_or in Hj. apply in_or_app.
        destruct Hj; [now left | right; now right]. }
      apply Hmem in Hjg. destruct Hjg as [Hjn _].
      rewrite !Hsnr by assumption. apply Hbest; [exact Hjn|].
      intros ->. contradiction. }
    apply argmax_split.
    + intros a Ha. apply in_map_iff in Ha. destruct Ha as [j [<- Hj]].
      apply Hlow, in_or_app. now left.
    + intros a Ha. apply in_map_iff in Ha. destruct Ha as [j [<- Hj]].
      apply Hlow, in_or_app. now right.
Qed.

End PruneNearBright.

Lemma prune_near_bright_groups_witness :
  let cat := [source (Fin 0) (Fin 0) (Fin 10) (Fin 1) (Fin 500) (Fin 1);
              source (Fin 0) (Fin 0) (Fin 10) (Fin 1) (Fin 5) (Fin 1)] in
  let n := length cat in
  let pos := fun i => position (rewound rewind_principal (nth i cat zero_entry)) in
  let bright := fun b => nltb (Fin 100) (snr (nth b cat zero_entry)) = true in
  exists rejected,
    length rejected = n
    /\ prune_near_bright rewind_principal cat 100 arcmin
       = Ok (map (rewound rewind_principal) cat,
             select (map negb rejected) (map (rewound rewind_principal) cat))
    /\ (forall b i j, (b < n)%nat -> (i < n)%nat -> (j < n)%nat -> bright b ->
          near arcmin (pos b) (pos i) = true -> near arcmin (pos b) (pos j) = true ->
          nth i rejected false = false -> nth j rejected false = false -> i = j)
    /\ (forall i, (i < n)%nat ->
          (forall b, (b < n)%nat -> bright b -> near arcmin (pos b) (pos i) = false) ->
          nth i rejected false = false)
    /\ (forall i, (i < n)%nat ->
          (forall j, (j < n)%nat -> j <> i ->
             nltb (snr (nth j cat zero_entry)) (snr (nth i cat zero_entry)) = true) ->
          nth i rejected false = false).
Proof.
  intros cat.
  apply (prune_near_bright_groups rewind_principal cat 100 arcmin).
  - pose proof arcmin_pos. lra.
  - intros e [<-|[<-|[]]]; split; reflexivity.
Defined.

End PruneProps.

(** ** Catalog files *)

Section CatalogProps.
Import Num Merge Catalog.

Lemma nmul_ndiv (a : num) (d : R) : 0 < d -> nmul (ndiv a (Fin d)) (Fin d) = a.
Proof.
  intros Hd. destruct a as [x| | |]; simpl; unfold scale_inf.
  - destruct (Req_dec_T d 0); [lra|]. simpl. f_equal. field. lra.
  - destruct (Rlt_dec d 0); [lra|]. simpl. unfold scale_inf.
    destruct (Rlt_dec 0 d); [reflexivity | lra].
  - destruct (Rlt_dec d 0); [lra|]. simpl. unfold scale_inf.
    destruct (Rlt_dec 0 d); [reflexivity | lra].
  - reflexivity.
Qed.

Lemma ndiv_nmul (a : num) (d : R) : 0 < d -> ndiv (nmul a (Fin d)) (Fin d) = a.
Proof.
  intros Hd. destruct a as [x| | |]; simpl; unfold scale_inf.
  - destruct (Req_dec_T d 0); [lra|]. f_equal. field. lra.
  - destruct (Rlt_dec 0 d); [|lra]. simpl. destruct (Rlt_dec d 0); [lra | reflexivity].
  - destruct (Rlt_dec 0 d); [|lra]. simpl. destruct (Rlt_dec d 0); [lra | reflexivity].
  - reflexivity.
Qed.

Lemma map_nth_seq {A : Type} (d : A) (l : list A) :
  map (fun k => nth k l d) (seq 0 (length l)) = l.
Proof.
  induction l as [|a l IH]; [reflexivity|]. simpl. f_equal.
  rewrite <- seq_shift, map_map. exact IH.
Qed.

Section Units.
Variable degree : R.
Variable to_int : num -> Z.
Hypothesis degree_pos : 0 < degree.
Hypothesis to_int_exact : forall z, to_int (Fin (IZR z)) = z.

(** Reading back the table that [write_catalog_fits] stores gives the
    catalog that was written, field by field and in the same order (in
    exact arithmetic): the unit conversions of the reader undo those of the
    writer, also for infinite and NaN values. *)
Theorem catalog_fits_roundtrip (cat : list entry) :
  read_catalog_fits degree (write_catalog_fits degree cat) = cat.
Proof.
  unfold read_catalog_fits, write_catalog_fits. rewrite map_map.
  rewrite <- (map_id cat) at 2. apply map_ext. intros e.
  destruct e as [r d [[a0 a1] a2] [[b0 b1] b2] [[f0 f1] f2] [[g0 g1] g2] np st].
  unfold convert, vmap, c0, c1, c2; simpl.
  rewrite !nmul_ndiv, !ndiv_nmul by lra. reflexivity.
Qed.

(** The column layout and the units of [read_catalog_txt] invert those of
    [write_catalog_txt]: from the seventeen columns that the writer hands
    to the text formatter, taken before their digits are rounded, the
    reader rebuilds the catalog that was written, ignoring the
    signal-to-noise column. *)
Theorem catalog_txt_columns_roundtrip (cat : list entry) :
  catalog_of_columns degree to_int (catalog_columns degree cat) = cat.
Proof.
  unfold catalog_of_columns, catalog_columns. cbn [nth].
  rewrite length_map.
  transitivity (map (fun k => nth k cat zero_entry) (seq 0 (length cat)));
    [|apply map_nth_seq].
  apply map_ext_in. intros k Hk. apply in_seq in Hk.
  rewrite !(nth_map_in _ _ _ _ zero_entry) by lia.
  destruct (nth k cat zero_entry)
    as [r d [[a0 a1] a2] [[b0 b1] b2] [[f0 f1] f2] [[g0 g1] g2] np st].
  unfold c0, c1, c2; simpl.
  rewrite !nmul_ndiv, !ndiv_nmul, to_int_exact by lra. reflexivity.
Qed.

End Units.

Lemma catalog_fits_roundtrip_witness :
  let cat := [source (Fin 1) (Fin 0) (Fin 10) (Fin 1) (Fin 5) (Fin 1)] in
  read_catalog_fits (PI / 180) (write_catalog_fits (PI / 180) cat) = cat.
Proof.
  intros cat. apply catalog_fits_roundtrip. pose proof PI_RGT_0. lra.
Defined.

Lemma catalog_txt_columns_roundtrip_witness :
  let to_int := fun a => match a with Fin x => Int_part x | _ => 0%Z end in
  let cat := [source (Fin 1) (Fin 0) (Fin 10) (Fin 1) (Fin 5) (Fin 1)] in
  catalog_of_columns (PI / 180) to_int (catalog_columns (PI / 180) cat) = cat.
Proof.
  intros to_int cat. apply catalog_txt_columns_roundtrip.
  - pose proof PI_RGT_0. lra.
  - intros z. unfold to_int. apply Int_part_unit. lra.
Defined.

End CatalogProps.

(** ** Source-centric scans *)

Section SliceProps.
Import Py.

Lemma bound_inside (len i : Z) : (0 <= i <= len)%Z -> bound len i = i.
Proof.
  intros H. unfold bound.
  destruct (Z.ltb_spec i 0); lia.
Qed.

Lemma slice_inside {A : Type} (l : list A) (i j : Z) :
  (0 <= i <= j)%Z -> (j <= Z.of_nat (length l))%Z ->
  slice l i j = firstn (Z.to_nat (j - i)) (skipn (Z.to_nat i) l).
Proof.
  intros H1 H2. unfold slice. now rewrite !bound_inside by lia.
Qed.

Lemma slice_length {A : Type} (l : list A) (i j : Z) :
  (0 <= i <= j)%Z -> (j <= Z.of_nat (length l))%Z ->
  length (slice l i j) = Z.to_nat (j - i).
Proof.
  intros H1 H2. rewrite slice_inside by assumption.
  rewrite length_firstn, length_skipn. lia.
Qed.

Lemma slice_In {A : Type} (l : list A) (i j : Z) (x : A) : In x (slice l i j) -> In x l.
Proof. unfold slice. intros H. eapply In_skipn, In_firstn, H. Qed.

Lemma slice_map {A B : Type} (f : A -> B) (l : list A) (i j : Z) :
  slice (map f l) i j = map f (slice l i j).
Proof. unfold slice. now rewrite length_map, skipn_map, firstn_map. Qed.

Lemma slice_app_mid {A : Type} (pre mid post : list A) :
  slice (pre ++ mid ++ post) (Z.of_nat (length pre))
        (Z.of_nat (length pre) + Z.of_nat (length mid)) = mid.
Proof.
  rewrite slice_inside by (rewrite ?length_app; lia).
  replace (Z.to_nat (Z.of_nat (length pre) + Z.of_nat (length mid) - Z.of_nat (length pre)))
    with (length mid) by lia.
  rewrite Nat2Z.id, skipn_app, skipn_all, Nat.sub_diag. simpl.
  rewrite firstn_app, firstn_all, Nat.sub_diag. simpl. apply app_nil_r.
Qed.

Lemma position_valid {A : Type} (l : list A) (i : Z) :
  (0 <= i < Z.of_nat (length l))%Z -> position l i = Ok (Z.to_nat i).
Proof.
  intros H. unfold position.
  replace ((i <? 0)%Z) with false by (symmetry; apply Z.ltb_ge; lia).
  replace ((0 <=? i)%Z) with true by (symmetry; apply Z.leb_le; lia).
  replace ((i <? Z.of_nat (length l))%Z) with true by (symmetry; apply Z.ltb_lt; lia).
  reflexivity.
Qed.

Lemma item_valid {A : Type} (d : A) (l : list A) (i : Z) :
  (0 <= i < Z.of_nat (length l))%Z -> item d l i = Ok (nth (Z.to_nat i) l d).
Proof. intros H. unfold item. now rewrite position_valid. Qed.

Lemma traverse_valid {A B : Type} (f : A -> result B) (g : A -> B) (l : list A) :
  (forall a, In a l -> f a = Ok (g a)) -> traverse f l = Ok (map g l).
Proof.
  intros H. rewrite (traverse_ext f (fun a => Ok (g a))) by exact H. apply traverse_ok.
Qed.

Lemma take_valid {A : Type} (d : A) (l : list A) (inds : list Z) :
  (forall i, In i inds -> (0 <= i < Z.of_nat (length l))%Z) ->
  take d l inds = Ok (map (fun i => nth (Z.to_nat i) l d) inds).
Proof.
  intros H. unfold take. apply traverse_valid.
  intros i Hi. now apply item_valid, H.
Qed.

(** Writing a slice over the part of an array that follows [done]. *)
Lemma assign_slice_next {A : Type} (done rest src : list A) :
  (length src <= length rest)%nat ->
  assign_slice (done ++ rest) (Z.of_nat (length done))
               (Z.of_nat (length done) + Z.of_nat (length src)) src
  = Ok (done ++ src ++ skipn (length src) rest).
Proof.
  intros Hlen. unfold assign_slice.
  rewrite !bound_inside by (rewrite length_app; lia).
  replace (Z.to_nat (Z.of_nat (length done) + Z.of_nat (length src) - Z.of_nat (length done)))
    with (length src) by lia.
  rewrite Nat.eqb_refl, Nat2Z.id.
  rewrite firstn_app, firstn_all, Nat.sub_diag. simpl. rewrite app_nil_r.
  rewrite skipn_app, skipn_all2 by lia.
  replace (length done + length src - length done)%nat with (length src) by lia.
  reflexivity.
Qed.

End SliceProps.

Section SelectProps.
Import Py Scan.
Variable self : SrcScan.
Hypothesis wf : well_formed self.

Lemma cell_valid (src det : Z) :
  (0 <= src < Z.of_nat (length (offsets self)))%Z ->
  (0 <= det < Z.of_nat (length (dets self)))%Z ->
  let o := offset_of self (Z.to_nat src) (Z.to_nat det) in
  cell self src det = Ok o
  /\ (0 <= fst o <= snd o)%Z /\ (snd o <= Z.of_nat (length (rangesets self)))%Z.
Proof.
  intros Hs Hd o. unfold cell.
  rewrite item_valid by exact Hs. cbn [bind].
  set (r := nth (Z.to_nat src) (offsets self) []).
  assert (Hr : In r (offsets self)) by (apply nth_In; lia).
  pose proof (wf_rows _ wf r Hr) as Hlen.
  rewrite item_valid by lia.
  split; [reflexivity|].
  assert (Ho : In o r) by (unfold o, offset_of; fold r; apply nth_In; lia).
  destruct (wf_offsets _ wf r o Hr Ho) as [H1 H2]. split; assumption.
Qed.

Lemma slice_dets_spec (src : Z) (ds : list Z) (nset : Z) :
  (0 <= src < Z.of_nat (length (offsets self)))%Z ->
  (forall det, In det ds -> (0 <= det < Z.of_nat (length (dets self)))%Z) ->
  exists row chunks,
    slice_dets self src ds nset = Ok (row, chunks, (nset + Z.of_nat (length (concat chunks)))%Z)
    /\ length row = length ds
    /\ length chunks = length ds
    /\ (forall c, In c (concat chunks) -> In c (rangesets self))
    /\ forall pre post di, Z.of_nat (length pre) = nset -> (di < length ds)%nat ->
         let o' := nth di row (0, 0)%Z in
         let o := offset_of self (Z.to_nat src) (Z.to_nat (nth di ds 0%Z)) in
         slice (pre ++ concat chunks ++ post) (fst o') (snd o')
         = slice (rangesets self) (fst o) (snd o).
Proof.
  intros Hs. revert nset. induction ds as [|det rest IH]; intros nset Hd.
  - exists [], []. simpl. rewrite Z.add_0_r.
    repeat split; try reflexivity; try (intros; contradiction).
    intros pre post di _ Hdi. simpl in Hdi. lia.
  - destruct (cell_valid src det Hs (Hd det (or_introl eq_refl))) as [Hcell [Ho1 Ho2]].
    set (o := offset_of self (Z.to_nat src) (Z.to_nat det)) in *.
    set (chunk := slice (rangesets self) (fst o) (snd o)).
    assert (Hchunk : Z.of_nat (length chunk) = (snd o - fst o)%Z).
    { unfold chunk. rewrite slice_length by assumption. lia. }
    destruct (IH (nset + (snd o - fst o))%Z (fun d Hin => Hd d (or_intror Hin)))
      as [row [chunks [Hrun [Hlr [Hlc [Hin Hsl]]]]]].
    exists ((nset, nset + (snd o - fst o))%Z :: row), (chunk :: chunks).
    split; [|split; [|split; [|split]]].
    + simpl. rewrite Hcell. cbn [bind]. rewrite Hrun. cbn [bind fst snd].
      do 2 f_equal. rewrite length_app. lia.
    + simpl. now rewrite Hlr.
    + simpl. now rewrite Hlc.
    + intros c Hc. simpl in Hc. apply in_app_or in Hc. destruct Hc as [Hc|Hc].
      * eapply slice_In, Hc.
      * now apply Hin.
    + intros pre post [|di] Hpre Hdi.
      * cbn [nth fst snd concat]. rewrite <- app_assoc. rewrite <- Hpre, <- Hchunk.
        apply slice_app_mid.
      * cbn [nth concat]. rewrite <- app_assoc.
        rewrite (app_assoc pre chunk). apply Hsl.
        -- rewrite length_app. lia.
        -- simpl in Hdi. lia.
Qed.

Lemma slice_srcs_spec (ss ds : list Z) (nset : Z) :
  (forall src, In src ss -> (0 <= src < Z.of_nat (length (offsets self)))%Z) ->
  (forall det, In det ds -> (0 <= det < Z.of_nat (length (dets self)))%Z) ->
  exists offs chunks,
    slice_srcs self ss ds nset = Ok (offs, chunks, (nset + Z.of_nat (length (concat chunks)))%Z)
    /\ length offs = length ss
    /\ length chunks = (length ss * length ds)%nat
    /\ (forall c, In c (concat chunks) -> In c (rangesets self))
    /\ forall pre post si di, Z.of_nat (length pre) = nset ->
         (si < length ss)%nat -> (di < length ds)%nat ->
         let o' := nth di (nth si offs []) (0, 0)%Z in
         let o := offset_of self (Z.to_nat (nth si ss 0%Z)) (Z.to_nat (nth di ds 0%Z)) in
         slice (pre ++ concat chunks ++ post) (fst o') (snd o')
         = slice (rangesets self) (fst o) (snd o).
Proof.
  intros Hs Hd. revert nset Hs. induction ss as [|src rest IH]; intros nset Hs.
  - exists [], []. simpl. rewrite Z.add_0_r.
    repeat split; try reflexivity; try (intros; contradiction).
    intros pre post si di _ Hsi. simpl in Hsi. lia.
  - destruct (slice_dets_spec src ds nset (Hs src (or_introl eq_refl)) Hd)
      as [row [chunks1 [Hrun1 [Hlr [Hlc1 [Hin1 Hsl1]]]]]].
    destruct (IH (nset + Z.of_nat (length (concat chunks1)))%Z
                 (fun s Hin => Hs s (or_intror Hin)))
      as [offs [chunks [Hrun [Hlo [Hlc [Hin Hsl]]]]]].
    exists (row :: offs), (chunks1 ++ chunks).
    split; [|split; [|split; [|split]]].
    + simpl. rewrite Hrun1. cbn [bind fst snd]. rewrite Hrun. cbn [bind fst snd].
      do 2 f_equal. rewrite concat_app, length_app. lia.
    + simpl. now rewrite Hlo.
    + rewrite length_app, Hlc1, Hlc. simpl. lia.
    + intros c Hc. rewrite concat_app in Hc. apply in_app_or in Hc.
      destruct Hc; [now apply Hin1 | now apply Hin].
    + intros pre post [|si] di Hpre Hsi Hdi.
      * cbn [nth]. rewrite concat_app, <- app_assoc. now apply Hsl1.
      * cbn [nth]. rewrite concat_app, <- app_assoc.
        rewrite (app_assoc pre (concat chunks1)). apply Hsl.
        -- rewrite length_app. lia.
        -- simpl in Hsi. lia.
        -- exact Hdi.
Qed.

Lemma positions_valid (rs : list Z) :
  (forall r, In r rs -> In r (rangesets self)) ->
  traverse (position (ranges self)) rs = Ok (map Z.to_nat rs).
Proof.
  intros H. apply traverse_valid. intros r Hr.
  apply position_valid, (wf_rangesets _ wf), H, Hr.
Qed.

Lemma used_ranges_spec (positions : list nat) :
  NoDup (used_ranges self positions)
  /\ forall i, In i (used_ranges self positions)
       <-> (i < length (ranges self))%nat /\ In i positions.
Proof.
  unfold used_ranges. split; [apply NoDup_filter, seq_NoDup|].
  intros i. rewrite filter_In, in_seq, existsb_exists. split.
  - intros [Hi [x [Hx Ex]]]. apply Nat.eqb_eq in Ex. subst x. split; [lia | exact Hx].
  - intros [Hi Hx]. split; [lia|]. exists i. split; [exact Hx | apply Nat.eqb_refl].
Qed.

Lemma inverse_map_spec (positions : list nat) (i : nat) :
  let rmap := used_ranges self positions in
  let irmap := inverse_map self rmap in
  In i rmap ->
  exists k, (k < length rmap)%nat /\ nth k rmap 0%nat = i /\ nth i irmap 0%Z = Z.of_nat k.
Proof.
  intros rmap irmap Hi.
  destruct (used_ranges_spec positions) as [Hnd Hmem]. fold rmap in Hnd, Hmem.
  destruct (scatter_spec 0%Z rmap (arange (length rmap)) (repeat 0%Z (length (ranges self))))
    as [_ [Hat _]].
  - exact Hnd.
  - unfold arange. now rewrite length_map, length_seq.
  - intros j Hj. rewrite repeat_length. now apply Hmem.
  - destruct (In_nth rmap i 0%nat Hi) as [k [Hk Ek]].
    exists k. split; [exact Hk|]. split; [exact Ek|].
    unfold irmap, inverse_map. rewrite <- Ek, Hat by exact Hk.
    unfold arange. rewrite (nth_map_in _ _ _ _ 0%nat) by (now rewrite length_seq).
    now rewrite seq_nth.
Qed.

Lemma sum_filter_le (f : nat -> Z) (p : nat -> bool) (l : list nat) :
  (forall i, In i l -> (0 <= f i)%Z) ->
  (fold_right Z.add 0 (map f (filter p l)) <= fold_right Z.add 0 (map f l))%Z.
Proof.
  induction l as [|a l IH]; intros H; simpl; [lia|].
  pose proof (H a (or_introl eq_refl)).
  specialize (IH (fun i Hi => H i (or_intror Hi))).
  destruct (p a); simpl; lia.
Qed.

Lemma kept_total (positions : list nat) :
  let ranges' := map (fun i => nth i (ranges self) (0, 0)%Z) (used_ranges self positions) in
  (0 <= fold_right Z.add 0 (map (fun r => snd r - fst r) ranges')
   <= Z.of_nat (length (tod self)))%Z
  /\ forall r, In r ranges' -> In r (ranges self).
Proof.
  intros ranges'. split.
  - set (f := fun i => let r := nth i (ranges self) (0, 0)%Z in (snd r - fst r)%Z).
    assert (Hf : forall i, In i (seq 0 (length (ranges self))) -> (0 <= f i)%Z).
    { intros i Hi. apply in_seq in Hi. unfold f.
      destruct (wf_ranges _ wf (nth i (ranges self) (0, 0)%Z)) as [H1 _];
        [apply nth_In; lia | cbv zeta; lia]. }
    assert (Heq : map (fun r => (snd r - fst r)%Z) ranges'
                  = map f (used_ranges self positions)).
    { unfold ranges'. now rewrite map_map. }
    rewrite Heq. split.
    + unfold used_ranges.
      assert (Hge : forall l, (forall i, In i l -> (0 <= f i)%Z) ->
                (0 <= fold_right Z.add 0 (map f l))%Z).
      { induction l as [|a l IHl]; intros Hl; simpl; [lia|].
        pose proof (Hl a (or_introl eq_refl)).
        specialize (IHl (fun i Hi => Hl i (or_intror Hi))). lia. }
      apply Hge. intros i Hi. apply filter_In in Hi. now apply Hf.
    + eapply Z.le_trans; [apply sum_filter_le, Hf|].
      replace (map f (seq 0 (length (ranges self))))
        with (map (fun r : Z * Z => (snd r - fst r)%Z) (ranges self)).
      * apply (wf_total _ wf).
      * rewrite <- (map_nth_seq (0, 0)%Z (ranges self)) at 1. now rewrite map_map.
  - intros r Hr. unfold ranges' in Hr. apply in_map_iff in Hr.
    destruct Hr as [i [<- Hi]]. apply used_ranges_spec in Hi. apply nth_In. lia.
Qed.

Lemma firstn_prefix {A : Type} (l done chunk : list A) :
  firstn (length done + length chunk) l = done ++ chunk ->
  firstn (length done) l = done
  /\ slice l (Z.of_nat (length done)) (Z.of_nat (length done) + Z.of_nat (length chunk))
     = chunk.
Proof.
  intros H.
  assert (Hlen : (length done + length chunk <= length l)%nat).
  { apply (f_equal (@length A)) in H. rewrite length_firstn, length_app in H. lia. }
  split.
  - rewrite <- (firstn_skipn (length done + length chunk) l), H, <- app_assoc.
    rewrite firstn_app, firstn_all, Nat.sub_diag. simpl. apply app_nil_r.
  - rewrite <- (firstn_skipn (length done + length chunk) l), H, <- app_assoc.
    apply slice_app_mid.
Qed.

Lemma place_next {A : Type} (src done rest : list A) (i1 i2 : Z) :
  (0 <= i1 <= i2)%Z -> (i2 <= Z.of_nat (length src))%Z ->
  (Z.to_nat (i2 - i1) <= length rest)%nat ->
  length (slice src i1 i2) = Z.to_nat (i2 - i1)
  /\ assign_slice (done ++ rest) (Z.of_nat (length done))
                  (Z.of_nat (length done) + i2 - i1) (slice src i1 i2)
     = Ok ((done ++ slice src i1 i2) ++ skipn (Z.to_nat (i2 - i1)) rest).
Proof.
  intros H1 H2 H3.
  assert (Hl : length (slice src i1 i2) = Z.to_nat (i2 - i1)) by now apply slice_length.
  split; [exact Hl|].
  replace (Z.of_nat (length done) + i2 - i1)%Z
    with (Z.of_nat (length done) + Z.of_nat (length (slice src i1 i2)))%Z by lia.
  rewrite assign_slice_next by lia. now rewrite Hl, app_assoc.
Qed.

(** The copying loop: the kept ranges are laid out one after the other
    behind what is already placed, each with its own samples. *)
Lemma copy_ranges_spec (rs : list (Z * Z)) :
  (forall r, In r rs -> In r (ranges self)) ->
  forall (dt rt : list R) (dp rp dph rph : list (list R)),
  length dp = length dt -> length dph = length dt ->
  length rp = length rt -> length rph = length rt ->
  (fold_right Z.add 0 (map (fun r => snd r - fst r) rs) <= Z.of_nat (length rt))%Z ->
  exists t' p' ph' new,
    copy_ranges self rs (Z.of_nat (length dt)) (dt ++ rt, dp ++ rp, dph ++ rph)
    = Ok ((t', p', ph'), new)
    /\ length new = length rs
    /\ contiguous (Z.of_nat (length dt)) new
    /\ map (fun r => snd r - fst r)%Z new = map (fun r => snd r - fst r)%Z rs
    /\ (firstn (length dt) t' = dt /\ firstn (length dt) p' = dp
        /\ firstn (length dt) ph' = dph)
    /\ (length t' = length (dt ++ rt) /\ length p' = length (dt ++ rt)
        /\ length ph' = length (dt ++ rt))
    /\ forall k, (k < length rs)%nat ->
         let r := nth k rs (0, 0)%Z in
         let r' := nth k new (0, 0)%Z in
         slice t' (fst r') (snd r') = slice (tod self) (fst r) (snd r)
         /\ slice p' (fst r') (snd r') = slice (point self) (fst r) (snd r)
         /\ slice ph' (fst r') (snd r') = slice (phase self) (fst r) (snd r).
Proof.
  induction rs as [|[i1 i2] rest IH]; intros Hin dt rt dp rp dph rph Ldp Ldph Lrp Lrph Hsum.
  - exists (dt ++ rt), (dp ++ rp), (dph ++ rph), []. simpl.
    split; [reflexivity|]. split; [reflexivity|]. split; [exact I|]. split; [reflexivity|].
    split.
    { split; [|split]; [| rewrite <- Ldp | rewrite <- Ldph];
        rewrite firstn_app, firstn_all, Nat.sub_diag; simpl; apply app_nil_r. }
    split; [rewrite !length_app; lia|].
    intros k Hk. lia.
  - destruct (wf_ranges _ wf (i1, i2) (Hin _ (or_introl eq_refl))) as [H1 H2].
    cbn [fst snd] in H1, H2. simpl in Hsum.
    assert (Hrest : (0 <= fold_right Z.add 0 (map (fun r : Z * Z => snd r - fst r) rest))%Z).
    { clear - Hin wf. induction rest as [|r rest IHr]; simpl; [lia|].
      destruct (wf_ranges _ wf r) as [Hr _]; [apply Hin; right; now left|].
      assert (Hq : forall r0, In r0 ((i1, i2) :: rest) -> In r0 (ranges self)).
      { intros r0 [<-|Hr0]; apply Hin; [now left | right; now right]. }
      specialize (IHr Hq). lia. }
    set (l := Z.to_nat (i2 - i1)).
    destruct (place_next (tod self) dt rt i1 i2 H1 H2 ltac:(unfold l; lia)) as [Lt Et].
    destruct (place_next (point self) dp rp i1 i2 H1
                ltac:(rewrite (wf_point _ wf); exact H2) ltac:(unfold l; lia)) as [Lp Ep].
    destruct (place_next (phase self) dph rph i1 i2 H1
                ltac:(rewrite (wf_phase _ wf); exact H2) ltac:(unfold l; lia)) as [Lph Eph].
    set (ct := slice (tod self) i1 i2) in *.
    set (cp := slice (point self) i1 i2) in *.
    set (cph := slice (phase self) i1 i2) in *.
    destruct (IH (fun r Hr => Hin r (or_intror Hr))
                 (dt ++ ct) (skipn l rt) (dp ++ cp) (skipn l rp) (dph ++ cph) (skipn l rph))
      as [t' [p' [ph' [new [Hrun [Hln [Hcont [Hlens [[Ft [Fp Fph]] [[Lt' [Lp' Lph']] Hsl]]]]]]]]]].
    { rewrite !length_app. lia. }
    { rewrite !length_app. lia. }
    { rewrite !length_skipn. lia. }
    { rewrite !length_skipn. lia. }
    { rewrite length_skipn. unfold l. lia. }
    assert (Ho2 : (Z.of_nat (length dt) + i2 - i1)%Z = Z.of_nat (length (dt ++ ct))).
    { rewrite length_app, Lt. lia. }
    exists t', p', ph', ((Z.of_nat (length dt), Z.of_nat (length dt) + i2 - i1)%Z :: new).
    split.
    { rewrite Ldp in Ep. rewrite Ldph in Eph.
      cbn [copy_ranges fst snd]. cbv zeta. fold ct cp cph.
      rewrite Et. cbn [bind]. rewrite Ep. cbn [bind]. rewrite Eph. cbn [bind].
      fold l. rewrite Ho2, Hrun. reflexivity. }
    split; [simpl; now rewrite Hln|].
    split.
    { cbn [contiguous fst snd]. split; [reflexivity|]. split; [lia|]. now rewrite Ho2. }
    split.
    { cbn [map fst snd]. rewrite Hlens. f_equal. lia. }
    rewrite length_app in Ft, Fp, Fph.
    destruct (firstn_prefix _ _ _ Ft) as [Ft0 St].
    assert (Fp' : firstn (length dp + length cp) p' = dp ++ cp) by (rewrite Ldp, Lp, <- Lt; exact Fp).
    assert (Fph' : firstn (length dph + length cph) ph' = dph ++ cph)
      by (rewrite Ldph, Lph, <- Lt; exact Fph).
    destruct (firstn_prefix _ _ _ Fp') as [Fp0 Sp].
    destruct (firstn_prefix _ _ _ Fph') as [Fph0 Sph].
    split.
    { split; [exact Ft0|]. split; [now rewrite <- Ldp | now rewrite <- Ldph]. }
    split.
    { rewrite Lt', Lp', Lph', !length_app, !length_skipn. rewrite Lt. fold l. lia. }
    intros [|k] Hk; cbn [nth fst snd].
    + replace (Z.of_nat (length dt) + i2 - i1)%Z
        with (Z.of_nat (length dt) + Z.of_nat (length ct))%Z by lia.
      split; [exact St|]. split.
      * rewrite <- Ldp. replace (length ct) with (length cp) by lia. exact Sp.
      * rewrite <- Ldph. replace (length ct) with (length cph) by lia. exact Sph.
    + apply Hsl. simpl in Hk. lia.
Qed.

Lemma flat_map_map {A B C : Type} (f : B -> list C) (g : A -> B) (l : list A) :
  flat_map f (map g l) = flat_map (fun a => f (g a)) l.
Proof. induction l as [|a l IH]; simpl; [reflexivity | now rewrite IH]. Qed.

Lemma flat_map_ext_in {A B : Type} (f g : A -> list B) (l : list A) :
  (forall a, In a l -> f a = g a) -> flat_map f l = flat_map g l.
Proof.
  induction l as [|a l IH]; intros H; simpl; [reflexivity|].
  rewrite (H a (or_introl eq_refl)), IH; [reflexivity|].
  intros b Hb. apply H. now right.
Qed.

(** What [select] builds when the selection is not the whole scan. *)
Lemma select_new (srcs ds : list Z) :
  srcs <> [] -> ds <> [] ->
  (forall src, In src srcs -> (0 <= src < Z.of_nat (length (offsets self)))%Z) ->
  (forall det, In det ds -> (0 <= det < Z.of_nat (length (dets self)))%Z) ->
  all_equal ds (arange (length (dets self)))
    && all_equal srcs (arange (length (offsets self))) = false ->
  exists s',
    select self srcs ds = Ok s'
    /\ length (offsets s') = length srcs
    /\ dets s' = map (fun d => nth (Z.to_nat d) (dets self) 0%Z) ds
    /\ ivars s' = map (fun d => nth (Z.to_nat d) (ivars self) 0) ds
    /\ (forall si di, (si < length srcs)%nat -> (di < length ds)%nat ->
          let src := Z.to_nat (nth si srcs 0%Z) in
          let det := Z.to_nat (nth di ds 0%Z) in
          samples tod s' si di = samples tod self src det
          /\ samples point s' si di = samples point self src det
          /\ samples phase s' si di = samples phase self src det)
    /\ contiguous 0 (ranges s')
    /\ fold_right Z.add 0%Z (map (fun r => snd r - fst r)%Z (ranges s'))
       = Z.of_nat (length (tod s'))
    /\ (length (point s') = length (tod s') /\ length (phase s') = length (tod s'))
    /\ (forall k, (k < length (ranges s'))%nat -> In (Z.of_nat k) (rangesets s')).
Proof.
  intros Hsn Hdn Hs Hd Hid. unfold select. rewrite Hid.
  destruct (slice_srcs_spec srcs ds 0 Hs Hd) as [offs [chunks [Hrun [Hlo [Hlc [Hin Hsl]]]]]].
  rewrite Hrun. cbn [bind fst snd].
  assert (Hcne : chunks <> []).
  { intros ->. simpl in Hlc. destruct srcs, ds; simpl in *; try congruence; lia. }
  assert (Hcat : concatenate chunks = Ok (concat chunks)).
  { unfold concatenate. destruct chunks; [congruence | reflexivity]. }
  rewrite Hcat. cbn [bind].
  set (rs := concat chunks) in *.
  rewrite (positions_valid rs Hin). cbn [bind].
  set (positions := map Z.to_nat rs).
  set (rmap := used_ranges self positions).
  set (irmap := inverse_map self rmap).
  set (ranges' := map (fun i => nth i (ranges self) (0, 0)%Z) rmap).
  set (n := fold_right Z.add 0%Z (map (fun r => (snd r - fst r)%Z) ranges')).
  destruct (kept_total positions) as [Hn Hsub]. fold rmap ranges' n in Hn, Hsub.
  assert (Ln : forall A (l : list A), length l = length (tod self) ->
                 length (slice l 0 n) = Z.to_nat n).
  { intros A l Hl. rewrite slice_length by lia. f_equal. lia. }
  destruct (copy_ranges_spec ranges' Hsub
              [] (slice (tod self) 0 n) [] (slice (point self) 0 n)
              [] (slice (phase self) 0 n))
    as [t' [p' [ph' [new [Hcopy [Hln [Hcont [Hlens [_ [[Lt [Lp Lph]] Hcp]]]]]]]]]];
    try reflexivity.
  { rewrite !Ln; [reflexivity | reflexivity | apply (wf_point _ wf)]. }
  { rewrite !Ln; [reflexivity | reflexivity | apply (wf_phase _ wf)]. }
  { rewrite Ln by reflexivity. fold n. lia. }
  cbn [length app] in Hcopy, Hcont, Lt, Lp, Lph. change (Z.of_nat 0) with 0%Z in Hcopy, Hcont.
  rewrite Hcopy. cbn [bind fst snd].
  assert (Hpo : exists po',
            match point_offset self with
            | None => Ok None
            | Some po => po' <- take [] po ds ;; Ok (Some po')
            end = Ok po').
  { destruct (point_offset self) as [po|] eqn:Epo; [|now exists None].
    rewrite take_valid; [eexists; reflexivity|].
    intros i Hi. rewrite (wf_point_offset _ wf po Epo). now apply Hd. }
  destruct Hpo as [po' ->]. cbn [bind].
  rewrite take_valid by (intros i Hi; rewrite (wf_ivars _ wf); now apply Hd).
  cbn [bind]. rewrite take_valid by exact Hd. cbn [bind].
  eexists. split; [reflexivity|]. cbn [offsets dets ivars ranges rangesets tod point phase].
  split; [exact Hlo|]. split; [reflexivity|]. split; [reflexivity|].
  (* the new index of a range that is still in use *)
  assert (Hnew : forall r, In r rs ->
            exists k, (k < length rmap)%nat
              /\ nth k rmap 0%nat = Z.to_nat r
              /\ nth (Z.to_nat r) irmap 0%Z = Z.of_nat k).
  { intros r Hr. apply inverse_map_spec. apply used_ranges_spec. split.
    - pose proof (wf_rangesets _ wf r (Hin r Hr)). lia.
    - unfold positions. now apply in_map. }
  assert (Hlr : length ranges' = length rmap) by (unfold ranges'; now rewrite length_map).
  split.
  { intros si di Hsi Hdi.
    set (src := Z.to_nat (nth si srcs 0%Z)). set (det := Z.to_nat (nth di ds 0%Z)).
    specialize (Hsl [] [] si di eq_refl Hsi Hdi). cbv zeta in Hsl. fold src det in Hsl.
    rewrite app_nil_r in Hsl. cbn [app] in Hsl. fold rs in Hsl.
    assert (Hall : forall (A : Type) (data : SrcScan -> list A) (b' : list A),
              (forall k, (k < length ranges')%nat ->
                 slice b' (fst (nth k new (0, 0)%Z)) (snd (nth k new (0, 0)%Z))
                 = slice (data self) (fst (nth k ranges' (0, 0)%Z))
                         (snd (nth k ranges' (0, 0)%Z))) ->
              flat_map (fun r => slice b' (fst (nth (Z.to_nat r) new (0, 0)%Z))
                                          (snd (nth (Z.to_nat r) new (0, 0)%Z)))
                (slice (map (fun k => nth k irmap 0%Z) positions)
                       (fst (nth di (nth si offs []) (0, 0)%Z))
                       (snd (nth di (nth si offs []) (0, 0)%Z)))
              = samples data self src det).
    { intros A data b' Hb. unfold positions. rewrite map_map, slice_map, Hsl, flat_map_map.
      unfold samples. fold src det. apply flat_map_ext_in. intros r Hr.
      rewrite <- Hsl in Hr. apply slice_In in Hr.
      destruct (Hnew r Hr) as [k [Hk [Ek Ei]]].
      rewrite Ei, Nat2Z.id, Hb by lia.
      unfold ranges'. rewrite (nth_map_in _ _ _ _ 0%nat) by exact Hk.
      now rewrite Ek. }
    unfold samples at 1 3 5. unfold offset_of.
    cbn [offsets dets ivars ranges rangesets tod point phase].
    split; [|split]; apply Hall; intros k Hk; apply Hcp; exact Hk. }
  split; [exact Hcont|]. split.
  { rewrite Hlens. fold n. rewrite Lt, Ln by reflexivity. lia. }
  split.
  { rewrite Lp, Lph, Lt. split; reflexivity. }
  intros k Hk. rewrite Hln, Hlr in Hk.
  assert (Hi : In (nth k rmap 0%nat) rmap) by now apply nth_In.
  apply used_ranges_spec in Hi. destruct Hi as [_ Hi].
  unfold positions in Hi. apply in_map_iff in Hi. destruct Hi as [r [Er Hr]].
  destruct (Hnew r Hr) as [k' [Hk' [Ek' Ei]]].
  assert (k' = k).
  { destruct (used_ranges_spec positions) as [Hnd _]. fold rmap in Hnd.
    apply (proj1 (NoDup_nth rmap 0%nat) Hnd); [exact Hk' | exact Hk | congruence]. }
  subst k'. apply in_map_iff. exists (Z.to_nat r). split.
  - exact Ei.
  - unfold positions. now apply in_map.
Qed.

Lemma forallb_combine_eq (a b : list Z) :
  length a = length b ->
  forallb (fun p => (fst p =? snd p)%Z) (combine a b) = true -> a = b.
Proof.
  revert b; induction a as [|x a IH]; intros [|y b] Hl H; simpl in *; try discriminate;
    [reflexivity|].
  apply andb_prop in H. destruct H as [H1 H2]. apply Z.eqb_eq in H1. subst y.
  f_equal. apply IH; [lia | exact H2].
Qed.

Lemma all_equal_arange (l : list Z) (n : nat) :
  NoDup l -> l <> [] -> (forall x, In x l -> (0 <= x < Z.of_nat n)%Z) ->
  all_equal l (arange n) = true -> l = arange n.
Proof.
  intros Hnd Hne Hin. unfold all_equal.
  destruct (Nat.eqb_spec (length l) (length (arange n))) as [Hl|Hl].
  - now apply forallb_combine_eq.
  - destruct l as [|x [|y l]]; [congruence | |].
    + pose proof (Hin x (or_introl eq_refl)) as Hx.
      destruct n as [|[|n]]; [lia | simpl in Hl; congruence|].
      simpl. intros H. apply andb_prop in H. destruct H as [H0 H].
      apply andb_prop in H. destruct H as [H1 _].
      apply Z.eqb_eq in H0. apply Z.eqb_eq in H1. lia.
    + destruct n as [|[|n]]; simpl; try discriminate.
      intros H. apply andb_prop in H. destruct H as [Hx H].
      apply andb_prop in H. destruct H as [Hy _].
      apply Z.eqb_eq in Hx. apply Z.eqb_eq in Hy. subst.
      inversion Hnd as [|? ? Hnx _]. elim Hnx. now left.
Qed.

Lemma nth_arange (n k : nat) : (k < n)%nat -> nth k (arange n) 0%Z = Z.of_nat k.
Proof.
  intros Hk. unfold arange. rewrite (nth_map_in _ _ _ _ 0%nat) by (now rewrite length_seq).
  now rewrite seq_nth.
Qed.

Lemma map_arange {A : Type} (d : A) (l : list A) :
  map (fun i => nth (Z.to_nat i) l d) (arange (length l)) = l.
Proof.
  unfold arange. rewrite map_map.
  rewrite <- (map_nth_seq d l) at 2. apply map_ext. intros k. now rewrite Nat2Z.id.
Qed.

(** [select] on a well-formed scan, for non-empty selections of distinct
    sources and detectors of the scan: the call returns a scan with one
    row of offsets per selected source and the inverse variances and
    detector names of the selected detectors, in which every selected
    source has, at every selected detector, exactly the samples (values,
    pointing and phase, in the same order) that it had in the original
    scan. *)
Theorem select_samples (srcs ds : list Z) :
  srcs <> [] -> ds <> [] -> NoDup srcs -> NoDup ds ->
  (forall src, In src srcs -> (0 <= src < Z.of_nat (length (offsets self)))%Z) ->
  (forall det, In det ds -> (0 <= det < Z.of_nat (length (dets self)))%Z) ->
  exists s',
    select self srcs ds = Ok s'
    /\ length (offsets s') = length srcs
    /\ dets s' = map (fun d => nth (Z.to_nat d) (dets self) 0%Z) ds
    /\ ivars s' = map (fun d => nth (Z.to_nat d) (ivars self) 0) ds
    /\ forall si di, (si < length srcs)%nat -> (di < length ds)%nat ->
         let src := Z.to_nat (nth si srcs 0%Z) in
         let det := Z.to_nat (nth di ds 0%Z) in
         samples tod s' si di = samples tod self src det
         /\ samples point s' si di = samples point self src det
         /\ samples phase s' si di = samples phase self src det.
Proof.
  intros Hsn Hdn Nsrc Nds Hs Hd.
  destruct (all_equal ds (arange (length (dets self)))
            && all_equal srcs (arange (length (offsets self)))) eqn:Hid.
  - apply andb_prop in Hid. destruct Hid as [Hd1 Hs1].
    apply all_equal_arange in Hd1; try assumption.
    apply all_equal_arange in Hs1; try assumption.
    exists self. split.
    { unfold select. subst srcs ds.
      unfold all_equal. rewrite !Nat.eqb_refl.
      assert (Hrefl : forall l : list Z,
                forallb (fun p => (fst p =? snd p)%Z) (combine l l) = true).
      { induction l as [|a l IHl]; simpl; [reflexivity|]. now rewrite Z.eqb_refl. }
      now rewrite !Hrefl. }
    subst srcs ds. unfold arange at 1. rewrite length_map, length_seq.
    split; [reflexivity|]. split; [now rewrite map_arange|].
    split; [rewrite <- (wf_ivars _ wf); now rewrite map_arange|].
    intros si di Hsi Hdi. unfold arange in Hsi, Hdi.
    rewrite length_map, length_seq in Hsi, Hdi.
    cbv zeta. rewrite !nth_arange, !Nat2Z.id by assumption. repeat split.
  - destruct (select_new srcs ds Hsn Hdn Hs Hd Hid)
      as [s' [H1 [H2 [H3 [H4 [H5 _]]]]]].
    exists s'. repeat split; try assumption; apply H5; assumption.
Qed.

(** When the selection is not the whole scan, the scan that [select]
    builds is compact: its ranges follow one another from sample 0 and
    cover all of its samples, its pointing and phase have one row per
    sample, and every one of its ranges is used by some source. *)
Theorem select_compact (srcs ds : list Z) :
  srcs <> [] -> ds <> [] ->
  (forall src, In src srcs -> (0 <= src < Z.of_nat (length (offsets self)))%Z) ->
  (forall det, In det ds -> (0 <= det < Z.of_nat (length (dets self)))%Z) ->
  all_equal ds (arange (length (dets self)))
    && all_equal srcs (arange (length (offsets self))) = false ->
  exists s',
    select self srcs ds = Ok s'
    /\ contiguous 0 (ranges s')
    /\ fold_right Z.add 0%Z (map (fun r => snd r - fst r)%Z (ranges s'))
       = Z.of_nat (length (tod s'))
    /\ (length (point s') = length (tod s') /\ length (phase s') = length (tod s'))
    /\ (forall k, (k < length (ranges s'))%nat -> In (Z.of_nat k) (rangesets s')).
Proof.
  intros Hsn Hdn Hs Hd Hid.
  destruct (select_new srcs ds Hsn Hdn Hs Hd Hid)
    as [s' [H1 [_ [_ [_ [_ [H6 [H7 [H8 H9]]]]]]]]].
  exists s'. repeat split; try assumption; apply H8.
Qed.

End SelectProps.

Section SelectEdges.
Import Py Scan.

(** Edge cases of a selection.  A selection without sources or without
    detectors that is not taken for the whole scan raises, because there
    is nothing to concatenate.  On a scan with a single source, however,
    the empty selection of sources (with all detectors) compares equal to
    the whole through broadcasting, and [select] returns the scan itself,
    source included. *)
Theorem select_empty (self : SrcScan) (srcs ds : list Z) :
  (all_equal ds (arange (length (dets self)))
     && all_equal srcs (arange (length (offsets self))) = false ->
   (srcs = [] \/ ds = []) ->
   select self srcs ds = Raise ValueError)
  /\ (length (offsets self) = 1%nat ->
      select self [] (arange (length (dets self))) = Ok self).
Proof.
  split.
  - intros Hid Hempty. unfold select. rewrite Hid.
    assert (Hrun : exists offs n, slice_srcs self srcs ds 0 = Ok (offs, [], n)).
    { destruct Hempty as [->| ->].
      - simpl. eauto.
      - clear Hid. generalize 0%Z as nset.
        induction srcs as [|src srcs IH]; intros nset; simpl; [eauto|].
        destruct (IH nset) as [offs [n ->]].
        simpl. eauto. }
    destruct Hrun as [offs [n ->]]. reflexivity.
  - intros H1. unfold select.
    assert (Hd : all_equal (arange (length (dets self))) (arange (length (dets self))) = true).
    { unfold all_equal. rewrite Nat.eqb_refl.
      induction (arange (length (dets self))) as [|a l IHl]; simpl; [reflexivity|].
      now rewrite Z.eqb_refl. }
    rewrite Hd, H1. reflexivity.
Qed.

Lemma two_sources_wf : well_formed two_sources.
Proof.
  constructor; simpl.
  - intros r [<-|[<-|[]]]; reflexivity.
  - intros r o [<-|[<-|[]]] [<-|[]]; simpl; lia.
  - intros r [<-|[<-|[]]]; lia.
  - intros r [<-|[<-|[]]]; simpl; lia.
  - lia.
  - reflexivity.
  - reflexivity.
  - reflexivity.
  - discriminate.
Qed.

Lemma select_samples_witness :
  exists s',
    select two_sources [1%Z] [0%Z] = Ok s'
    /\ length (offsets s') = 1%nat
    /\ dets s' = [7%Z]
    /\ ivars s' = [1]
    /\ forall si di, (si < 1)%nat -> (di < 1)%nat ->
         let src := Z.to_nat (nth si [1%Z] 0%Z) in
         let det := Z.to_nat (nth di [0%Z] 0%Z) in
         samples tod s' si di = samples tod two_sources src det
         /\ samples point s' si di = samples point two_sources src det
         /\ samples phase s' si di = samples phase two_sources src det.
Proof.
  apply (select_samples two_sources two_sources_wf [1%Z] [0%Z]);
    try discriminate; try (repeat constructor; simpl; tauto);
    intros x [<-|[]]; simpl; lia.
Defined.

Lemma select_compact_witness :
  exists s',
    select two_sources [1%Z] [0%Z] = Ok s'
    /\ contiguous 0 (ranges s')
    /\ fold_right Z.add 0%Z (map (fun r => snd r - fst r)%Z (ranges s'))
       = Z.of_nat (length (tod s'))
    /\ (length (point s') = length (tod s') /\ length (phase s') = length (tod s'))
    /\ (forall k, (k < length (ranges s'))%nat -> In (Z.of_nat k) (rangesets s')).
Proof.
  apply (select_compact two_sources two_sources_wf [1%Z] [0%Z]);
    try discriminate; try reflexivity; intros x [<-|[]]; simpl; lia.
Defined.

End SelectEdges.

(** ** Beam area and power-spectrum flattening *)

Section SpectraProps.
Import Py Num Spectra.
Import String.StringSyntax.
Local Open Scope string_scope.

Lemma np_sum_head_le (b : R) (l : list R) :
  (forall v, In v l -> 0 <= v) -> b <= np_sum (b :: l).
Proof.
  intros H. change (np_sum (b :: l)) with (b + np_sum l).
  destruct (np_sum_bounds l 0 (np_max l + 1)) as [H1 _].
  { intros x Hx. split; [now apply H|]. pose proof (np_max_ge l x Hx). lra. }
  lra.
Qed.

(** For a non-negative beam transform whose largest value is its first
    element, the beam area in pixels is at least one pixel and at most the
    whole map; in physical units it is that number times the pixel size;
    and any other unit raises. *)
Theorem calc_beam_transform_area_bounds (b00 : R) (rest : list R) (pixsize : R)
    (unit : String.string) :
  0 < b00 -> (forall v, In v rest -> 0 <= v <= b00) ->
  exists area,
    1 <= area <= INR (length (b00 :: rest))
    /\ calc_beam_transform_area (b00 :: rest) pixsize "pix" = Ok (area * 1)
    /\ calc_beam_transform_area (b00 :: rest) pixsize "phys" = Ok (area * pixsize)
    /\ (String.eqb unit "phys" = false -> String.eqb unit "pix" = false ->
        calc_beam_transform_area (b00 :: rest) pixsize unit = Raise ValueError).
Proof.
  intros Hb Hrest.
  set (beam := b00 :: rest).
  set (mean := Norm.np_mean beam).
  assert (Hn : 0 < INR (length beam)) by (apply lt_0_INR; simpl; lia).
  assert (Hhi : mean <= b00).
  { apply (np_mean_bounds beam 0 b00); [discriminate|].
    intros v [<-|Hv]; [lra | now apply Hrest]. }
  assert (Hlo : b00 <= mean * INR (length beam)).
  { unfold mean, Norm.np_mean, Rdiv. rewrite Rmult_assoc, Rinv_l by lra.
    rewrite Rmult_1_r. apply np_sum_head_le. intros v Hv. now apply Hrest. }
  assert (Hm : 0 < mean).
  { destruct (Rlt_dec 0 mean) as [H|H]; [exact H|]. exfalso.
    assert (mean * INR (length beam) <= 0) by nra. lra. }
  exists (b00 / mean). split; [|split; [|split]].
  - split.
    + apply (Rmult_le_reg_r mean); [exact Hm|].
      unfold Rdiv. rewrite Rmult_assoc, Rinv_l by lra. lra.
    + apply (Rmult_le_reg_r mean); [exact Hm|].
      unfold Rdiv. rewrite Rmult_assoc, Rinv_l by lra. lra.
  - reflexivity.
  - reflexivity.
  - intros H1 H2. unfold calc_beam_transform_area. cbn [item position bind].
    simpl. now rewrite H1, H2.
Qed.

Lemma calc_beam_transform_area_bounds_witness :
  exists area,
    1 <= area <= INR (length [4; 2; 1; 1])
    /\ calc_beam_transform_area [4; 2; 1; 1] 3 "pix" = Ok (area * 1)
    /\ calc_beam_transform_area [4; 2; 1; 1] 3 "phys" = Ok (area * 3)
    /\ (String.eqb "deg" "phys" = false -> String.eqb "deg" "pix" = false ->
        calc_beam_transform_area [4; 2; 1; 1] 3 "deg" = Raise ValueError).
Proof.
  apply (calc_beam_transform_area_bounds 4 [2; 1; 1] 3 "deg"); [lra|].
  intros v [<-|[<-|[<-|[]]]]; lra.
Defined.

(** [planck_hack] leaves the power at and below [lcut] as it is and
    replaces the power of every mode above [lcut] by one reference value:
    the mean over the band just below [lcut], which lies between the
    smallest and the largest power of the band (so positive power stays
    positive); when no mode falls in the band the modes above [lcut] all
    become NaN. *)
Theorem planck_hack_flat (ps2d l : list R) (lcut : R) :
  length l = length ps2d ->
  let out := planck_hack ps2d l lcut in
  length out = length ps2d
  /\ (forall k, (k < length ps2d)%nat -> nth k l 0 <= lcut ->
        nth k out NaN = Fin (nth k ps2d 0))
  /\ ((forall k, (k < length ps2d)%nat -> in_band lcut (nth k l 0) = false) ->
      forall k, (k < length ps2d)%nat -> lcut < nth k l 0 -> nth k out NaN = NaN)
  /\ ((exists k, (k < length ps2d)%nat /\ in_band lcut (nth k l 0) = true) ->
      exists ref,
        (forall k, (k < length ps2d)%nat -> lcut < nth k l 0 -> nth k out NaN = Fin ref)
        /\ forall lo hi,
             (forall k, (k < length ps2d)%nat -> in_band lcut (nth k l 0) = true ->
                lo <= nth k ps2d 0 <= hi) ->
             lo <= ref <= hi).
Proof.
  intros Hlen out. unfold out, planck_hack.
  set (band := map fst (filter (fun p => in_band lcut (snd p)) (combine ps2d l))).
  assert (Hband : forall v, In v band <->
            exists k, (k < length ps2d)%nat /\ in_band lcut (nth k l 0) = true
                      /\ v = nth k ps2d 0).
  { intros v. unfold band. rewrite in_map_iff. split.
    - intros [[a b] [<- Hp]]. apply filter_In in Hp. destruct Hp as [Hin Hb].
      destruct (In_nth _ _ (0, 0) Hin) as [k [Hk Ek]].
      rewrite length_combine in Hk. rewrite combine_nth in Ek by lia.
      injection Ek as Ea Eb. exists k. split; [lia|]. simpl in *. subst. now split.
    - intros [k [Hk [Hb ->]]]. exists (nth k ps2d 0, nth k l 0). split; [reflexivity|].
      apply filter_In. split; [|exact Hb].
      rewrite <- combine_nth by lia. apply nth_In. rewrite length_combine. lia. }
  set (ref := match band with [] => NaN | _ => Fin (Norm.np_mean band) end).
  assert (Hnth : forall k, (k < length ps2d)%nat ->
            nth k (map2 (fun v lv => if Rltb lcut lv then ref else Fin v) ps2d l) NaN
            = if Rltb lcut (nth k l 0) then ref else Fin (nth k ps2d 0)).
  { intros k Hk. rewrite (nth_map2 _ _ _ 0 0) by lia. reflexivity. }
  split; [rewrite length_map2; lia|]. split; [|split].
  - intros k Hk Hl. rewrite Hnth by exact Hk.
    replace (Rltb lcut (nth k l 0)) with false; [reflexivity|].
    symmetry. apply Rltb_false. lra.
  - intros Hnone k Hk Hl. rewrite Hnth by exact Hk.
    rewrite (proj2 (Rltb_true _ _) Hl). unfold ref.
    destruct band as [|v band'] eqn:Eb; [reflexivity|].
    assert (Hv : In v (v :: band')) by now left.
    apply Hband in Hv. destruct Hv as [j [Hj [Hb _]]].
    rewrite Hnone in Hb by exact Hj. discriminate.
  - intros [j [Hj Hb]].
    assert (Hne : band <> []).
    { intros E. assert (Hin : In (nth j ps2d 0) band) by (apply Hband; eauto).
      rewrite E in Hin. destruct Hin. }
    exists (Norm.np_mean band). split.
    + intros k Hk Hl. rewrite Hnth by exact Hk.
      rewrite (proj2 (Rltb_true _ _) Hl). unfold ref.
      destruct band; [congruence | reflexivity].
    + intros lo hi Hb'. apply np_mean_bounds; [exact Hne|].
      intros v Hv. apply Hband in Hv. destruct Hv as [k [Hk [Hkb ->]]].
      now apply Hb'.
Qed.

Lemma planck_hack_flat_witness :
  let out := planck_hack [5; 3; 4; 9] [100; 950; 980; 2000] 1000 in
  length out = 4%nat
  /\ (forall k, (k < 4)%nat -> nth k [100; 950; 980; 2000] 0 <= 1000 ->
        nth k out NaN = Fin (nth k [5; 3; 4; 9] 0))
  /\ ((forall k, (k < 4)%nat ->
         in_band 1000 (nth k [100; 950; 980; 2000] 0) = false) ->
      forall k, (k < 4)%nat -> 1000 < nth k [100; 950; 980; 2000] 0 ->
        nth k out NaN = NaN)
  /\ ((exists k, (k < 4)%nat /\ in_band 1000 (nth k [100; 950; 980; 2000] 0) = true) ->
      exists ref,
        (forall k, (k < 4)%nat -> 1000 < nth k [100; 950; 980; 2000] 0 ->
           nth k out NaN = Fin ref)
        /\ forall lo hi,
             (forall k, (k < 4)%nat ->
                in_band 1000 (nth k [100; 950; 980; 2000] 0) = true ->
                lo <= nth k [5; 3; 4; 9] 0 <= hi) ->
             lo <= ref <= hi).
Proof.
  apply (planck_hack_flat [5; 3; 4; 9] [100; 950; 980; 2000] 1000). reflexivity.
Defined.

End SpectraProps.

(** ** Combining map tiles: the order of the maps *)

Section MapOrder.
Import Num MapMerge.

Lemma contributions_perm (maps maps' : list placed) (y x : nat) :
  Permutation maps maps' ->
  Permutation (contributions maps y x) (contributions maps' y x).
Proof.
  induction 1 as [|p l l' _ IH|p q l|l l' l'' _ IH1 _ IH2]; simpl.
  - constructor.
  - destruct (local p y x) as [[ly lx]|]; [now constructor | exact IH].
  - destruct (local p y x) as [[ly lx]|], (local q y x) as [[ly' lx']|];
      try apply Permutation_refl. apply perm_swap.
  - eapply Permutation_trans; eassumption.
Qed.

Lemma np_sum_perm (l l' : list R) : Permutation l l' -> np_sum l = np_sum l'.
Proof.
  induction 1 as [|a l l' _ IH|a b l|l l' l'' _ IH1 _ IH2]; simpl; lra.
Qed.

(** In exact arithmetic the map produced by [merge_maps_onto] does not
    depend on the order in which the maps are accumulated, nor on how they
    are distributed over the tasks: any two arrangements of the same maps
    give the same value at every pixel. *)
Theorem merge_maps_onto_order (ranks ranks' : list (list placed)) (ny nx crop : nat)
    (fmax : R) (y x : nat) :
  Permutation (concat ranks) (concat ranks') ->
  val (merge_maps_onto ranks ny nx crop fmax) y x
  = val (merge_maps_onto ranks' ny nx crop fmax) y x.
Proof.
  intros HP. unfold merge_maps_onto, accumulated.
  destruct (fold_left accumulate (map (crop_map crop) (concat ranks))
                      (zeros ny nx, zeros ny nx)) as [omap odiv] eqn:E1.
  destruct (fold_left accumulate (map (crop_map crop) (concat ranks'))
                      (zeros ny nx, zeros ny nx)) as [omap' odiv'] eqn:E2.
  cbn [val].
  destruct (accumulate_pixel (map (crop_map crop) (concat ranks))
              (zeros ny nx, zeros ny nx) y x) as [Hv Hw].
  destruct (accumulate_pixel (map (crop_map crop) (concat ranks'))
              (zeros ny nx, zeros ny nx) y x) as [Hv' Hw'].
  rewrite E1 in Hv, Hw. rewrite E2 in Hv', Hw'. cbn [fst snd] in *.
  assert (HPc : Permutation (contributions (map (crop_map crop) (concat ranks)) y x)
                            (contributions (map (crop_map crop) (concat ranks')) y x)).
  { apply contributions_perm, Permutation_map, HP. }
  assert (Ev : val omap y x = val omap' y x).
  { rewrite Hv, Hv'. f_equal. unfold weighted_sum. apply np_sum_perm.
    now apply Permutation_map. }
  assert (Ew : val odiv y x = val odiv' y x).
  { rewrite Hw, Hw'. f_equal. unfold weight_sum. apply np_sum_perm.
    now apply Permutation_map. }
  now rewrite Ev, Ew.
Qed.

Lemma merge_maps_onto_order_witness :
  let a := {| box_y := 0; box_x := 0; pixels := {| ny := 2; nx := 2; val := fun _ _ => 1 |} |} in
  let b := {| box_y := 1; box_x := 1; pixels := {| ny := 2; nx := 2; val := fun _ _ => 3 |} |} in
  val (merge_maps_onto [[a]; [b]] 3 3 0 1 ) 1 1
  = val (merge_maps_onto [[b; a]] 3 3 0 1) 1 1.
Proof.
  intros a b. apply merge_maps_onto_order. simpl. apply perm_swap.
Defined.

End MapOrder.

(** ** The duplicate resolver never adds entries *)

Section MergeLength.
Import Num Merge.


End MergeLength.

(** ** The apodization around holes *)

Section ApodHoles.
Import Num.
Variable distance_transform_edt : list bool -> list R.

(** For a radius that is not zero every value of [get_apod_holes] is a
    number between 0 and 1; for a positive radius it is 0 where the
    distance to the nearest unexposed pixel is 0 and 1 where that distance
    is at least the radius.  For a radius of zero the value is NaN where
    the distance is 0 and 1 where it is positive. *)
Theorem get_apod_holes_range (div : Fitter.ndmap) (pixrad : R) (k : nat) :
  (k < length (Fitter.get_apod_holes distance_transform_edt div pixrad))%nat ->
  let v := nth k (Fitter.get_apod_holes distance_transform_edt div pixrad) NaN in
  let d := nth k (distance_transform_edt (map (fun v => Rltb 0 v) div)) 0 in
  (pixrad <> 0 ->
   exists x, v = Fin x /\ 0 <= x <= 1
     /\ (0 < pixrad -> d = 0 -> x = 0)
     /\ (0 < pixrad -> pixrad <= d -> x = 1))
  /\ (pixrad = 0 -> (d = 0 -> v = NaN) /\ (0 < d -> v = Fin 1)).
Proof.
  intros Hk v d.
  unfold Fitter.get_apod_holes in Hk. rewrite length_map in Hk.
  assert (Hv : v = Fitter.apod_hole pixrad d).
  { unfold v, d, Fitter.get_apod_holes. now rewrite (nth_map_in _ _ _ _ 0). }
  rewrite Hv. split.
  - intros Hp. rewrite apod_hole_finite by exact Hp.
    eexists. split; [reflexivity|]. split; [|split].
    + pose proof (COS_bound (PI * Rmin 1 (d / pixrad))). lra.
    + intros Hpos ->. unfold Rdiv. rewrite Rmult_0_l, Rmin_right by lra.
      rewrite Rmult_0_r, cos_0. lra.
    + intros Hpos Hd. rewrite Rmin_left.
      * rewrite Rmult_1_r, cos_PI. lra.
      * apply (Rmult_le_reg_r pixrad); [exact Hpos|].
        unfold Rdiv. rewrite Rmult_assoc, Rinv_l by lra. lra.
  - intros ->. unfold Fitter.apod_hole. cbn [ndiv].
    destruct (Req_dec_T 0 0) as [_|Hne]; [|contradiction]. split.
    + intros ->. unfold scale_inf.
      destruct (Rlt_dec 0 0) as [H|_]; [lra|]. reflexivity.
    + intros Hd. unfold scale_inf.
      destruct (Rlt_dec 0 d) as [_|H]; [|contradiction].
      cbn [nmin2 nleb nmul ncos nopp nadd]. f_equal.
      rewrite Rmult_1_r, cos_PI. lra.
Qed.

End ApodHoles.

Lemma get_apod_holes_range_witness :
  let edt := fun mask : list bool => map (fun b : bool => if b then 20 else 0) mask in
  let v := nth 1 (Fitter.get_apod_holes edt [0; 5] 15) Num.NaN in
  let d := nth 1 (edt (map (fun v => Rltb 0 v) [0; 5])) 0 in
  (15 <> 0 ->
   exists x, v = Num.Fin x /\ 0 <= x <= 1
     /\ (0 < 15 -> d = 0 -> x = 0)
     /\ (0 < 15 -> 15 <= d -> x = 1))
  /\ (15 = 0 -> (d = 0 -> v = Num.NaN) /\ (0 < d -> v = Num.Fin 1)).
Proof.
  intros edt. apply (get_apod_holes_range edt [0; 5] 15 1). simpl. lia.
Defined.

(** ** More on the matched filter and the smoothing of the noise spectrum *)

Section FourierExtras.
Import Filter.
Variables ny nx : nat.

Lemma cos_coef_ext (m m' : rmap) (ky kx : nat) :
  (forall y x, m y x = m' y x) -> cos_coef ny nx m ky kx = cos_coef ny nx m' ky kx.
Proof.
  intros H. unfold cos_coef. f_equal. apply gsum_ext. intros y x _ _. now rewrite H.
Qed.

Lemma sin_coef_ext (m m' : rmap) (ky kx : nat) :
  (forall y x, m y x = m' y x) -> sin_coef ny nx m ky kx = sin_coef ny nx m' ky kx.
Proof.
  intros H. unfold sin_coef. f_equal. apply gsum_ext. intros y x _ _. now rewrite H.
Qed.

(** The response is linear in the filter and only depends on the values
    of the map. *)
Lemma apply_filter_scale (m m' filter filter' : rmap) (s : R) (y x : nat) :
  (forall y x, m y x = m' y x) ->
  (forall ky kx, filter ky kx = s * filter' ky kx) ->
  apply_filter ny nx m filter y x = s * apply_filter ny nx m' filter' y x.
Proof.
  intros Hm Hf. rewrite !apply_filter_eq.
  rewrite (gsum_ext ny nx _
             (fun ky kx => s * (filter' ky kx
                * (cos_coef ny nx m' ky kx * cos (phase ny nx ky kx y x)
                   + sin_coef ny nx m' ky kx * sin (phase ny nx ky kx y x))))).
  - rewrite gsum_scal. ring.
  - intros ky kx _ _. rewrite Hf, (cos_coef_ext m m'), (sin_coef_ext m m') by exact Hm. ring.
Qed.

(** The matched filter does not depend on the normalization of the noise
    spectrum nor on that of the beam: scaling either by a non-zero constant
    leaves every value of the filter returned by [build_filter] unchanged. *)
Theorem build_filter_scale_invariant (ps beam2d : rmap) (a b : R) (ky kx : nat) :
  a <> 0 -> b <> 0 ->
  build_filter ny nx (fun i j => a * ps i j) (fun i j => b * beam2d i j) ky kx
  = build_filter ny nx ps beam2d ky kx.
Proof.
  intros Ha Hb. unfold build_filter.
  assert (HT : forall y x,
            beam_template ny nx (fun i j => b * beam2d i j) y x
            = beam_template ny nx beam2d y x).
  { intros y x. unfold beam_template. rewrite !real_ifft.
    rewrite !(gsum_ext ny nx (fun ky kx => b * beam2d ky kx * cos _)
                (fun ky kx => b * (beam2d ky kx * cos (phase ny nx ky kx _ _))))
      by (intros; ring).
    rewrite !gsum_scal. unfold Rdiv. rewrite !Rinv_mult.
    set (u := gsum ny nx (fun ky kx => beam2d ky kx * cos (phase ny nx ky kx y x))).
    set (v := gsum ny nx (fun ky kx => beam2d ky kx * cos (phase ny nx ky kx 0%nat 0%nat))).
    set (c := / sqrt (npix ny nx)).
    transitivity (b * / b * (c * u * (/ c * / v))); [ring|].
    rewrite Rinv_r by exact Hb. ring. }
  assert (HF : forall i j, b * beam2d i j / (a * ps i j) = b / a * (beam2d i j / ps i j)).
  { intros i j. unfold Rdiv. rewrite Rinv_mult. ring. }
  rewrite (apply_filter_scale _ (beam_template ny nx beam2d) _
             (fun i j => beam2d i j / ps i j) (b / a) 0%nat 0%nat HT HF).
  rewrite HF. unfold Rdiv. rewrite !Rinv_mult, Rinv_inv.
  set (n := apply_filter ny nx (beam_template ny nx beam2d)
              (fun i j => beam2d i j * / ps i j) 0%nat 0%nat).
  transitivity (b * / b * (a * / a) * (beam2d ky kx * / ps ky kx * / n)); [ring|].
  rewrite !Rinv_r by assumption. ring.
Qed.

End FourierExtras.

Lemma build_filter_scale_invariant_witness :
  Filter.build_filter 2 2 (fun i j => 3 * 1) (fun i j => 2 * 1) 0%nat 0%nat
  = Filter.build_filter 2 2 (fun _ _ => 1) (fun _ _ => 1) 0%nat 0%nat.
Proof.
  apply (build_filter_scale_invariant 2 2 (fun _ _ => 1) (fun _ _ => 1) 3 2); lra.
Defined.

Section SmoothProps.
Import Filter.

Lemma cos_sum_mode (n k : nat) :
  (0 < k < n)%nat -> rsum n (fun y => cos (freq n k * INR y)) = 0.
Proof.
  intros [Hk Hn].
  assert (Hn0 : 0 < INR n) by (apply lt_0_INR; lia).
  assert (Hk0 : 0 < INR k) by (apply lt_0_INR; lia).
  assert (Hkn : INR k < INR n) by (apply lt_INR; lia).
  pose proof (cos_sum_telescope (freq n k) n) as H.
  assert (Hturn : freq n k * INR n = 2 * PI * INR k) by (unfold freq; field; lra).
  destruct (turns k) as [Hs Hc].
  rewrite sin_minus, Hturn, Hs, Hc in H.
  assert (Hpos : 0 < sin (freq n k / 2)).
  { pose proof PI_RGT_0 as Hpi.
    assert (Hq0 : 0 < INR k / INR n) by (apply Rdiv_lt_0_compat; lra).
    assert (Hq1 : INR k / INR n < 1).
    { apply (Rmult_lt_reg_r (INR n)); [lra|]. unfold Rdiv.
      rewrite Rmult_assoc, Rinv_l by lra. lra. }
    replace (freq n k / 2) with (PI * (INR k / INR n)) by (unfold freq; field; lra).
    apply sin_gt_0; nra. }
  assert (Hz : 2 * sin (freq n k / 2) * rsum n (fun y => cos (freq n k * INR y)) = 0)
    by lra.
  apply Rmult_integral in Hz. destruct Hz as [Hz|Hz]; [lra | exact Hz].
Qed.

Lemma cos_sum_mode0 (n : nat) : rsum n (fun y => cos (freq n 0 * INR y)) = INR n.
Proof.
  rewrite (rsum_ext n _ (fun _ => 1)); [apply rsum_one|].
  intros y _. replace (freq n 0 * INR y) with 0; [apply cos_0|].
  unfold freq, Rdiv. simpl. ring.
Qed.

Lemma rsum_origin (n : nat) (v : R) :
  (0 < n)%nat -> rsum n (fun k => if (k =? 0)%nat then v else 0) = v.
Proof.
  induction n as [|n IH]; intros Hn; [lia|]. simpl.
  destruct n as [|n]; [simpl; ring|].
  rewrite IH by lia. simpl. ring.
Qed.

Variables ny nx : nat.
Hypothesis ny_pos : (0 < ny)%nat.
Hypothesis nx_pos : (0 < nx)%nat.

Lemma whole_turns_freq (ky kx : nat) : whole_turns ny nx (freq ny ky) (freq nx kx).
Proof.
  unfold whole_turns.
  replace (freq ny ky * INR ny) with (2 * PI * INR ky)
    by (unfold freq; field; apply not_0_INR; lia).
  replace (freq nx kx * INR nx) with (2 * PI * INR kx)
    by (unfold freq; field; apply not_0_INR; lia).
  split; apply turns.
Qed.

Lemma grid_sin_mode (ky kx : nat) :
  gsum ny nx (fun y x => sin (phase ny nx ky kx y x)) = 0.
Proof.
  rewrite (gsum_ext ny nx _ (fun y x => sin (freq ny ky * INR y + freq nx kx * INR x)))
    by (intros; now rewrite phase_freq).
  apply grid_sin_sum, whole_turns_freq.
Qed.

(** Orthogonality of the modes to the constant map. *)
Lemma grid_cos_mode (ky kx : nat) :
  (ky < ny)%nat -> (kx < nx)%nat ->
  gsum ny nx (fun y x => cos (phase ny nx ky kx y x))
  = if ((ky =? 0) && (kx =? 0))%nat then npix ny nx else 0.
Proof.
  intros Hky Hkx.
  rewrite (gsum_ext ny nx _
             (fun y x => cos (freq ny ky * INR y) * cos (freq nx kx * INR x)
                         + (- sin (freq ny ky * INR y)) * sin (freq nx kx * INR x))).
  2:{ intros y x _ _. rewrite phase_freq, cos_plus. ring. }
  destruct (whole_turns_freq ky kx) as [_ [Hsx Hcx]].
  destruct (character_sums (freq nx kx) nx Hsx Hcx) as [Sx _].
  rewrite gsum_plus, !gsum_sep, Sx, Rmult_0_r, Rplus_0_r.
  destruct ky as [|ky]; [destruct kx as [|kx]|]; cbn [Nat.eqb andb].
  - rewrite !cos_sum_mode0. reflexivity.
  - rewrite (cos_sum_mode nx (S kx)) by lia. ring.
  - rewrite (cos_sum_mode ny (S ky)) by lia. ring.
Qed.

Lemma gsum_origin (v : R) :
  gsum ny nx (fun ky kx => if ((ky =? 0) && (kx =? 0))%nat then v else 0) = v.
Proof.
  unfold gsum.
  rewrite (rsum_ext ny _ (fun ky => if (ky =? 0)%nat then v else 0)).
  - now apply rsum_origin.
  - intros ky _. destruct ky as [|ky]; cbn [Nat.eqb andb].
    + now apply rsum_origin.
    + apply rsum_zero.
Qed.

Lemma fftfreq_0 (n : nat) : Smooth.fftfreq n 0 = 0.
Proof. unfold Smooth.fftfreq. cbn [Nat.leb INR]. unfold Rdiv. ring. Qed.

Lemma smooth_ps_gauss_sum_pos (ps : rmap) (sy sx : R) :
  let kernel := fun i j : nat =>
    exp (- 0.5 * (Smooth.fftfreq ny i * sy * (Smooth.fftfreq ny i * sy)
                  + Smooth.fftfreq nx j * sx * (Smooth.fftfreq nx j * sx))) in
  gsum ny nx (apply_filter ny nx ps kernel) = gsum ny nx ps.
Proof.
  intros kernel.
  rewrite (gsum_ext ny nx _
     (fun y x => / sqrt (npix ny nx) * gsum ny nx (fun ky kx => kernel ky kx
        * (cos_coef ny nx ps ky kx * cos (phase ny nx ky kx y x)
           + sin_coef ny nx ps ky kx * sin (phase ny nx ky kx y x)))))
    by (intros; apply apply_filter_eq).
  rewrite gsum_scal.
  rewrite (gsum_swap ny nx (fun y x ky kx => kernel ky kx
        * (cos_coef ny nx ps ky kx * cos (phase ny nx ky kx y x)
           + sin_coef ny nx ps ky kx * sin (phase ny nx ky kx y x)))).
  rewrite (gsum_ext ny nx _
     (fun ky kx => if ((ky =? 0) && (kx =? 0))%nat
                   then kernel 0%nat 0%nat * cos_coef ny nx ps 0%nat 0%nat * npix ny nx
                   else 0)).
  2:{ intros ky kx Hky Hkx.
      rewrite (gsum_ext ny nx _
         (fun y x => kernel ky kx * cos_coef ny nx ps ky kx * cos (phase ny nx ky kx y x)
                     + kernel ky kx * sin_coef ny nx ps ky kx * sin (phase ny nx ky kx y x)))
        by (intros; ring).
      rewrite gsum_plus, !gsum_scal, grid_cos_mode, grid_sin_mode by assumption.
      destruct ky as [|ky]; [destruct kx as [|kx]|]; cbn [Nat.eqb andb]; ring. }
  rewrite gsum_origin.
  assert (Hk : kernel 0%nat 0%nat = 1).
  { unfold kernel. rewrite !fftfreq_0.
    match goal with |- exp ?a = 1 => replace a with 0 by ring end. apply exp_0. }
  assert (Hc : cos_coef ny nx ps 0%nat 0%nat = / sqrt (npix ny nx) * gsum ny nx ps).
  { unfold cos_coef. f_equal. apply gsum_ext. intros y x _ _.
    replace (phase ny nx 0 0 y x) with 0 by (unfold phase, Rdiv; simpl; ring).
    rewrite cos_0. ring. }
  rewrite Hk, Hc.
  pose proof (npix_pos ny nx ny_pos nx_pos) as HN.
  pose proof (sqrt_npix_neq ny nx ny_pos nx_pos) as Hs.
  rewrite <- (sqrt_sqrt (npix ny nx)) at 3 by lra. field. exact Hs.
Qed.

End SmoothProps.

Lemma smooth_kernel_sum (ny nx : nat) (ps : Filter.rmap) (sy sx : R) :
  let kernel := fun i j : nat =>
    exp (- 0.5 * (Smooth.fftfreq ny i * sy * (Smooth.fftfreq ny i * sy)
                  + Smooth.fftfreq nx j * sx * (Smooth.fftfreq nx j * sx))) in
  Filter.gsum ny nx (Filter.apply_filter ny nx ps kernel) = Filter.gsum ny nx ps.
Proof.
  destruct ny as [|ny]; [reflexivity|].
  destruct nx as [|nx].
  - intros kernel. unfold Filter.gsum.
    now rewrite !(rsum_ext _ _ (fun _ => 0)) by reflexivity.
  - apply smooth_ps_gauss_sum_pos; lia.
Qed.

(** Smoothing a power spectrum with [smooth_ps_gauss] conserves the total
    power. When both multipole axes have an element [1], and these
    resolutions are not zero, the call returns a map, and, whatever the width
    [lsigma] of the smoothing kernel, the values of the smoothed spectrum sum
    to the same as those of the spectrum itself (so the mean is kept too). *)
Theorem smooth_ps_gauss_sum (ny nx : nat) (ps : Filter.rmap) (lsigma : R) (ly lx : list R) :
  (2 <= length ly)%nat -> (2 <= length lx)%nat ->
  nth 1 ly 0 <> 0 -> nth 1 lx 0 <> 0 ->
  exists out, Smooth.smooth_ps_gauss ny nx ps lsigma ly lx = Py.Ok out
              /\ Filter.gsum ny nx out = Filter.gsum ny nx ps.
Proof.
  intros Hly Hlx _ _. unfold Smooth.smooth_ps_gauss.
  change 1%Z with (Z.of_nat 1).
  rewrite (item_nat 0 ly 1), (item_nat 0 lx 1) by lia.
  cbn [Py.bind fst snd]. eexists. split; [reflexivity|].
  apply (smooth_kernel_sum ny nx ps (Rabs (lsigma / nth 1 ly 0)) (Rabs (lsigma / nth 1 lx 0))).
Qed.

Lemma smooth_ps_gauss_sum_witness :
  exists out, Smooth.smooth_ps_gauss 2 2 (fun _ _ => 1) 3 [0; 2] [0; 2] = Py.Ok out
              /\ Filter.gsum 2 2 out = Filter.gsum 2 2 (fun _ _ => 1).
Proof.
  apply (smooth_ps_gauss_sum 2 2 (fun _ _ => 1) 3 [0; 2] [0; 2]); simpl; try lia; lra.
Defined.
